(** * FocusWriter themes ([src/theme.cpp]): a shallow embedding

    The development follows the source file top to bottom: the byte level
    file comparison [compareFiles], the image interning [copyImage], the
    maintenance pass [Theme::copyBackgrounds], the alpha of the foreground
    fill in [Theme::render], the registry paths, [Theme::setName],
    [Theme::setBackgroundImage], [Theme::foregroundRect],
    [Theme::operator==], [Theme::reload] and [Theme::write].

    The Qt classes the code calls ([QFile], [QDir], [QSettings], [QColor],
    [QFont], [QCryptographicHash], [QUrl]) are modelled by the small
    executable definitions of the first part. What [QDir::exists] answers
    for a name that is not a plain file name is left open: the maintenance
    pass is parametrised by it ([PathResolution]). *)

From Stdlib Require Import ZArith String Ascii List Bool Lia.
From Stdlib Require Import Strings.Byte.
From Stdlib Require Import DecimalString DecimalZ DecimalFacts.
From Stdlib Require Import SpecFloat.
From stdpp Require Import base option list strings gmap sorting.
From Equations Require Import Equations.

Local Open Scope string_scope.

(** ** Strings

    A [QString] is modelled by the sequence of bytes of its UTF-8 encoding,
    so that [QString::toUtf8] is the identity on the characters; case
    mapping is modelled on the ASCII letters. *)

Definition toUtf8 (s : string) : list byte := list_byte_of_string s.

Definition lower_ascii (c : ascii) : ascii :=
  let n := nat_of_ascii c in
  if (65 <=? n)%nat && (n <=? 90)%nat then ascii_of_nat (n + 32) else c.

Fixpoint toLower (s : string) : string :=
  match s with
  | EmptyString => EmptyString
  | String c r => String (lower_ascii c) (toLower r)
  end.

Definition isEmpty (s : string) : bool := match s with EmptyString => true | _ => false end.

(** [has_char c s]: the character [c] occurs in [s]. *)
Fixpoint has_char (c : ascii) (s : string) : bool :=
  match s with
  | EmptyString => false
  | String a r => Ascii.eqb a c || has_char c r
  end.

(** The part of [s] after the last occurrence of [c] ([None] when [c] does
    not occur). *)
Fixpoint after_last (c : ascii) (s : string) : option string :=
  match s with
  | EmptyString => None
  | String a r =>
      match after_last c r with
      | Some t => Some t
      | None => if Ascii.eqb a c then Some r else None
      end
  end.

(** [QFileInfo::fileName]: what follows the last slash of the path. *)
Definition fileName (path : string) : string :=
  match after_last "/" path with
  | Some n => n
  | None => path
  end.

(** [QFileInfo::suffix]: what follows the last dot of the file name, empty
    when the name has no dot. *)
Definition suffix (path : string) : string :=
  match after_last "." (fileName path) with
  | Some e => e
  | None => EmptyString
  end.

(** Decimal notation of an integer, as [QString::arg(int)] and
    [QVariant::toString] print it. *)
Definition number (z : Z) : string := NilZero.string_of_int (Z.to_int z).

(** ** SHA-1 ([QCryptographicHash::Sha1]) on 32-bit words held in [Z] *)

Module Sha1.
Local Open Scope Z_scope.

Definition w32 (x : Z) : Z := x mod 2 ^ 32.
Definition rotl (n x : Z) : Z :=
  w32 (Z.lor (Z.shiftl x n) (Z.shiftr x (32 - n))).
Definition not32 (x : Z) : Z := 2 ^ 32 - 1 - x.

Definition byteZ (b : byte) : Z := Z.of_N (Byte.to_N b).

(** The 64-bit big-endian length field. *)
Definition be64 (n : Z) : list Z :=
  map (fun i => Z.shiftr n (8 * i) mod 256) [7; 6; 5; 4; 3; 2; 1; 0].

Definition pad (msg : list Z) : list Z :=
  let len := Z.of_nat (length msg) in
  let zeros := Z.to_nat ((55 - len) mod 64) in
  msg ++ 128 :: repeat 0 zeros ++ be64 (8 * len).

Fixpoint words (bs : list Z) : list Z :=
  match bs with
  | a :: b :: c :: d :: r =>
      (Z.shiftl a 24 + Z.shiftl b 16 + Z.shiftl c 8 + d) :: words r
  | _ => []
  end.

Record state := State { ha : Z; hb : Z; hc : Z; hd : Z; he : Z }.

Definition init : state :=
  State 0x67452301 0xEFCDAB89 0x98BADCFE 0x10325476 0xC3D2E1F0.

Definition fk (i b c d : Z) : Z * Z :=
  if i <? 20 then (Z.lor (Z.land b c) (Z.land (not32 b) d), 0x5A827999)
  else if i <? 40 then (Z.lxor (Z.lxor b c) d, 0x6ED9EBA1)
  else if i <? 60 then
    (Z.lor (Z.lor (Z.land b c) (Z.land b d)) (Z.land c d), 0x8F1BBCDC)
  else (Z.lxor (Z.lxor b c) d, 0xCA62C1D6).

(** [n] rounds from round [i]; [w] is the window of the sixteen schedule
    words [w_i .. w_(i+15)]. *)
Fixpoint rounds (n : nat) (i : Z) (w : list Z) (s : state) : state :=
  match n with
  | O => s
  | S n' =>
      let wi := nth 0 w 0 in
      let '(f, k) := fk i (hb s) (hc s) (hd s) in
      let t := w32 (rotl 5 (ha s) + f + he s + k + wi) in
      let wn :=
        rotl 1 (Z.lxor (Z.lxor (Z.lxor (nth 13 w 0) (nth 8 w 0)) (nth 2 w 0)) wi) in
      rounds n' (i + 1) (tl w ++ [wn])
        (State t (ha s) (rotl 30 (hb s)) (hc s) (hd s))
  end.

Definition block (h : state) (w : list Z) : state :=
  let s := rounds 80 0 w h in
  State (w32 (ha h + ha s)) (w32 (hb h + hb s)) (w32 (hc h + hc s))
        (w32 (hd h + hd s)) (w32 (he h + he s)).

Fixpoint blocks (n : nat) (h : state) (ws : list Z) : state :=
  match n with
  | O => h
  | S n' => blocks n' (block h (firstn 16 ws)) (skipn 16 ws)
  end.

Definition be32 (x : Z) : list Z :=
  map (fun i => Z.shiftr x (8 * i) mod 256) [3; 2; 1; 0].

Definition digest (msg : list byte) : list Z :=
  let ws := words (pad (map byteZ msg)) in
  let h := blocks (length ws / 16) init ws in
  be32 (ha h) ++ be32 (hb h) ++ be32 (hc h) ++ be32 (hd h) ++ be32 (he h).
End Sha1.

(** [QByteArray::toHex]: two lower-case hexadecimal digits per byte. *)
Definition hex_digit (d : Z) : ascii :=
  nth (Z.to_nat d) (list_ascii_of_string "0123456789abcdef") "0"%char.

Fixpoint toHex (bs : list Z) : string :=
  match bs with
  | [] => EmptyString
  | b :: r => String (hex_digit (b / 16)) (String (hex_digit (b mod 16)) (toHex r))
  end.

(** ** Files ([QFile]) and directories ([QDir])

    The file system maps a path to a file: its bytes and whether the
    process may read it. Paths are compared as strings, and a directory
    joins its path and a name with a slash. *)

Record file := File { content : list byte; readable : bool }.

#[global] Instance byte_eq_dec : EqDecision byte := Byte.byte_eq_dec.
#[global] Instance file_eq_dec : EqDecision file.
Proof. solve_decision. Defined.

Abbreviation filesystem := (gmap string file).

(** [QFile::size]: the size of the file on disk, 0 when there is none. *)
Definition QFile_size (fs : filesystem) (path : string) : nat :=
  match fs !! path with
  | Some f => length (content f)
  | None => 0
  end.

(** [QFile::open(QFile::ReadOnly)]: the byte stream, when the file exists
    and can be read. *)
Definition QFile_open (fs : filesystem) (path : string) : option (list byte) :=
  match fs !! path with
  | Some f => if readable f then Some (content f) else None
  | None => None
  end.

Definition QFile_exists (fs : filesystem) (path : string) : bool :=
  bool_decide (is_Some (fs !! path)).

(** [QFile::copy]: fails when the source cannot be opened or the
    destination exists; the file system is then left as it was. *)
Definition QFile_copy (fs : filesystem) (src dst : string) : bool * filesystem :=
  match QFile_open fs src with
  | Some bytes =>
      if QFile_exists fs dst then (false, fs)
      else (true, <[dst := File bytes true]> fs)
  | None => (false, fs)
  end.

Definition QFile_remove (fs : filesystem) (path : string) : filesystem :=
  delete path fs.

(** [QDir::filePath]. *)
Definition filePathIn (dir name : string) : string := dir +:+ "/" +:+ name.

(** [strip_prefix p s] is [Some r] exactly when [s = p ++ r]. *)
Fixpoint strip_prefix (p s : string) : option string :=
  match p, s with
  | EmptyString, _ => Some s
  | String a p', String b s' => if Ascii.eqb a b then strip_prefix p' s' else None
  | String _ _, EmptyString => None
  end.

(** A directory entry has a name that is not empty and holds no slash. *)
Definition entry_name (n : string) : bool :=
  negb (isEmpty n) && negb (has_char "/" n).

(** A hidden file, which a listing without [QDir::Hidden] leaves out: as
    on Unix, a file whose name begins with a dot. *)
Definition isHidden (n : string) : bool :=
  match n with
  | String c _ => Ascii.eqb c "."
  | EmptyString => false
  end.

(** A name that names a file of a directory and nothing else: a directory
    entry that is neither [.] nor [..]. *)
Definition file_name (n : string) : bool :=
  entry_name n && negb (String.eqb n ".") && negb (String.eqb n "..").

(** The default order of a [QDir] listing: by name, ignoring case. *)
Definition name_le (a b : string) : Prop :=
  String.leb (toLower a) (toLower b) = true.

#[global] Instance name_le_dec : RelDecision name_le.
Proof. intros a b. unfold name_le. apply _. Defined.

(** [QDir::entryList(QDir::Files)] of the directory [dir], over any store
    keyed by path: the files of the directory that are not hidden (the
    filter has no [QDir::Hidden]). *)
Definition entryList {V : Type} (dir : string) (m : gmap string V) : list string :=
  merge_sort name_le
    (filter (fun n => entry_name n && negb (isHidden n) = true)
       (omap (strip_prefix (dir +:+ "/")) (map_to_list m).*1)).

(** ** [compareFiles] *)

(** The loop [while (!file1.atEnd())] over the two opened streams: each
    turn reads up to 1000 bytes of both. *)
Equations? compare_loop (s1 s2 : list byte) : bool by wf (length s1) lt :=
  compare_loop [] _ := true;
  compare_loop (b :: r) s2 :=
    if decide (firstn 1000 (b :: r) = firstn 1000 s2)
    then compare_loop (skipn 1000 (b :: r)) (skipn 1000 s2)
    else false.
Proof. rewrite length_skipn. simpl. lia. Defined.

Definition compareFiles (fs : filesystem) (filename1 filename2 : string) : bool :=
  (* Compare sizes *)
  if negb (QFile_size fs filename1 =? QFile_size fs filename2)%nat then false
  else
    (* Compare contents *)
    match QFile_open fs filename1 with
    | Some s1 =>
        match QFile_open fs filename2 with
        | Some s2 => compare_loop s1 s2
        | None => false
        end
    | None => false
    end.

(** ** [copyImage] *)

Definition imagesDir (root : string) : string := root +:+ "/Images".

(** The [foreach] over the listing of the Images directory: the first
    file with the bytes of [image]. *)
Fixpoint first_match (fs : filesystem) (image dir : string)
    (filenames : list string) : option string :=
  match filenames with
  | [] => None
  | filename :: rest =>
      if compareFiles fs image (filePathIn dir filename) then Some filename
      else first_match fs image dir rest
  end.

(** [QString("%1.%2").arg(base, suffix)] *)
Definition plain_name (base sfx : string) : string := base +:+ "." +:+ sfx.

(** [QString("%1-%2.%3").arg(base).arg(id).arg(suffix)] *)
Definition numbered_name (base : string) (id : Z) (sfx : string) : string :=
  base +:+ "-" +:+ number id +:+ "." +:+ sfx.

(** The loop [while (images.exists(filename))]. A turn is taken only when
    the name tested is the name of a file, and the names tested are
    distinct, so the loop takes at most as many turns as the file system
    has files: [fuel] starts there ([resolve_collisions_free] shows that the
    loop leaves through its condition), and [id] stays far below the range
    of an [int]. *)
Fixpoint resolve_collisions (fuel : nat) (fs : filesystem) (dir base sfx : string)
    (id : Z) (filename : string) : string :=
  if QFile_exists fs (filePathIn dir filename) then
    match fuel with
    | O => filename
    | S fuel' =>
        resolve_collisions fuel' fs dir base sfx (id + 1)
          (numbered_name base (id + 1) sfx)
    end
  else filename.

(** The base of the name of a new copy:
    [QCryptographicHash::hash(image.toUtf8(), QCryptographicHash::Sha1).toHex()],
    where [image] is the path that [copyImage] is given. *)
Definition candidate_base (image : string) : string :=
  toHex (Sha1.digest (toUtf8 image)).

Definition copyImage (root : string) (fs : filesystem) (image : string)
    : string * filesystem :=
  (* Check if already copied *)
  let images := imagesDir root in
  let filenames := entryList images fs in
  match first_match fs image images filenames with
  | Some filename => (filename, fs)
  | None =>
      (* Find file name *)
      let base := candidate_base image in
      let sfx := toLower (suffix image) in
      let filename := plain_name base sfx in
      (* Handle file name collisions *)
      let filename := resolve_collisions (size fs) fs images base sfx 0 filename in
      let '(_, fs') := QFile_copy fs image (filePathIn images filename) in
      (filename, fs')
  end.

(** ** Settings ([QSettings], INI format) and the store

    A definition file holds text: a key has a string for value, and the
    typed accessors convert. *)

Abbreviation settings := (gmap string string).

Definition int_min : Z := - 2 ^ 31.
Definition int_max : Z := 2 ^ 31 - 1.

(** [QVariant::toInt] of a string: 0 when it is not the decimal notation
    of an [int]. *)
Definition toInt (s : string) : Z :=
  match NilZero.int_of_string s with
  | Some d =>
      let z := Z.of_int d in
      if (int_min <=? z)%Z && (z <=? int_max)%Z then z else 0%Z
  | None => 0%Z
  end.

Definition of_bool (b : bool) : string := if b then "true" else "false".

(** [QVariant::toBool] of a string. *)
Definition toBool (s : string) : bool :=
  let l := toLower s in
  negb (isEmpty l || String.eqb l "0" || String.eqb l "false").

(** [QSettings::value(key, default)]. *)
Definition value (s : settings) (key dflt : string) : string :=
  match s !! key with
  | Some v => v
  | None => dflt
  end.

Record store := Store {
  files : filesystem;                  (* byte files: images, icons *)
  themes : gmap string settings;       (* definition files, by path *)
  current_session : string;            (* theme of the unsaved session *)
  sessions : gmap string string        (* theme of a session file, by path *)
}.

(** [QSettings settings(path, QSettings::IniFormat)]. *)
Definition QSettings_open (st : store) (path : string) : settings :=
  match themes st !! path with
  | Some s => s
  | None => ∅
  end.

(** [settings.setValue(key, v)] on the settings of the file [path]. *)
Definition setValue (st : store) (path key v : string) : store :=
  Store (files st) (<[path := <[key := v]> (QSettings_open st path)]> (themes st))
        (current_session st) (sessions st).

Definition with_files (st : store) (fs : filesystem) : store :=
  Store fs (themes st) (current_session st) (sessions st).

(** ** [Theme::copyBackgrounds] *)

Fixpoint ends_with (e s : string) : bool :=
  String.eqb e s ||
  match s with
  | EmptyString => false
  | String _ r => ends_with e r
  end.

(** The name filter ["*.theme"]. *)
Definition is_theme_file (n : string) : bool := ends_with ".theme" (toLower n).

(** [QDir::exists(name)] of the directory [dir]. The name comes out of a
    definition file and is any string; Qt resolves it on the disk (a
    relative name against the directory, through [.], [..] and links), and
    what it answers is left open here but for a plain file name [n], where
    it tells whether the file [dir/n] exists. The pass below is defined,
    and its properties are proved, for every such answer. *)
Class PathResolution := {
  QDir_exists : filesystem -> string -> string -> bool;
  QDir_exists_file_name :
    forall (fs : filesystem) (dir n : string),
      file_name n = true ->
      QDir_exists fs dir n = QFile_exists fs (filePathIn dir n)
}.

(** One turn of the loop [foreach (const QString& theme, themes)]; [images]
    is the list of the names in use. *)
Definition copy_step {R : PathResolution} (root : string)
    (acc : store * list string) (theme : string) : store * list string :=
  let '(st, images) := acc in
  let dir := imagesDir root in
  let file := root +:+ "/" +:+ theme in
  let s := QSettings_open st file in
  let background_path := value s "Background/Image" EmptyString in
  let background_image := value s "Background/ImageFile" EmptyString in
  if isEmpty background_path && isEmpty background_image then (st, images)
  else if negb (isEmpty background_path)
          && (isEmpty background_image
              || negb (QDir_exists (files st) dir background_image))
  then
    let '(background_image, fs') := copyImage root (files st) background_path in
    (setValue (with_files st fs') file "Background/ImageFile" background_image,
     (images ++ [background_image])%list)
  else (st, (images ++ [background_image])%list).

(** The loop [foreach (const QString& file, files)] that deletes the
    images no theme uses. *)
Definition remove_unused (root : string) (images : list string)
    (fs : filesystem) (names : list string) : filesystem :=
  foldl (fun fs file =>
           if bool_decide (file ∈ images) then fs
           else QFile_remove fs (root +:+ "/Images/" +:+ file))
        fs names.

Definition copyBackgrounds {R : PathResolution} (root : string) (st : store)
    : store :=
  (* Copy images *)
  let themes := filter (fun n => is_theme_file n = true) (entryList root (themes st)) in
  let '(st1, images) := foldl (copy_step root) (st, []) themes in
  (* Delete unused images *)
  let names := entryList (imagesDir root) (files st1) in
  with_files st1 (remove_unused root images (files st1) names).

(** ** The parameter set ([Theme::ThemeData]) *)

(** Modelled from the spec: the class [RangedInt] of the header [theme.h],
    which is not among the sources. A scalar with an inclusive range;
    assignment clamps to the nearest bound and equality compares the
    values. *)
Record RangedInt := Ranged { rmin : Z; rmax : Z; rvalue : Z }.

Definition assign (r : RangedInt) (v : Z) : RangedInt :=
  Ranged (rmin r) (rmax r) (Z.max (rmin r) (Z.min v (rmax r))).

Definition RangedInt_eqb (a b : RangedInt) : bool := (rvalue a =? rvalue b)%Z.

(** A [QColor] in the RGB model with 8-bit channels; a default constructed
    colour is not valid. *)
Record QColor := Color { valid : bool; red : Z; green : Z; blue : Z; alpha : Z }.

Definition invalid_color : QColor := Color false 0 0 0 255.

Definition QColor_eqb (a b : QColor) : bool :=
  Bool.eqb (valid a) (valid b) && (red a =? red b)%Z && (green a =? green b)%Z
  && (blue a =? blue b)%Z && (alpha a =? alpha b)%Z.

(** [QColor::name]: the notation [#rrggbb], without the alpha channel. *)
Definition QColor_name (c : QColor) : string :=
  String "#" (toHex [red c; green c; blue c]).

Definition hex_value (c : ascii) : option Z :=
  let n := Z.of_nat (nat_of_ascii c) in
  if (48 <=? n)%Z && (n <=? 57)%Z then Some (n - 48)%Z
  else if (97 <=? n)%Z && (n <=? 102)%Z then Some (n - 87)%Z
  else if (65 <=? n)%Z && (n <=? 70)%Z then Some (n - 55)%Z
  else None.

Definition hex_pair (a b : ascii) : option Z :=
  match hex_value a, hex_value b with
  | Some h, Some l => Some (16 * h + l)%Z
  | _, _ => None
  end.

(** The colour a string converts to, for the notation [#rrggbb] that
    [QColor::name] writes; the colour is opaque. Any other string gives the
    invalid colour here. *)
Definition QColor_fromString (s : string) : QColor :=
  match s with
  | String "#" (String r1 (String r2 (String g1 (String g2
      (String b1 (String b2 EmptyString)))))) =>
      match hex_pair r1 r2, hex_pair g1 g2, hex_pair b1 b2 with
      | Some r, Some g, Some b => Color true r g b 255
      | _, _, _ => invalid_color
      end
  | _ => invalid_color
  end.

(** Modelled from the documentation of Qt: the class [QFont]. A font is
    held in two parts: the attributes its descriptor carries (family,
    sizes, style hint, weight, style, underline, strike out, fixed pitch),
    as the descriptor [QFont::toString] gives, and the attributes the
    descriptor does not carry (overline, kerning, letter and word spacing,
    stretch, capitalization), which [operator==] compares all the same. *)
Record QFont := Font { font_descriptor : string; font_others : list Z }.

Definition QFont_toString (f : QFont) : string := font_descriptor f.

Definition QFont_eqb (a b : QFont) : bool :=
  String.eqb (font_descriptor a) (font_descriptor b)
  && bool_decide (font_others a = font_others b).

(** The number of fields of a comma separated descriptor. *)
Fixpoint descriptor_fields (s : string) : nat :=
  match s with
  | EmptyString => 1
  | String c r =>
      if Ascii.eqb c "," then S (descriptor_fields r) else descriptor_fields r
  end.

(** [font.fromString(descriptor)], as the font it leaves. Qt refuses a
    descriptor whose number of comma separated fields is from 3 to 8 or
    above 11, and then leaves the font as it was. A descriptor it accepts
    sets the attributes the descriptor carries and leaves every other
    attribute of the font as it was. (In Qt a descriptor of one or two
    fields sets the family and the size alone; here it replaces the
    descriptor part as a whole. The descriptors [QFont::toString] writes
    have ten or eleven fields, and no statement below rests on what a
    shorter one does: each names the font it needs restored.) *)
Definition QFont_fromString (f : QFont) (descriptor : string) : QFont :=
  let count := descriptor_fields descriptor in
  if ((2 <? count) && (count <? 9))%nat || (11 <? count)%nat then f
  else Font descriptor (font_others f).

(** [QFont("Times New Roman")], at the default size. *)
Definition default_font : QFont :=
  Font "Times New Roman,12,-1,5,50,0,0,0,0,0" [].

Record ThemeData := {
  name : string;
  background_type : RangedInt;
  background_color : QColor;
  background_path : string;
  background_image : string;
  foreground_color : QColor;
  foreground_opacity : RangedInt;
  foreground_width : RangedInt;
  foreground_rounding : RangedInt;
  foreground_margin : RangedInt;
  foreground_padding : RangedInt;
  foreground_position : RangedInt;
  blur_enabled : bool;
  blur_radius : RangedInt;
  shadow_enabled : bool;
  shadow_offset : RangedInt;
  shadow_radius : RangedInt;
  shadow_color : QColor;
  text_color : QColor;
  text_font : QFont;
  misspelled_color : QColor;
  indent_first_line : bool;
  line_spacing : RangedInt;
  paragraph_spacing_above : RangedInt;
  paragraph_spacing_below : RangedInt;
  tab_width : RangedInt;
  is_changed : bool
}.

(** [r] has the range the constructor of [ThemeData] declares, and its
    value lies within. *)
Definition ranged (lo hi : Z) (r : RangedInt) : Prop :=
  rmin r = lo /\ rmax r = hi /\ (lo <= rvalue r <= hi)%Z.

(** The ranges of [Theme::ThemeData::ThemeData]. *)
Definition within_bounds (d : ThemeData) : Prop :=
  ranged 0 5 (background_type d) /\
  ranged 0 100 (foreground_opacity d) /\
  ranged 500 9999 (foreground_width d) /\
  ranged 0 100 (foreground_rounding d) /\
  ranged 1 250 (foreground_margin d) /\
  ranged 0 250 (foreground_padding d) /\
  ranged 0 3 (foreground_position d) /\
  ranged 1 128 (blur_radius d) /\
  ranged 0 128 (shadow_offset d) /\
  ranged 1 128 (shadow_radius d) /\
  ranged 50 1000 (line_spacing d) /\
  ranged 0 1000 (paragraph_spacing_above d) /\
  ranged 0 1000 (paragraph_spacing_below d) /\
  ranged 1 1000 (tab_width d).

(** ** [Theme::render]: the colour of the foreground fill

    [foregroundOpacity() * 2.55f] is a product of single precision floats
    (24 bits of mantissa), and [QColor::setAlpha(int)] receives it converted
    to [int], which drops the fraction. *)

Definition float_of_int (z : Z) : spec_float := binary_normalize 24 128 z 0 false.

(** The literal [2.55f]: 10695475 * 2^-22. *)
Definition float_2_55 : spec_float := S754_finite false 10695475 (-22).

Definition int_of_float (x : spec_float) : Z :=
  match x with
  | S754_finite s m e =>
      let v := if (0 <=? e)%Z then (Zpos m * 2 ^ e)%Z
               else Z.quot (Zpos m) (2 ^ (- e)) in
      if s then (- v)%Z else v
  | _ => 0%Z
  end.

Definition setAlpha (c : QColor) (a : Z) : QColor :=
  Color (valid c) (red c) (green c) (blue c) a.

Definition foreground_alpha (opacity : Z) : Z :=
  int_of_float (SFmul 24 128 (float_of_int opacity) float_2_55).

(** The colour [painter.fillRect(foreground, color)] fills with. *)
Definition render_foreground_color (d : ThemeData) : QColor :=
  let color := foreground_color d in
  setAlpha color (foreground_alpha (rvalue (foreground_opacity d))).

(** ** [Theme::filePath], [Theme::iconPath] *)

Definition unreserved (c : ascii) : bool :=
  let n := nat_of_ascii c in
  ((48 <=? n) && (n <=? 57) || (65 <=? n) && (n <=? 90)
   || (97 <=? n) && (n <=? 122))%nat
  || has_char c "-._~".

Definition upper_hex_digit (d : nat) : ascii :=
  nth d (list_ascii_of_string "0123456789ABCDEF") "0"%char.

(** [QUrl::toPercentEncoding(s, exclude)]. *)
Fixpoint toPercentEncoding (s exclude : string) : string :=
  match s with
  | EmptyString => EmptyString
  | String c r =>
      if unreserved c || has_char c exclude
      then String c (toPercentEncoding r exclude)
      else
        let n := nat_of_ascii c in
        String "%" (String (upper_hex_digit (n / 16))
          (String (upper_hex_digit (n mod 16)) (toPercentEncoding r exclude)))
  end.

Definition filePath (root theme : string) : string :=
  root +:+ "/" +:+ toPercentEncoding theme " " +:+ ".theme".

Definition iconPath (root theme : string) : string :=
  root +:+ "/" +:+ toPercentEncoding theme " " +:+ ".png".

(** ** [Theme::ThemeData::ThemeData]: the name of the theme

    [QFile::exists] on a path of the store holds of a definition file and
    of a byte file. *)
Definition Store_exists (st : store) (path : string) : bool :=
  bool_decide (is_Some (themes st !! path)) || QFile_exists (files st) path.

(** [Theme::tr("Untitled %1").arg(count)], with no translation loaded. *)
Definition untitled (count : Z) : string := "Untitled " +:+ number count.

(** The loop [do { count++; ... } while (QFile::exists(Theme::filePath(untitled)))].
    A further turn is taken only when the name tested is the name of a
    file, and the names tested are distinct, so the loop takes at most as
    many turns as the store has files: [fuel] starts there
    ([untitled_loop_spec] and [untitled_pigeonhole] show that the loop
    leaves through its condition). *)
Fixpoint untitled_loop (fuel : nat) (root : string) (st : store) (count : Z) : string :=
  let count := (count + 1)%Z in
  let name := untitled count in
  if Store_exists st (filePath root name) then
    match fuel with
    | O => name
    | S fuel' => untitled_loop fuel' root st count
    end
  else name.

(** The member [name] once the constructor has run. *)
Definition ThemeData_name (root : string) (st : store) (name_ : string)
    (create : bool) : string :=
  if isEmpty name_ && create
  then untitled_loop (size (themes st) + size (files st)) root st 0
  else name_.

(** ** Sessions

    Modelled from the spec: the class [Session] of [session.h], which is
    not among the sources. A session: a session file of the directory
    [Session::path()], or the unsaved current session, which the empty file
    name stands for; it exposes the getter [theme()] and the setter
    [setTheme(name)]. *)

Definition Session_theme (spath : string) (st : store) (file : string) : string :=
  if isEmpty file then current_session st
  else match sessions st !! filePathIn spath file with
       | Some t => t
       | None => EmptyString
       end.

Definition Session_setTheme (spath : string) (st : store) (file theme : string) : store :=
  if isEmpty file then Store (files st) (themes st) theme (sessions st)
  else Store (files st) (themes st) (current_session st)
         (<[filePathIn spath file := theme]> (sessions st)).

(** The name filter ["*.session"]. *)
Definition is_session_file (n : string) : bool := ends_with ".session" (toLower n).

(** The list [files] of [Theme::setName]: the current session first. *)
Definition session_files (spath : string) (st : store) : list string :=
  EmptyString :: filter (fun n => is_session_file n = true) (entryList spath (sessions st)).

(** ** [Theme::setName] *)

(** Modelled from the spec: the member template [setValue] of [theme.h],
    which is not among the sources. A setter stores the value and marks the
    parameter set as changed. *)
Definition mark_changed (d : ThemeData) (differs : bool) : bool :=
  if differs then true else is_changed d.

Definition set_name (d : ThemeData) (n : string) : ThemeData :=
  {| name := n;
     background_type := background_type d; background_color := background_color d;
     background_path := background_path d; background_image := background_image d;
     foreground_color := foreground_color d; foreground_opacity := foreground_opacity d;
     foreground_width := foreground_width d; foreground_rounding := foreground_rounding d;
     foreground_margin := foreground_margin d; foreground_padding := foreground_padding d;
     foreground_position := foreground_position d;
     blur_enabled := blur_enabled d; blur_radius := blur_radius d;
     shadow_enabled := shadow_enabled d; shadow_offset := shadow_offset d;
     shadow_radius := shadow_radius d; shadow_color := shadow_color d;
     text_color := text_color d; text_font := text_font d;
     misspelled_color := misspelled_color d;
     indent_first_line := indent_first_line d; line_spacing := line_spacing d;
     paragraph_spacing_above := paragraph_spacing_above d;
     paragraph_spacing_below := paragraph_spacing_below d;
     tab_width := tab_width d;
     is_changed := mark_changed d (negb (String.eqb (name d) n)) |}.

Definition set_background (d : ThemeData) (path image : string) (changed : bool)
    : ThemeData :=
  {| name := name d;
     background_type := background_type d; background_color := background_color d;
     background_path := path; background_image := image;
     foreground_color := foreground_color d; foreground_opacity := foreground_opacity d;
     foreground_width := foreground_width d; foreground_rounding := foreground_rounding d;
     foreground_margin := foreground_margin d; foreground_padding := foreground_padding d;
     foreground_position := foreground_position d;
     blur_enabled := blur_enabled d; blur_radius := blur_radius d;
     shadow_enabled := shadow_enabled d; shadow_offset := shadow_offset d;
     shadow_radius := shadow_radius d; shadow_color := shadow_color d;
     text_color := text_color d; text_font := text_font d;
     misspelled_color := misspelled_color d;
     indent_first_line := indent_first_line d; line_spacing := line_spacing d;
     paragraph_spacing_above := paragraph_spacing_above d;
     paragraph_spacing_below := paragraph_spacing_below d;
     tab_width := tab_width d;
     is_changed := changed |}.

(** One turn of the loop over the sessions. *)
Definition rename_step (spath old new : string) (st : store) (file : string) : store :=
  if String.eqb (Session_theme spath st file) old
  then Session_setTheme spath st file new
  else st.

Definition setName (root spath : string) (st : store) (d : ThemeData) (n : string)
    : store * ThemeData :=
  if negb (String.eqb (name d) n) then
    let st1 := foldl (rename_step spath (name d) n) st (session_files spath st) in
    let st2 :=
      Store (files st1) (delete (filePath root (name d)) (themes st1))
            (current_session st1) (sessions st1) in
    let st3 := with_files st2 (QFile_remove (files st2) (iconPath root (name d))) in
    (st3, set_name d n)
  else (st, d).

(** ** [Theme::setBackgroundImage] *)

Definition setBackgroundImage (root : string) (st : store) (d : ThemeData)
    (path : string) : store * ThemeData :=
  if negb (String.eqb (background_path d) path) then
    if negb (isEmpty path) then
      let '(image, fs') := copyImage root (files st) path in
      (with_files st fs', set_background d path image true)
    else (st, set_background d path EmptyString true)
  else (st, d).

(** ** [Theme::foregroundRect] *)

(** An [int] is held in [Z]; the result of an operation wraps around to
    32 bits, two's complement. *)
Definition int_wrap (z : Z) : Z := ((z + 2 ^ 31) mod 2 ^ 32 - 2 ^ 31)%Z.
Definition int_sub (a b : Z) : Z := int_wrap (a - b).
Definition int_mul (a b : Z) : Z := int_wrap (a * b).
Definition int_div (a b : Z) : Z := int_wrap (Z.quot a b).

Record QSize := Size { width : Z; height : Z }.
Record QRect := Rect { rect_x : Z; rect_y : Z; rect_width : Z; rect_height : Z }.

Definition foregroundRect (d : ThemeData) (size : QSize) : QRect :=
  let margin := rvalue (foreground_margin d) in
  let y := margin in
  let w := Z.min (rvalue (foreground_width d)) (int_sub (width size) (int_mul margin 2)) in
  let h := int_sub (height size) (int_mul margin 2) in
  match rvalue (foreground_position d) with
  | 0%Z => (* Left *)
      Rect margin y w h
  | 2%Z => (* Right *)
      Rect (int_sub (int_sub (width size) margin) w) y w h
  | 3%Z => (* Stretched *)
      Rect margin y (int_sub (width size) (int_mul margin 2)) h
  | _ => (* Centered *)
      Rect (int_div (int_sub (width size) w) 2) y w h
  end.

(** ** [Theme::operator==] *)

Definition Theme_eqb (a b : ThemeData) : bool :=
  String.eqb (name a) (name b)
  && RangedInt_eqb (background_type a) (background_type b)
  && QColor_eqb (background_color a) (background_color b)
  && String.eqb (background_path a) (background_path b)
  && String.eqb (background_image a) (background_image b)
  && QColor_eqb (foreground_color a) (foreground_color b)
  && RangedInt_eqb (foreground_opacity a) (foreground_opacity b)
  && RangedInt_eqb (foreground_width a) (foreground_width b)
  && RangedInt_eqb (foreground_rounding a) (foreground_rounding b)
  && RangedInt_eqb (foreground_margin a) (foreground_margin b)
  && RangedInt_eqb (foreground_padding a) (foreground_padding b)
  && RangedInt_eqb (foreground_position a) (foreground_position b)
  && Bool.eqb (blur_enabled a) (blur_enabled b)
  && RangedInt_eqb (blur_radius a) (blur_radius b)
  && Bool.eqb (shadow_enabled a) (shadow_enabled b)
  && RangedInt_eqb (shadow_offset a) (shadow_offset b)
  && RangedInt_eqb (shadow_radius a) (shadow_radius b)
  && QColor_eqb (shadow_color a) (shadow_color b)
  && QColor_eqb (text_color a) (text_color b)
  && QFont_eqb (text_font a) (text_font b)
  && QColor_eqb (misspelled_color a) (misspelled_color b)
  && Bool.eqb (indent_first_line a) (indent_first_line b)
  && RangedInt_eqb (line_spacing a) (line_spacing b)
  && RangedInt_eqb (paragraph_spacing_above a) (paragraph_spacing_above b)
  && RangedInt_eqb (paragraph_spacing_below a) (paragraph_spacing_below b)
  && RangedInt_eqb (tab_width a) (tab_width b).

(** ** [Theme::reload] *)

(** [settings.value(key, dflt).toInt()], [.toBool()], and the [QColor] a
    [.toString()] is assigned to. *)
Definition int_value (s : settings) (key : string) (dflt : Z) : Z :=
  toInt (value s key (number dflt)).
Definition bool_value (s : settings) (key : string) (dflt : bool) : bool :=
  toBool (value s key (of_bool dflt)).
Definition color_value (s : settings) (key dflt : string) : QColor :=
  QColor_fromString (value s key dflt).

Definition reload (root : string) (st : store) (d : ThemeData) : store * ThemeData :=
  if isEmpty (name d) then (st, d)
  else
    let s := QSettings_open st (filePath root (name d)) in
    (* Load background settings *)
    let path := value s "Background/Image" EmptyString in
    let image := value s "Background/ImageFile" EmptyString in
    let '(st', image', changed) :=
      if negb (isEmpty path) && isEmpty image then
        let '(copied, fs') := copyImage root (files st) path in
        (with_files st fs', copied, mark_changed d (negb (String.eqb image copied)))
      else (st, image, is_changed d) in
    (st',
     {| name := name d;
        background_type := assign (background_type d) (int_value s "Background/Type" 0);
        background_color := color_value s "Background/Color" "#cccccc";
        background_path := path;
        background_image := image';
        (* Load foreground settings *)
        foreground_color := color_value s "Foreground/Color" "#cccccc";
        foreground_opacity :=
          assign (foreground_opacity d) (int_value s "Foreground/Opacity" 100);
        foreground_width := assign (foreground_width d) (int_value s "Foreground/Width" 700);
        foreground_rounding :=
          assign (foreground_rounding d) (int_value s "Foreground/Rounding" 0);
        foreground_margin := assign (foreground_margin d) (int_value s "Foreground/Margin" 65);
        foreground_padding :=
          assign (foreground_padding d) (int_value s "Foreground/Padding" 0);
        foreground_position :=
          assign (foreground_position d) (int_value s "Foreground/Position" 1);
        blur_enabled := bool_value s "ForegroundBlur/Enabled" false;
        blur_radius := assign (blur_radius d) (int_value s "ForegroundBlur/Radius" 32);
        shadow_enabled := bool_value s "ForegroundShadow/Enabled" false;
        shadow_offset := assign (shadow_offset d) (int_value s "ForegroundShadow/Offset" 2);
        shadow_radius := assign (shadow_radius d) (int_value s "ForegroundShadow/Radius" 8);
        shadow_color := color_value s "ForegroundShadow/Color" "#000000";
        (* Load text settings *)
        text_color := color_value s "Text/Color" "#000000";
        text_font :=
          QFont_fromString (text_font d)
            (value s "Text/Font" (QFont_toString default_font));
        misspelled_color := color_value s "Text/Misspelled" "#ff0000";
        (* Load spacings *)
        indent_first_line := bool_value s "Spacings/IndentFirstLine" false;
        line_spacing := assign (line_spacing d) (int_value s "Spacings/LineSpacing" 100);
        paragraph_spacing_above :=
          assign (paragraph_spacing_above d) (int_value s "Spacings/ParagraphAbove" 0);
        paragraph_spacing_below :=
          assign (paragraph_spacing_below d) (int_value s "Spacings/ParagraphBelow" 0);
        tab_width := assign (tab_width d) (int_value s "Spacings/TabWidth" 48);
        is_changed := changed |}).

(** ** [Theme::write] *)

(** The calls of [settings.setValue], in the order of the source. *)
Definition write_entries (d : ThemeData) : list (string * string) :=
  (* Store background settings *)
  [("Background/Type", number (rvalue (background_type d)));
   ("Background/Color", QColor_name (background_color d))]
  ++ (if negb (isEmpty (background_path d))
      then [("Background/Image", background_path d)] else [])
  ++ [("Background/ImageFile", background_image d);
      (* Store foreground settings *)
      ("Foreground/Color", QColor_name (foreground_color d));
      ("Foreground/Opacity", number (rvalue (foreground_opacity d)));
      ("Foreground/Width", number (rvalue (foreground_width d)));
      ("Foreground/Rounding", number (rvalue (foreground_rounding d)));
      ("Foreground/Margin", number (rvalue (foreground_margin d)));
      ("Foreground/Padding", number (rvalue (foreground_padding d)));
      ("Foreground/Position", number (rvalue (foreground_position d)));
      ("ForegroundBlur/Enabled", of_bool (blur_enabled d));
      ("ForegroundBlur/Radius", number (rvalue (blur_radius d)));
      ("ForegroundShadow/Enabled", of_bool (shadow_enabled d));
      ("ForegroundShadow/Color", QColor_name (shadow_color d));
      ("ForegroundShadow/Radius", number (rvalue (shadow_radius d)));
      ("ForegroundShadow/Offset", number (rvalue (shadow_offset d)));
      (* Store text settings *)
      ("Text/Color", QColor_name (text_color d));
      ("Text/Font", QFont_toString (text_font d));
      ("Text/Misspelled", QColor_name (misspelled_color d));
      (* Store spacings *)
      ("Spacings/IndentFirstLine", of_bool (indent_first_line d));
      ("Spacings/LineSpacing", number (rvalue (line_spacing d)));
      ("Spacings/ParagraphAbove", number (rvalue (paragraph_spacing_above d)));
      ("Spacings/ParagraphBelow", number (rvalue (paragraph_spacing_below d)));
      ("Spacings/TabWidth", number (rvalue (tab_width d)))]%list.

Definition write (root : string) (st : store) (d : ThemeData) : store :=
  if isEmpty (name d) then st
  else
    foldl (fun st kv => setValue st (filePath root (name d)) (fst kv) (snd kv))
          st (write_entries d).

(** ** Definitions for the statements *)

(** The [k]-th chunk that [read(1000)] returns on a stream. *)
Definition chunk (k : nat) (s : list byte) : list byte :=
  firstn 1000 (skipn (1000 * k) s).

(** The names the collision loop of [copyImage] tests, in order: the plain
    name, then the numbered names from 1. *)
Definition candidate (base sfx : string) (j : nat) : string :=
  match j with
  | O => plain_name base sfx
  | S _ => numbered_name base (Z.of_nat j) sfx
  end.

(** The name [copyImage] resolves for a new copy of [image]. *)
Definition new_name (root : string) (fs : filesystem) (image : string) : string :=
  resolve_collisions (size fs) fs (imagesDir root) (candidate_base image)
    (toLower (suffix image)) 0
    (plain_name (candidate_base image) (toLower (suffix image))).

(** The last value a list of [setValue] calls gives to [key]. *)
Fixpoint last_binding (key : string) (l : list (string * string)) : option string :=
  match l with
  | [] => None
  | (k, v) :: r =>
      match last_binding key r with
      | Some v' => Some v'
      | None => if String.eqb k key then Some v else None
      end
  end.

(** A colour that [QColor::name] writes without loss: valid, opaque, with
    8-bit channels. *)
Definition opaque_color (c : QColor) : Prop :=
  valid c = true /\ alpha c = 255%Z /\
  (0 <= red c < 256)%Z /\ (0 <= green c < 256)%Z /\ (0 <= blue c < 256)%Z.

Definition opaque_colors (d : ThemeData) : Prop :=
  opaque_color (background_color d) /\ opaque_color (foreground_color d) /\
  opaque_color (shadow_color d) /\ opaque_color (text_color d) /\
  opaque_color (misspelled_color d).

(** Names for what [copy_step] reads of a theme: its definition file, its
    source path, its cached image name, and its two tests. *)
Definition theme_file (root theme : string) : string := root +:+ "/" +:+ theme.

Definition source_of (root : string) (st : store) (theme : string) : string :=
  value (QSettings_open st (theme_file root theme)) "Background/Image" EmptyString.

Definition cached_of (root : string) (st : store) (theme : string) : string :=
  value (QSettings_open st (theme_file root theme)) "Background/ImageFile" EmptyString.

(** The theme has no background: the loop goes on to the next theme. *)
Definition no_background (root : string) (st : store) (theme : string) : bool :=
  isEmpty (source_of root st theme) && isEmpty (cached_of root st theme).

(** The theme has a source and its cached image is not there: the source
    is interned. *)
Definition needs_copy {R : PathResolution} (root : string) (st : store)
    (theme : string) : bool :=
  negb (isEmpty (source_of root st theme))
  && (isEmpty (cached_of root st theme)
      || negb (QDir_exists (files st) (imagesDir root) (cached_of root st theme))).

(** The themes [copyBackgrounds] walks. *)
Definition theme_list (root : string) (st : store) : list string :=
  filter (fun n => is_theme_file n = true) (entryList root (themes st)).

(** File systems only grow while the themes are walked. *)
Definition grows (fs fs' : filesystem) : Prop :=
  forall k v, fs !! k = Some v -> fs' !! k = Some v.


(** The cached image name that a theme with a source records is empty or a
    plain file name, as the names are that [copyImage] returns. *)
Definition cached_plain (root : string) (st : store) (theme : string) : Prop :=
  source_of root st theme <> EmptyString ->
  cached_of root st theme = EmptyString \/
  file_name (cached_of root st theme) = true.


(** A path resolution for the instances: a leading [./] of a name is
    resolved, and the name that is left is looked up in the directory. *)
Fixpoint strip_dot_slash (s : string) : string :=
  match s with
  | String c1 (String c2 r) =>
      if Ascii.eqb c1 "." && Ascii.eqb c2 "/" then strip_dot_slash r else s
  | _ => s
  end.

(** The instance: a plain file name has no slash, so it is looked up as
    it is. *)
Definition dot_slash : PathResolution.
Proof.
  refine {| QDir_exists fs dir n :=
              QFile_exists fs (filePathIn dir (strip_dot_slash n)) |}.
  intros fs dir n H. do 2 f_equal.
  destruct n as [|c1 [|c2 r]]; [reflexivity|reflexivity|].
  unfold file_name, entry_name in H.
  cbn [strip_dot_slash has_char isEmpty negb andb] in *.
  destruct (Ascii.eqb c1 "."); [|reflexivity].
  destruct (Ascii.eqb_spec c2 "/") as [->|]; [|reflexivity].
  cbn in H. rewrite orb_true_r in H. discriminate H.
Defined.


(** ** The spec's words, for comparison with the code *)

(** The alpha of the foreground fill as the spec words it: the opacity
    times 2.55, rounded to the nearest integer. *)
Definition rounded_alpha (opacity : Z) : Z := ((opacity * 255 + 50) / 100)%Z.

(** ** Sample data for the instances *)

Definition opaque (r g b : Z) : QColor := Color true r g b 255.

(** A theme with the values of the layout example of the spec: margin 50
    and width 700. *)
Definition sample_theme (n : string) (position opacity : Z) : ThemeData :=
  {| name := n;
     background_type := Ranged 0 5 0;
     background_color := opaque 204 204 204;
     background_path := EmptyString;
     background_image := EmptyString;
     foreground_color := opaque 204 204 204;
     foreground_opacity := Ranged 0 100 opacity;
     foreground_width := Ranged 500 9999 700;
     foreground_rounding := Ranged 0 100 0;
     foreground_margin := Ranged 1 250 50;
     foreground_padding := Ranged 0 250 0;
     foreground_position := Ranged 0 3 position;
     blur_enabled := false;
     blur_radius := Ranged 1 128 32;
     shadow_enabled := false;
     shadow_offset := Ranged 0 128 2;
     shadow_radius := Ranged 1 128 8;
     shadow_color := opaque 0 0 0;
     text_color := opaque 0 0 0;
     text_font := default_font;
     misspelled_color := opaque 255 0 0;
     indent_first_line := false;
     line_spacing := Ranged 50 1000 100;
     paragraph_spacing_above := Ranged 0 1000 0;
     paragraph_spacing_below := Ranged 0 1000 0;
     tab_width := Ranged 1 1000 48;
     is_changed := false |}.

(** The sample theme with a half transparent background colour. *)
Definition translucent_theme : ThemeData :=
  let d := sample_theme "Glass" 1 100 in
  {| name := name d;
     background_type := background_type d;
     background_color := Color true 10 20 30 128;
     background_path := background_path d; background_image := background_image d;
     foreground_color := foreground_color d; foreground_opacity := foreground_opacity d;
     foreground_width := foreground_width d; foreground_rounding := foreground_rounding d;
     foreground_margin := foreground_margin d; foreground_padding := foreground_padding d;
     foreground_position := foreground_position d;
     blur_enabled := blur_enabled d; blur_radius := blur_radius d;
     shadow_enabled := shadow_enabled d; shadow_offset := shadow_offset d;
     shadow_radius := shadow_radius d; shadow_color := shadow_color d;
     text_color := text_color d; text_font := text_font d;
     misspelled_color := misspelled_color d;
     indent_first_line := indent_first_line d; line_spacing := line_spacing d;
     paragraph_spacing_above := paragraph_spacing_above d;
     paragraph_spacing_below := paragraph_spacing_below d;
     tab_width := tab_width d;
     is_changed := false |}.

(** The sample theme with an overlined font: an attribute that the
    descriptor of the font does not carry. *)
Definition overlined_theme : ThemeData :=
  let d := sample_theme "Ink" 1 100 in
  {| name := name d;
     background_type := background_type d;
     background_color := background_color d;
     background_path := background_path d; background_image := background_image d;
     foreground_color := foreground_color d; foreground_opacity := foreground_opacity d;
     foreground_width := foreground_width d; foreground_rounding := foreground_rounding d;
     foreground_margin := foreground_margin d; foreground_padding := foreground_padding d;
     foreground_position := foreground_position d;
     blur_enabled := blur_enabled d; blur_radius := blur_radius d;
     shadow_enabled := shadow_enabled d; shadow_offset := shadow_offset d;
     shadow_radius := shadow_radius d; shadow_color := shadow_color d;
     text_color := text_color d;
     text_font := Font (font_descriptor default_font) [1%Z];
     misspelled_color := misspelled_color d;
     indent_first_line := indent_first_line d; line_spacing := line_spacing d;
     paragraph_spacing_above := paragraph_spacing_above d;
     paragraph_spacing_below := paragraph_spacing_below d;
     tab_width := tab_width d;
     is_changed := false |}.

(** A parameter set of the name Paper every field of which differs from
    the sample theme of that name; its font has the same attributes
    outside the descriptor. *)
Definition loaded_over : ThemeData :=
  {| name := "Paper";
     background_type := Ranged 0 5 3;
     background_color := opaque 1 2 3;
     background_path := "/old/picture.png";
     background_image := "old.png";
     foreground_color := opaque 4 5 6;
     foreground_opacity := Ranged 0 100 40;
     foreground_width := Ranged 500 9999 900;
     foreground_rounding := Ranged 0 100 10;
     foreground_margin := Ranged 1 250 20;
     foreground_padding := Ranged 0 250 5;
     foreground_position := Ranged 0 3 3;
     blur_enabled := true;
     blur_radius := Ranged 1 128 8;
     shadow_enabled := true;
     shadow_offset := Ranged 0 128 4;
     shadow_radius := Ranged 1 128 16;
     shadow_color := opaque 7 8 9;
     text_color := opaque 10 11 12;
     text_font := Font "Courier,10,-1,5,75,1,0,0,0,0" [];
     misspelled_color := opaque 13 14 15;
     indent_first_line := true;
     line_spacing := Ranged 50 1000 150;
     paragraph_spacing_above := Ranged 0 1000 12;
     paragraph_spacing_below := Ranged 0 1000 12;
     tab_width := Ranged 1 1000 8;
     is_changed := true |}.

Definition empty_store : store := Store ∅ ∅ EmptyString ∅.

(** Three sessions that use the theme Old (the current session and two
    session files), and one that uses another theme. *)
Definition rename_store : store :=
  Store {[ "/themes/Old.png" := File [] true ]}
        {[ "/themes/Old.theme" := ∅ ]}
        "Old"
        (<[ "/sessions/a.session" := "Old" ]>
           (<[ "/sessions/b.session" := "Old" ]>
              {[ "/sessions/c.session" := "Other" ]})).

(** Two files with the same bytes at two paths, and an empty Images
    directory. *)
Definition picture : file := File [x50; x4e; x47] true.

Definition twin_files : filesystem :=
  <[ "/a/pic.PNG" := picture ]> {[ "/b/pic.PNG" := picture ]}.




(** A readable source beside two files of the Images directory that bear
    the first two names the interning would choose for it. *)
Definition crowded_files : filesystem :=
  <[ "/home/pic.PNG" := picture ]>
    (<[ "/themes/Images/b6ae2484ecb22311c08449b49e29ae5fdf983356.png" := File [x00] true ]>
       {[ "/themes/Images/b6ae2484ecb22311c08449b49e29ae5fdf983356-1.png" := File [x01] true ]}).

(** Three sources, two of them with the same bytes, and an empty Images
    directory. *)
Definition three_sources : filesystem :=
  <[ "/a/pic.PNG" := picture ]>
    (<[ "/b/copy.png" := picture ]> {[ "/c/other.png" := File [x4a; x50; x47] true ]}).

(** The settings of a file after a list of [setValue] calls. *)
Definition set_entries (s : settings) (l : list (string * string)) : settings :=
  foldl (fun s kv => <[fst kv := snd kv]> s) s l.

(** A theme whose definition file names a source image that can be read,
    and no cached image. *)
Definition unloaded_store : store :=
  Store {[ "/home/pic.PNG" := picture ]}
        {[ "/themes/Paper.theme" := {[ "Background/Image" := "/home/pic.PNG" ]} ]}
        EmptyString ∅.

(** The values [Theme::operator==] compares, in its order: every field of
    the parameter set but the flag [is_changed], a ranged field by its
    value. *)
Definition compared (d : ThemeData) :=
  (name d, rvalue (background_type d), background_color d, background_path d,
   background_image d, foreground_color d, rvalue (foreground_opacity d),
   rvalue (foreground_width d), rvalue (foreground_rounding d),
   rvalue (foreground_margin d), rvalue (foreground_padding d),
   rvalue (foreground_position d), blur_enabled d, rvalue (blur_radius d),
   shadow_enabled d, rvalue (shadow_offset d), rvalue (shadow_radius d),
   shadow_color d, text_color d, text_font d, misspelled_color d,
   indent_first_line d, rvalue (line_spacing d),
   rvalue (paragraph_spacing_above d), rvalue (paragraph_spacing_below d),
   rvalue (tab_width d)).

(** * Properties *)

(** ** Strings *)

Lemma isEmpty_true (s : string) : isEmpty s = true <-> s = EmptyString.
Proof. destruct s; simpl; split; congruence. Qed.

Lemma isEmpty_false (s : string) : isEmpty s = false <-> s <> EmptyString.
Proof. destruct s; simpl; split; congruence. Qed.

Example suffix_examples :
  suffix "/a/b.c/Pic.tar.PNG" = "PNG" /\ suffix "/a/b.c/noext" = EmptyString /\
  toLower (suffix "/home/X.JPG") = "jpg".
Proof. vm_compute. repeat split; reflexivity. Qed.

Example filePath_example : filePath "/themes" "A b/c" = "/themes/A b%2Fc.theme".
Proof. vm_compute. reflexivity. Qed.

Example entryList_example :
  entryList "/t/Images"
    (<[ "/t/Images/b.png" := 1 ]> (<[ "/t/Images/A.png" := 2 ]>
       (<[ "/t/Images/.hidden.png" := 5 ]>
          (<[ "/t/Images/sub/c.png" := 3 ]> {[ "/t/x.theme" := 4 ]}))))
  = ["A.png"; "b.png"].
Proof. vm_compute. reflexivity. Qed.

Example sha1_abc :
  toHex (Sha1.digest (toUtf8 "abc")) = "a9993e364706816aba3e25717850c26c9cd0d89d".
Proof. vm_compute. reflexivity. Qed.

Example sha1_two_blocks :
  toHex (Sha1.digest
           (toUtf8 "abcdbcdecdefdefgefghfghighijhijkijkljklmklmnlmnomnopnopq"))
  = "84983e441c3bd26ebaae4aa1f95129e5e54670f1".
Proof. vm_compute. reflexivity. Qed.

Example sha1_empty :
  toHex (Sha1.digest (toUtf8 EmptyString)) = "da39a3ee5e6b4b0d3255bfef95601890afd80709".
Proof. vm_compute. reflexivity. Qed.

(** ** Themes without a name *)

(** C10. For a theme whose name is the empty string, [write] leaves the
    store as it is (no file is created or modified) and [reload] leaves the
    store and every field of the parameter set as they are. *)
Theorem empty_name_write_reload_noop (root : string) (st : store) (d : ThemeData) :
  name d = EmptyString ->
  write root st d = st /\ reload root st d = (st, d).
Proof.
  intros Hname. unfold write, reload.
  rewrite Hname. simpl. split; reflexivity.
Qed.

Lemma empty_name_write_reload_noop_witness :
  write "/themes" empty_store (sample_theme EmptyString 1 100) = empty_store /\
  reload "/themes" empty_store (sample_theme EmptyString 1 100)
  = (empty_store, sample_theme EmptyString 1 100).
Proof.
  apply (empty_name_write_reload_noop "/themes" empty_store
           (sample_theme EmptyString 1 100)).
  reflexivity.
Defined.

(** ** The layout of the foreground panel *)

Lemma int_wrap_id (z : Z) : (int_min <= z <= int_max)%Z -> int_wrap z = z.
Proof.
  unfold int_min, int_max, int_wrap. intros H.
  rewrite Z.mod_small; lia.
Qed.

(** C4. For every size whose subtractions stay within [int], a margin and
    a configured width within their declared ranges and any position
    value: y is the margin, the height is the height of the size less
    twice the margin, the effective width is the least of the configured
    width and the width of the size less twice the margin, and x is the
    margin for Left (0), the width of the size less the margin and the
    effective width for Right (2), the margin with the full inner width for
    Stretched (3), and half of the width of the size less the effective
    width for Centered (1) and for every other value. *)
Theorem foregroundRect_layout (d : ThemeData) (size : QSize) :
  ranged 1 250 (foreground_margin d) ->
  ranged 500 9999 (foreground_width d) ->
  (int_min + 500 <= width size <= int_max)%Z ->
  (int_min + 500 <= height size <= int_max)%Z ->
  let margin := rvalue (foreground_margin d) in
  let effectiveWidth :=
    Z.min (rvalue (foreground_width d)) (width size - 2 * margin) in
  let h := (height size - 2 * margin)%Z in
  foregroundRect d size =
  match rvalue (foreground_position d) with
  | 0%Z => Rect margin margin effectiveWidth h
  | 2%Z => Rect (width size - margin - effectiveWidth) margin effectiveWidth h
  | 3%Z => Rect margin margin (width size - 2 * margin) h
  | _ => Rect ((width size - effectiveWidth) / 2) margin effectiveWidth h
  end.
Proof.
  intros (_ & _ & Hm) (_ & _ & Hw) Hsw Hsh margin ew h.
  unfold foregroundRect. fold margin.
  unfold int_min, int_max in Hsw, Hsh.
  assert (E2 : int_mul margin 2 = (2 * margin)%Z).
  { unfold int_mul. rewrite int_wrap_id; unfold int_min, int_max; lia. }
  rewrite E2.
  assert (Ew : int_sub (width size) (2 * margin) = (width size - 2 * margin)%Z).
  { unfold int_sub. rewrite int_wrap_id; unfold int_min, int_max; lia. }
  assert (Eh : int_sub (height size) (2 * margin) = h).
  { unfold int_sub, h. rewrite int_wrap_id; unfold int_min, int_max; lia. }
  rewrite Ew, Eh. fold ew.
  assert (Er : int_sub (int_sub (width size) margin) ew
               = (width size - margin - ew)%Z).
  { unfold int_sub. rewrite (int_wrap_id (width size - margin));
      [rewrite int_wrap_id|]; unfold int_min, int_max, ew; lia. }
  assert (Ec : int_div (int_sub (width size) ew) 2 = ((width size - ew) / 2)%Z).
  { unfold int_sub, int_div.
    assert (0 <= width size - ew <= 2 ^ 31 - 1)%Z by (unfold ew; lia).
    rewrite (int_wrap_id (width size - ew)) by (unfold int_min, int_max; lia).
    rewrite Z.quot_div_nonneg by lia.
    apply int_wrap_id. unfold int_min, int_max.
    split; [|apply Z.div_le_upper_bound]; try lia.
    transitivity 0%Z; [lia|apply Z.div_pos; lia]. }
  rewrite Er, Ec.
  destruct (rvalue (foreground_position d)) as [|[[?|?|]|[?|?|]|]|?]; reflexivity.
Qed.

(** The layout example of the spec: size (1000, 600), margin 50 and
    width 700, for the four positions. *)
Lemma foregroundRect_layout_witness :
  foregroundRect (sample_theme "T" 1 100) (Size 1000 600) = Rect 150 50 700 500 /\
  foregroundRect (sample_theme "T" 0 100) (Size 1000 600) = Rect 50 50 700 500 /\
  foregroundRect (sample_theme "T" 2 100) (Size 1000 600) = Rect 250 50 700 500 /\
  foregroundRect (sample_theme "T" 3 100) (Size 1000 600) = Rect 50 50 900 500.
Proof.
  split; [|split; [|split]].
  - apply (foregroundRect_layout (sample_theme "T" 1 100) (Size 1000 600));
      vm_compute; intuition congruence.
  - apply (foregroundRect_layout (sample_theme "T" 0 100) (Size 1000 600));
      vm_compute; intuition congruence.
  - apply (foregroundRect_layout (sample_theme "T" 2 100) (Size 1000 600));
      vm_compute; intuition congruence.
  - apply (foregroundRect_layout (sample_theme "T" 3 100) (Size 1000 600));
      vm_compute; intuition congruence.
Defined.

(** ** The alpha of the foreground fill *)

(** The literal [2.55f] is the single precision float nearest to 2.55. *)
Example float_2_55_nearest :
  SFdiv 24 128 (float_of_int 255) (float_of_int 100) = float_2_55.
Proof. vm_compute. reflexivity. Qed.

Lemma foreground_alpha_table :
  forallb (fun n => (foreground_alpha (Z.of_nat n) =? Z.of_nat n * 255 / 100)%Z)
          (seq 0 101) = true.
Proof. vm_compute. reflexivity. Qed.

Lemma foreground_alpha_floor (v : Z) :
  (0 <= v <= 100)%Z -> foreground_alpha v = (v * 255 / 100)%Z.
Proof.
  intros Hv.
  pose proof foreground_alpha_table as T.
  rewrite forallb_forall in T.
  specialize (T (Z.to_nat v)).
  rewrite Z2Nat.id in T by lia.
  apply Z.eqb_eq, T, in_seq. lia.
Qed.

(** C6, as the claim states it, fails: at opacity 1 the fill has alpha 2,
    and 1 times 2.55 rounds to 3. *)
Lemma render_alpha_not_rounded :
  ranged 0 100 (foreground_opacity (sample_theme "T" 1 1)) /\
  alpha (render_foreground_color (sample_theme "T" 1 1)) = 2%Z /\
  rounded_alpha (rvalue (foreground_opacity (sample_theme "T" 1 1))) = 3%Z.
Proof. vm_compute. intuition congruence. Qed.

(** C6, amended. The foreground rectangle is filled with the foreground
    colour whose alpha is the single precision product of the opacity and
    2.55 with its fraction dropped, which for every opacity in 0..100 is
    the integer quotient of opacity times 255 by 100; opacity 100 gives
    alpha 255 and opacity 0 gives alpha 0. *)
Theorem render_alpha_truncated (d : ThemeData) :
  ranged 0 100 (foreground_opacity d) ->
  render_foreground_color d
  = setAlpha (foreground_color d) (rvalue (foreground_opacity d) * 255 / 100).
Proof.
  intros (_ & _ & Hv). unfold render_foreground_color.
  now rewrite foreground_alpha_floor.
Qed.

Lemma render_alpha_truncated_witness :
  alpha (render_foreground_color (sample_theme "T" 1 100)) = 255%Z /\
  alpha (render_foreground_color (sample_theme "T" 1 0)) = 0%Z /\
  alpha (render_foreground_color (sample_theme "T" 1 50)) = 127%Z.
Proof.
  split; [|split].
  - rewrite (render_alpha_truncated (sample_theme "T" 1 100)); [reflexivity|].
    vm_compute; intuition congruence.
  - rewrite (render_alpha_truncated (sample_theme "T" 1 0)); [reflexivity|].
    vm_compute; intuition congruence.
  - rewrite (render_alpha_truncated (sample_theme "T" 1 50)); [reflexivity|].
    vm_compute; intuition congruence.
Defined.
(** ** The comparison of two files *)

Lemma compare_loop_eq (s1 s2 : list byte) :
  length s1 = length s2 -> compare_loop s1 s2 = true -> s1 = s2.
Proof.
  remember (length s1) as n eqn:Hn.
  revert s1 s2 Hn. induction (lt_wf n) as [n _ IH].
  intros [|b r] s2 Hn Hlen.
  - intros _. destruct s2; [reflexivity|]. simpl in *. lia.
  - rewrite compare_loop_equation_2.
    destruct (decide _) as [Ht|]; [|discriminate].
    intros Hc.
    apply (IH (length (drop 1000 (b :: r)))) in Hc.
    + rewrite <- (take_drop 1000 (b :: r)), <- (take_drop 1000 s2). congruence.
    + rewrite length_drop. simpl in *. lia.
    + reflexivity.
    + rewrite !length_drop. lia.
Qed.

Lemma compare_loop_refl (s : list byte) : compare_loop s s = true.
Proof.
  remember (length s) as n eqn:Hn.
  revert s Hn. induction (lt_wf n) as [n _ IH].
  intros [|b r] Hn; [reflexivity|].
  rewrite compare_loop_equation_2.
  destruct (decide _) as [_|]; [|congruence].
  apply (IH (length (drop 1000 (b :: r)))); [|reflexivity].
  rewrite length_drop. simpl in *. lia.
Qed.

Lemma compareFiles_true (fs : filesystem) (f1 f2 : string) :
  compareFiles fs f1 f2 = true <->
  exists s, QFile_open fs f1 = Some s /\ QFile_open fs f2 = Some s.
Proof.
  unfold compareFiles, QFile_size, QFile_open. split.
  - destruct (fs !! f1) as [[c1 r1]|], (fs !! f2) as [[c2 r2]|]; simpl;
      try match goal with |- context [(?a =? ?b)%nat] =>
        destruct (Nat.eqb_spec a b) as [Hl|]
      end; simpl; try discriminate;
      try destruct r1; try destruct r2; try discriminate;
      try (destruct (negb _); discriminate).
    intros Hc. apply compare_loop_eq in Hc; [subst; eauto|assumption].
  - intros (s & H1 & H2).
    destruct (fs !! f1) as [[c1 [|]]|]; try discriminate.
    destruct (fs !! f2) as [[c2 [|]]|]; try discriminate.
    simpl in *. injection H1 as ->. injection H2 as ->.
    rewrite Nat.eqb_refl. simpl. apply compare_loop_refl.
Qed.

(** C9. [compareFiles] answers false whenever one of the two files cannot
    be opened for reading, and it answers true only when the sizes match,
    both files open, and every chunk of 1000 bytes read from the one equals
    the chunk read from the other (the streams are equal). *)
Theorem compareFiles_never_equal_unverified (fs : filesystem) (f1 f2 : string) :
  (QFile_open fs f1 = None \/ QFile_open fs f2 = None ->
   compareFiles fs f1 f2 = false) /\
  (compareFiles fs f1 f2 = true ->
   QFile_size fs f1 = QFile_size fs f2 /\
   exists s1 s2, QFile_open fs f1 = Some s1 /\ QFile_open fs f2 = Some s2 /\
                 (forall k, chunk k s1 = chunk k s2) /\ s1 = s2).
Proof.
  split.
  - intros Hopen. destruct (compareFiles fs f1 f2) eqn:Hc; [|reflexivity].
    apply compareFiles_true in Hc as (s & H1 & H2).
    destruct Hopen; congruence.
  - intros Hc. split.
    + unfold compareFiles in Hc.
      destruct (Nat.eqb_spec (QFile_size fs f1) (QFile_size fs f2));
        [assumption|discriminate].
    + apply compareFiles_true in Hc as (s & H1 & H2).
      exists s, s. auto.
Qed.

(** ** Paths and listings *)

Lemma app_String (x : ascii) (a b : string) : String x a +:+ b = String x (a +:+ b).
Proof. reflexivity. Qed.

Lemma app_Empty (b : string) : EmptyString +:+ b = b.
Proof. reflexivity. Qed.

Lemma string_app_assoc (a b c : string) : (a +:+ b) +:+ c = a +:+ (b +:+ c).
Proof.
  induction a as [|x a IH]; [reflexivity|].
  rewrite !app_String. now rewrite IH.
Qed.

Lemma strip_prefix_Some (p s r : string) :
  strip_prefix p s = Some r <-> s = p +:+ r.
Proof.
  revert s. induction p as [|a p IH]; intros s; simpl.
  - rewrite app_Empty. split; [intros [= ->]; reflexivity|intros ->; reflexivity].
  - rewrite app_String.
    destruct s as [|b s]; [split; [discriminate|intros [=]]|].
    destruct (Ascii.eqb_spec a b) as [->|Hne].
    + rewrite IH. split; [intros ->; reflexivity|intros [= ->]; reflexivity].
    + split; [discriminate|]. intros [= -> _]. congruence.
Qed.

Lemma filePathIn_inj (dir a b : string) : filePathIn dir a = filePathIn dir b -> a = b.
Proof. unfold filePathIn. intros H. now do 2 apply String.app_inj in H. Qed.

Lemma isHidden_file_name (n : string) :
  entry_name n = true -> isHidden n = false -> file_name n = true.
Proof.
  unfold file_name. intros -> H.
  destruct n as [|c n]; [reflexivity|]. cbn [isHidden] in H.
  destruct n as [|c' n]; cbn; rewrite H; reflexivity.
Qed.

(** A listing shows the files of the directory that are not hidden. *)
Lemma elem_of_entryList {V : Type} (dir : string) (m : gmap string V) (n : string) :
  n ∈ entryList dir m <->
  entry_name n = true /\ isHidden n = false /\ is_Some (m !! filePathIn dir n).
Proof.
  unfold entryList. rewrite merge_sort_Permutation, list_elem_of_filter.
  rewrite andb_true_iff, negb_true_iff.
  enough (n ∈ omap (strip_prefix (dir +:+ "/")) (map_to_list m).*1
          <-> is_Some (m !! filePathIn dir n)) by tauto.
  rewrite list_elem_of_omap. split.
  - intros (k & Hk & Hs). apply strip_prefix_Some in Hs. subst k.
    apply list_elem_of_fmap in Hk as ([k v] & Hk & Hkv).
    apply elem_of_map_to_list in Hkv. simpl in Hk. subst k.
    unfold filePathIn. rewrite <- string_app_assoc. eauto.
  - intros [v Hv]. exists (filePathIn dir n). split.
    + apply list_elem_of_fmap. exists (filePathIn dir n, v). split; [reflexivity|].
      now apply elem_of_map_to_list.
    + apply strip_prefix_Some. unfold filePathIn. now rewrite string_app_assoc.
Qed.

(** ** Renaming a theme *)

Lemma rename_step_theme (spath old new : string) (st : store) (f g : string) :
  Session_theme spath (rename_step spath old new st f) g
  = if decide (g = f /\ Session_theme spath st g = old) then new
    else Session_theme spath st g.
Proof.
  unfold rename_step.
  destruct (String.eqb_spec (Session_theme spath st f) old) as [Hold|Hold].
  - unfold Session_setTheme, Session_theme at 1.
    destruct (isEmpty f) eqn:Ef, (isEmpty g) eqn:Eg; simpl.
    + apply isEmpty_true in Ef, Eg. subst f g.
      now rewrite decide_True by (split; [reflexivity|assumption]).
    + apply isEmpty_true in Ef. apply isEmpty_false in Eg. subst f.
      rewrite decide_False by (intros [? _]; congruence).
      unfold Session_theme. apply isEmpty_false in Eg. now rewrite Eg.
    + apply isEmpty_true in Eg. apply isEmpty_false in Ef. subst g.
      rewrite decide_False by (intros [? _]; congruence).
      reflexivity.
    + destruct (decide (g = f)) as [->|Hne].
      * rewrite lookup_insert_eq.
        now rewrite decide_True by (split; [reflexivity|assumption]).
      * rewrite lookup_insert_ne by (intros E; apply filePathIn_inj in E; congruence).
        rewrite decide_False by (intros [? _]; congruence).
        unfold Session_theme. now rewrite Eg.
  - destruct (decide _) as [[-> E]|]; congruence.
Qed.

Lemma rename_fold_theme (spath old new : string) (l : list string) (st : store)
    (g : string) :
  old <> new ->
  Session_theme spath (foldl (rename_step spath old new) st l) g
  = if decide (g ∈ l /\ Session_theme spath st g = old) then new
    else Session_theme spath st g.
Proof.
  intros Hne. revert st. induction l as [|f l IH]; intros st; cbn [foldl].
  - destruct (decide _) as [[H _]|]; [now apply not_elem_of_nil in H|reflexivity].
  - rewrite IH, rename_step_theme.
    destruct (decide (g = f /\ Session_theme spath st g = old)) as [[-> Ho]|Hn].
    + rewrite decide_False by (intros [_ ?]; congruence).
      rewrite decide_True; [reflexivity|]. split; [left|assumption].
    + destruct (decide (g ∈ l /\ Session_theme spath st g = old)) as [[Hin Ho]|Hn'].
      * rewrite decide_True; [reflexivity|]. split; [now right|assumption].
      * rewrite decide_False; [reflexivity|].
        intros [Hin Ho]. apply elem_of_cons in Hin as [->|Hin]; tauto.
Qed.

Lemma rename_fold_frame (spath old new : string) (l : list string) (st : store) :
  (forall f, f ∈ l -> isEmpty f = true \/ is_Some (sessions st !! filePathIn spath f)) ->
  let st' := foldl (rename_step spath old new) st l in
  files st' = files st /\ themes st' = themes st /\
  (forall k, is_Some (sessions st' !! k) <-> is_Some (sessions st !! k)).
Proof.
  revert st. induction l as [|f l IH]; intros st Hl; cbn [foldl].
  - cbn. tauto.
  - set (st1 := rename_step spath old new st f).
    assert (H1 : files st1 = files st /\ themes st1 = themes st /\
                 (forall k, is_Some (sessions st1 !! k) <-> is_Some (sessions st !! k))).
    { unfold st1, rename_step, Session_setTheme.
      destruct (String.eqb _ _); [|tauto].
      destruct (isEmpty f) eqn:Ef; simpl; [tauto|].
      repeat split; try tauto.
      - rewrite lookup_insert_is_Some. intros [<-|[_ ?]]; [|assumption].
        destruct (Hl f) as [E|E]; [left|congruence|exact E].
      - intros Hk. rewrite lookup_insert_is_Some.
        destruct (decide (filePathIn spath f = k)); [now left|now right]. }
    destruct H1 as (F1 & T1 & S1).
    destruct (IH st1) as (F2 & T2 & S2).
    { intros g Hg. destruct (Hl g) as [E|E]; [now right|now left|right; now apply S1]. }
    cbn zeta in *. rewrite F2, T2, F1, T1. repeat split; trivial.
    + intros Hk. now apply S1, S2.
    + intros Hk. now apply S2, S1.
Qed.

Lemma session_files_keys (spath : string) (st : store) (f : string) :
  f ∈ session_files spath st ->
  isEmpty f = true \/ is_Some (sessions st !! filePathIn spath f).
Proof.
  unfold session_files. intros [->|H]%elem_of_cons; [now left|right].
  apply list_elem_of_filter in H as [_ H]. now apply elem_of_entryList in H.
Qed.



(** ** The names [copyImage] forms *)

Lemma has_char_app (c : ascii) (a b : string) :
  has_char c (a +:+ b) = has_char c a || has_char c b.
Proof.
  induction a as [|x a IH]; [reflexivity|].
  rewrite app_String. simpl. rewrite IH. now rewrite orb_assoc.
Qed.

Lemma isEmpty_app (a b : string) : isEmpty (a +:+ b) = isEmpty a && isEmpty b.
Proof. destruct a; reflexivity. Qed.

Lemma hex_digit_not_slash (d : Z) : Ascii.eqb (hex_digit d) "/" = false.
Proof.
  unfold hex_digit. generalize (Z.to_nat d). intros n.
  do 17 (destruct n as [|n]; [reflexivity|]). reflexivity.
Qed.

Lemma toHex_no_slash (bs : list Z) : has_char "/" (toHex bs) = false.
Proof.
  induction bs as [|b bs IH]; [reflexivity|].
  simpl. now rewrite !hex_digit_not_slash, IH.
Qed.

Lemma lower_ascii_slash (c : ascii) :
  Ascii.eqb (lower_ascii c) "/" = Ascii.eqb c "/".
Proof. destruct c as [[] [] [] [] [] [] [] []]; reflexivity. Qed.

Lemma toLower_no_slash (s : string) : has_char "/" (toLower s) = has_char "/" s.
Proof.
  induction s as [|c s IH]; [reflexivity|].
  simpl. now rewrite lower_ascii_slash, IH.
Qed.

Lemma after_last_None (c : ascii) (s : string) :
  after_last c s = None -> has_char c s = false.
Proof.
  induction s as [|a s IH]; [reflexivity|]. simpl.
  destruct (after_last c s); [discriminate|].
  destruct (Ascii.eqb a c); [discriminate|]. intros _. now apply IH.
Qed.

Lemma after_last_without (c : ascii) (s t : string) :
  after_last c s = Some t -> has_char c t = false.
Proof.
  revert t. induction s as [|a s IH]; intros t; [discriminate|]. simpl.
  destruct (after_last c s) eqn:E.
  - intros [= <-]. now apply IH.
  - destruct (Ascii.eqb a c); [|discriminate].
    intros [= <-]. now apply after_last_None.
Qed.

Lemma after_last_tail (c x : ascii) (s t : string) :
  after_last c s = Some t -> has_char x s = false -> has_char x t = false.
Proof.
  revert t. induction s as [|a s IH]; intros t; [discriminate|]. simpl.
  intros H [_ Hs]%orb_false_iff.
  destruct (after_last c s) eqn:E.
  - injection H as <-. now apply IH.
  - destruct (Ascii.eqb a c); [|discriminate]. now injection H as <-.
Qed.

Lemma fileName_no_slash (path : string) : has_char "/" (fileName path) = false.
Proof.
  unfold fileName. destruct (after_last "/" path) eqn:E.
  - now apply after_last_without in E.
  - now apply after_last_None.
Qed.

Lemma suffix_no_slash (path : string) : has_char "/" (suffix path) = false.
Proof.
  unfold suffix. destruct (after_last "." (fileName path)) eqn:E; [|reflexivity].
  eapply after_last_tail; [exact E|apply fileName_no_slash].
Qed.

Lemma uint_no_slash (d : Decimal.uint) :
  has_char "/" (NilEmpty.string_of_uint d) = false.
Proof. induction d; simpl; auto. Qed.

Lemma number_no_slash (z : Z) : has_char "/" (number z) = false.
Proof.
  unfold number, NilZero.string_of_int, NilZero.string_of_uint.
  destruct (Z.to_int z) as [d|d]; destruct d; simpl; auto using uint_no_slash.
Qed.

Lemma to_int_proper (z : Z) :
  Z.to_int z <> Decimal.Pos Decimal.Nil /\ Z.to_int z <> Decimal.Neg Decimal.Nil.
Proof.
  destruct z as [|p|p]; simpl; split; try discriminate;
    intros [= H]; now apply DecimalPos.Unsigned.to_uint_nonnil in H.
Qed.

Lemma number_parse (z : Z) : NilZero.int_of_string (number z) = Some (Z.to_int z).
Proof. unfold number. apply NilZero.isi; apply to_int_proper. Qed.

Lemma number_inj (a b : Z) : number a = number b -> a = b.
Proof.
  intros H. apply DecimalZ.to_int_inj.
  pose proof (number_parse a) as Ha. rewrite H, number_parse in Ha. congruence.
Qed.

Lemma toInt_number (z : Z) : (int_min <= z <= int_max)%Z -> toInt (number z) = z.
Proof.
  intros Hz. unfold toInt. rewrite number_parse, DecimalZ.of_to.
  destruct (Z.leb_spec int_min z), (Z.leb_spec z int_max); simpl; lia.
Qed.

Lemma string_length_app (a b : string) :
  String.length (a +:+ b) = String.length a + String.length b.
Proof. induction a as [|x a IH]; [reflexivity|]. rewrite app_String. simpl. now rewrite IH. Qed.

Lemma string_app_inv_tail (a b c : string) : a +:+ c = b +:+ c -> a = b.
Proof.
  revert b. induction a as [|x a IH]; intros [|y b] H.
  - reflexivity.
  - apply (f_equal String.length) in H.
    rewrite app_Empty, string_length_app in H. simpl in H. lia.
  - apply (f_equal String.length) in H.
    rewrite app_Empty, string_length_app in H. simpl in H. lia.
  - rewrite !app_String in H. injection H as -> H. f_equal. now apply IH.
Qed.

Lemma plain_name_entry (base sfx : string) :
  has_char "/" base = false -> has_char "/" sfx = false ->
  entry_name (plain_name base sfx) = true.
Proof.
  intros Hb Hs. unfold entry_name, plain_name.
  rewrite !isEmpty_app, !has_char_app, Hb, Hs. simpl. now rewrite andb_false_r.
Qed.

Lemma numbered_name_entry (base sfx : string) (id : Z) :
  has_char "/" base = false -> has_char "/" sfx = false ->
  entry_name (numbered_name base id sfx) = true.
Proof.
  intros Hb Hs. unfold entry_name, numbered_name.
  rewrite !isEmpty_app, !has_char_app, Hb, Hs, number_no_slash. simpl.
  now rewrite andb_false_r.
Qed.

Lemma QFile_exists_true (fs : filesystem) (p : string) :
  QFile_exists fs p = true <-> is_Some (fs !! p).
Proof. unfold QFile_exists. apply bool_decide_eq_true. Qed.

Lemma QFile_exists_false (fs : filesystem) (p : string) :
  QFile_exists fs p = false <-> fs !! p = None.
Proof.
  unfold QFile_exists. rewrite bool_decide_eq_false.
  now rewrite eq_None_not_Some.
Qed.

Lemma candidate_inj (base sfx : string) (i j : nat) :
  candidate base sfx i = candidate base sfx j -> i = j.
Proof.
  unfold candidate, plain_name, numbered_name.
  destruct i as [|i], j as [|j]; intros H; [reflexivity| | |].
  - apply String.app_inj in H. discriminate.
  - apply String.app_inj in H. discriminate.
  - apply String.app_inj in H. rewrite !app_String, !app_Empty in H.
    injection H as H. apply string_app_inv_tail, number_inj in H. lia.
Qed.

Lemma candidate_entry (base sfx : string) (j : nat) :
  has_char "/" base = false -> has_char "/" sfx = false ->
  entry_name (candidate base sfx j) = true.
Proof.
  destruct j; [apply plain_name_entry|apply numbered_name_entry].
Qed.

(** The loop returns the first candidate that is not the name of a file,
    when there is one among those its fuel reaches. *)
Lemma resolve_collisions_spec (fs : filesystem) (dir base sfx : string)
    (fuel j : nat) :
  exists k,
    j <= k <= j + fuel /\
    resolve_collisions fuel fs dir base sfx (Z.of_nat j) (candidate base sfx j)
    = candidate base sfx k /\
    (forall i, j <= i < k ->
               QFile_exists fs (filePathIn dir (candidate base sfx i)) = true) /\
    (QFile_exists fs (filePathIn dir (candidate base sfx k)) = true -> k = j + fuel).
Proof.
  revert j. induction fuel as [|fuel IH]; intros j; simpl.
  - exists j. repeat split; try lia.
    now destruct (QFile_exists _ _).
  - destruct (QFile_exists fs (filePathIn dir (candidate base sfx j))) eqn:E.
    + destruct (IH (S j)) as (k & Hk & Hr & Hbelow & Hlast).
      exists k. repeat split; try lia.
      * replace (Z.of_nat j + 1)%Z with (Z.of_nat (S j)) by lia. exact Hr.
      * intros i Hi. destruct (decide (i = j)) as [->|]; [exact E|].
        apply Hbelow. lia.
      * intros Hx. apply Hlast in Hx. lia.
    + exists j. repeat split; try lia. congruence.
Qed.

(** A file system holds fewer files than a run of candidate names that are
    all names of its files. *)
Lemma candidates_pigeonhole (fs : filesystem) (dir base sfx : string) (n : nat) :
  (forall i, i <= n -> QFile_exists fs (filePathIn dir (candidate base sfx i)) = true) ->
  n < size fs.
Proof.
  intros Hall.
  set (keys := (fun i => filePathIn dir (candidate base sfx i)) <$> seq 0 (S n)).
  assert (Hnd : NoDup keys).
  { apply NoDup_fmap_2_strong; [|apply NoDup_seq].
    intros i j _ _ H. now apply filePathIn_inj, candidate_inj in H. }
  assert (Hsub : (list_to_set keys : gset string) ⊆ dom fs).
  { intros k Hk. apply elem_of_list_to_set, list_elem_of_fmap in Hk as (i & -> & Hi).
    apply elem_of_seq in Hi. apply elem_of_dom, QFile_exists_true, Hall. lia. }
  apply subseteq_size in Hsub.
  rewrite size_list_to_set, size_dom in Hsub by exact Hnd.
  unfold keys in Hsub. rewrite length_fmap, length_seq in Hsub. lia.
Qed.

Lemma resolve_collisions_free (fs : filesystem) (dir base sfx : string) :
  QFile_exists fs
    (filePathIn dir
       (resolve_collisions (size fs) fs dir base sfx 0 (plain_name base sfx)))
  = false.
Proof.
  destruct (resolve_collisions_spec fs dir base sfx (size fs) 0)
    as (k & Hk & Hr & Hbelow & Hlast).
  change (Z.of_nat 0) with 0%Z in Hr. change (candidate base sfx 0) with (plain_name base sfx) in Hr.
  rewrite Hr.
  destruct (QFile_exists fs (filePathIn dir (candidate base sfx k))) eqn:E;
    [|reflexivity].
  specialize (Hlast eq_refl). subst k.
  assert (size fs < size fs); [|lia].
  apply (candidates_pigeonhole fs dir base sfx). intros i Hi.
  destruct (decide (i = size fs)) as [->|]; [exact E|apply Hbelow; lia].
Qed.

(** ** Interning an image *)

Lemma first_match_Some (fs : filesystem) (image dir : string) (l : list string)
    (f : string) :
  first_match fs image dir l = Some f ->
  f ∈ l /\ compareFiles fs image (filePathIn dir f) = true.
Proof.
  induction l as [|g l IH]; [discriminate|]. simpl.
  destruct (compareFiles fs image (filePathIn dir g)) eqn:E.
  - intros [= <-]. split; [left|exact E].
  - intros H. destruct (IH H). split; [now right|assumption].
Qed.

Lemma first_match_None (fs : filesystem) (image dir : string) (l : list string) :
  first_match fs image dir l = None <->
  forall f, f ∈ l -> compareFiles fs image (filePathIn dir f) = false.
Proof.
  induction l as [|g l IH]; simpl.
  - split; [intros _ f Hf; now apply not_elem_of_nil in Hf|reflexivity].
  - destruct (compareFiles fs image (filePathIn dir g)) eqn:E.
    + split; [discriminate|]. intros H. rewrite H in E; [discriminate|left].
    + rewrite IH. split.
      * intros H f [->|Hf]%elem_of_cons; auto.
      * intros H f Hf. apply H. now right.
Qed.

Lemma first_match_unique (fs : filesystem) (image dir : string) (l : list string)
    (f : string) :
  f ∈ l -> compareFiles fs image (filePathIn dir f) = true ->
  (forall g, g ∈ l -> g <> f -> compareFiles fs image (filePathIn dir g) = false) ->
  first_match fs image dir l = Some f.
Proof.
  induction l as [|g l IH]; intros Hin Hf Hothers.
  - now apply not_elem_of_nil in Hin.
  - simpl. destruct (decide (g = f)) as [->|Hne].
    + now rewrite Hf.
    + rewrite (Hothers g) by (trivial; left).
      apply IH; trivial.
      * apply elem_of_cons in Hin as [->|]; [contradiction|assumption].
      * intros h Hh. apply Hothers. now right.
Qed.

Lemma new_name_free (root : string) (fs : filesystem) (image : string) :
  fs !! filePathIn (imagesDir root) (new_name root fs image) = None.
Proof. apply QFile_exists_false, resolve_collisions_free. Qed.

Lemma new_name_candidate (root : string) (fs : filesystem) (image : string) :
  exists k, new_name root fs image
            = candidate (candidate_base image) (toLower (suffix image)) k.
Proof.
  destruct (resolve_collisions_spec fs (imagesDir root) (candidate_base image)
              (toLower (suffix image)) (size fs) 0) as (k & _ & Hr & _).
  exists k. exact Hr.
Qed.

Lemma hex_digit_not_dot (d : Z) : Ascii.eqb (hex_digit d) "." = false.
Proof.
  unfold hex_digit. generalize (Z.to_nat d). intros n.
  do 17 (destruct n as [|n]; [reflexivity|]). reflexivity.
Qed.

(** A name that begins with the hash is not hidden. *)
Lemma candidate_base_visible (image rest : string) :
  isHidden (candidate_base image +:+ rest) = false.
Proof.
  unfold candidate_base, Sha1.digest. cbv zeta.
  set (h := Sha1.blocks _ _ _).
  unfold Sha1.be32 at 1. cbn [map app toHex]. rewrite app_String.
  cbn [isHidden]. apply hex_digit_not_dot.
Qed.

Lemma new_name_visible (root : string) (fs : filesystem) (image : string) :
  isHidden (new_name root fs image) = false.
Proof.
  destruct (new_name_candidate root fs image) as [k ->].
  destruct k; cbn [candidate]; unfold plain_name, numbered_name;
    apply candidate_base_visible.
Qed.

Lemma new_name_entry (root : string) (fs : filesystem) (image : string) :
  entry_name (new_name root fs image) = true.
Proof.
  destruct (new_name_candidate root fs image) as [k ->].
  apply candidate_entry.
  - apply toHex_no_slash.
  - rewrite toLower_no_slash. apply suffix_no_slash.
Qed.

(** What [copyImage] does, by cases: a file of the Images directory has
    the bytes of [image]; or none has and the source cannot be opened; or
    none has and the source is copied under the new name. *)
Lemma copyImage_cases (root : string) (fs : filesystem) (image : string) :
  let dir := imagesDir root in
  let n := new_name root fs image in
  (exists f, first_match fs image dir (entryList dir fs) = Some f /\
             copyImage root fs image = (f, fs)) \/
  (first_match fs image dir (entryList dir fs) = None /\
   QFile_open fs image = None /\ copyImage root fs image = (n, fs)) \/
  (first_match fs image dir (entryList dir fs) = None /\
   exists bytes, QFile_open fs image = Some bytes /\
                 copyImage root fs image
                 = (n, <[filePathIn dir n := File bytes true]> fs)).
Proof.
  intros dir n. subst dir n. unfold copyImage. cbv zeta.
  fold (new_name root fs image).
  destruct (first_match fs image (imagesDir root) (entryList (imagesDir root) fs))
    as [f|] eqn:Hm.
  - left. eauto.
  - right. unfold QFile_copy.
    destruct (QFile_open fs image) as [bytes|] eqn:Ho.
    + right. split; [reflexivity|]. exists bytes. split; [reflexivity|].
      pose proof (new_name_free root fs image) as Hfree.
      apply QFile_exists_false in Hfree. now rewrite Hfree.
    + left. auto.
Qed.

Lemma compareFiles_insert_ne (fs : filesystem) (k : string) (v : file)
    (p1 p2 : string) :
  p1 <> k -> p2 <> k ->
  compareFiles (<[k := v]> fs) p1 p2 = compareFiles fs p1 p2.
Proof.
  intros H1 H2. unfold compareFiles, QFile_size, QFile_open.
  now rewrite !lookup_insert_ne by congruence.
Qed.

Lemma QFile_open_lookup (fs : filesystem) (p : string) (bytes : list byte) :
  QFile_open fs p = Some bytes -> is_Some (fs !! p).
Proof. unfold QFile_open. destruct (fs !! p); [eauto|discriminate]. Qed.

(** Once [image] has been copied under a free name, the copy is the one
    file of the Images directory that has its bytes. *)
Lemma first_match_after_copy (root : string) (fs : filesystem) (image n : string)
    (bytes : list byte) :
  let dir := imagesDir root in
  let fs1 := <[filePathIn dir n := File bytes true]> fs in
  first_match fs image dir (entryList dir fs) = None ->
  QFile_open fs image = Some bytes ->
  fs !! filePathIn dir n = None ->
  entry_name n = true -> isHidden n = false ->
  first_match fs1 image dir (entryList dir fs1) = Some n /\
  compareFiles fs1 image (filePathIn dir n) = true.
Proof.
  intros dir fs1 Hnone Hopen Hfree Hentry Hvisible.
  assert (Himg : image <> filePathIn dir n).
  { intros ->. apply QFile_open_lookup in Hopen as [? ?]. congruence. }
  assert (Hcmp : compareFiles fs1 image (filePathIn dir n) = true).
  { apply compareFiles_true. exists bytes. unfold fs1, QFile_open.
    rewrite lookup_insert_ne by congruence. rewrite lookup_insert_eq. simpl.
    split; [exact Hopen|reflexivity]. }
  split; [|exact Hcmp].
  apply first_match_unique; [|exact Hcmp|].
  - apply elem_of_entryList. split; [exact Hentry|]. split; [exact Hvisible|].
    unfold fs1. rewrite lookup_insert_eq. eauto.
  - intros g Hg Hne.
    assert (Hk : filePathIn dir g <> filePathIn dir n).
    { intros E. now apply filePathIn_inj in E. }
    unfold fs1. rewrite compareFiles_insert_ne by congruence.
    rewrite first_match_None in Hnone. apply Hnone.
    apply elem_of_entryList in Hg as (He & Hh & Hs). apply elem_of_entryList.
    split; [exact He|]. split; [exact Hh|].
    unfold fs1 in Hs. now rewrite lookup_insert_ne in Hs.
Qed.

(** C7. Interning a source a second time, the Images directory untouched
    in between, returns the name the first interning returned and leaves
    the file system as the first left it (no second copy is made); when the
    source can be read, the file of that name in the Images directory
    holds the bytes of the source, the source still holds them and the
    byte comparison finds the two equal, and the first interning either
    found this file or added it and no other. *)
Theorem copyImage_twice (root : string) (fs : filesystem) (image : string) :
  let dir := imagesDir root in
  let r := copyImage root fs image in
  copyImage root (snd r) image = r /\
  (is_Some (QFile_open fs image) ->
   QFile_open (snd r) (filePathIn dir (fst r)) = QFile_open fs image /\
   QFile_open (snd r) image = QFile_open fs image /\
   compareFiles (snd r) image (filePathIn dir (fst r)) = true /\
   (snd r = fs \/
    fs !! filePathIn dir (fst r) = None /\
    exists bytes, QFile_open fs image = Some bytes /\
                  snd r = <[filePathIn dir (fst r) := File bytes true]> fs)).
Proof.
  intros dir r. subst r.
  destruct (copyImage_cases root fs image)
    as [(f & Hm & ->)|[(Hm & Ho & ->)|(Hm & bytes & Ho & ->)]]; cbn [fst snd].
  - split.
    + unfold copyImage. now rewrite Hm.
    + intros _. apply first_match_Some in Hm as [_ Hc].
      pose proof Hc as Hb. apply compareFiles_true in Hb as (b & H1 & H2).
      split; [rewrite H1; exact H2|]. split; [reflexivity|]. auto.
  - split.
    + unfold copyImage. rewrite Hm. fold (new_name root fs image).
      unfold QFile_copy. now rewrite Ho.
    + rewrite Ho. intros [? [=]].
  - pose proof (new_name_free root fs image) as Hfree.
    pose proof (new_name_entry root fs image) as Hentry.
    pose proof (new_name_visible root fs image) as Hvisible.
    destruct (first_match_after_copy root fs image (new_name root fs image) bytes
                Hm Ho Hfree Hentry Hvisible) as [Hm1 Hc1].
    split.
    + unfold copyImage. fold dir. fold dir in Hm1. now rewrite Hm1.
    + intros _.
      pose proof Hc1 as Hb. apply compareFiles_true in Hb as (b & H1 & H2).
      assert (Hnew : QFile_open
                       (<[filePathIn dir (new_name root fs image) := File bytes true]> fs)
                       (filePathIn dir (new_name root fs image)) = Some bytes).
      { unfold QFile_open. now rewrite lookup_insert_eq. }
      fold dir in H2. rewrite Hnew in H2. injection H2 as <-.
      split; [now rewrite Ho|]. split; [now rewrite Ho|].
      split; [exact Hc1|]. right. split; [exact Hfree|]. eauto.
Qed.

Lemma copyImage_twice_witness :
  let r := copyImage "/themes" twin_files "/a/pic.PNG" in
  fst r = "63df46c7a936120b3a3afa0489e1cc04e4941a61.png" /\
  copyImage "/themes" (snd r) "/a/pic.PNG" = r /\
  QFile_open (snd r) (filePathIn "/themes/Images" (fst r)) = Some [x50; x4e; x47] /\
  size (snd r) = 3.
Proof.
  cbv zeta.
  destruct (copyImage_twice "/themes" twin_files "/a/pic.PNG") as [H1 H2].
  split; [vm_compute; reflexivity|].
  split; [exact H1|].
  split; [|vm_compute; reflexivity].
  destruct H2 as (H2 & _); [vm_compute; eauto|].
  etransitivity; [exact H2|]. vm_compute. reflexivity.
Defined.

Lemma resolve_collisions_first (fuel : nat) (fs : filesystem)
    (dir base sfx : string) (id : Z) (filename : string) :
  QFile_exists fs (filePathIn dir filename) = false ->
  resolve_collisions fuel fs dir base sfx id filename = filename.
Proof. intros H. destruct fuel; cbn [resolve_collisions]; now rewrite H. Qed.

(** C1, as the claim states it, fails: two files with the same bytes at
    two paths get two candidate names, and neither is the hash of the
    bytes. The hash is taken of the path. *)
Lemma copyImage_name_not_from_bytes :
  twin_files !! "/a/pic.PNG" = twin_files !! "/b/pic.PNG" /\
  first_match twin_files "/a/pic.PNG" (imagesDir "/themes")
    (entryList (imagesDir "/themes") twin_files) = None /\
  first_match twin_files "/b/pic.PNG" (imagesDir "/themes")
    (entryList (imagesDir "/themes") twin_files) = None /\
  fst (copyImage "/themes" twin_files "/a/pic.PNG")
  = "63df46c7a936120b3a3afa0489e1cc04e4941a61.png" /\
  fst (copyImage "/themes" twin_files "/b/pic.PNG")
  = "e26a930f73963cd881b4b2b0881e3eaf67dbd22f.png" /\
  toHex (Sha1.digest (content picture)) = "70fe60b7dfe0837f2c69677bfef128c134937b16".
Proof. vm_compute. repeat split; reflexivity. Qed.

Lemma toHex_length (bs : list Z) : String.length (toHex bs) = 2 * length bs.
Proof. induction bs as [|b bs IH]; [reflexivity|]. cbn [toHex String.length length]. lia. Qed.

(** The base of a name has the forty digits of a SHA-1. *)
Lemma candidate_base_length (image : string) :
  String.length (candidate_base image) = 40.
Proof.
  unfold candidate_base. rewrite toHex_length.
  unfold Sha1.digest. cbv zeta. set (h := Sha1.blocks _ _ _).
  unfold Sha1.be32. now rewrite !length_app, !length_map.
Qed.

Lemma string_app_inv_head (a b x y : string) :
  String.length a = String.length b -> a +:+ x = b +:+ y -> a = b.
Proof.
  revert b. induction a as [|c a IH]; intros [|c' b] Hl H; try discriminate Hl.
  - reflexivity.
  - rewrite !app_String in H. injection H as -> H. f_equal.
    apply IH; [now injection Hl|exact H].
Qed.

(** A candidate name begins with its base. *)
Lemma candidate_prefix (base sfx : string) (k : nat) :
  exists rest, candidate base sfx k = base +:+ rest.
Proof.
  destruct k; cbn [candidate]; unfold plain_name, numbered_name; eauto.
Qed.

(** C1, amended. When no file of the Images directory has the bytes of
    the source, the name returned is formed from the hexadecimal SHA-1 of
    the UTF-8 bytes of the source path (not of the bytes of the file) and
    the lower-cased suffix of the path: it is that base, a dot and the
    suffix when no file has this name, and otherwise that base with a
    number before the dot; the name returned is the name of no file. The
    base is a function of the path: another file system, whatever bytes it
    holds at the path, gives the same name when the plain name is free in
    both; and a source at another path, whatever its bytes, gets the same
    name only if the SHA-1 of its path is the same. *)
Theorem copyImage_name_from_path (root : string) (fs : filesystem) (image : string) :
  first_match fs image (imagesDir root) (entryList (imagesDir root) fs) = None ->
  let base := toHex (Sha1.digest (toUtf8 image)) in
  let sfx := toLower (suffix image) in
  let filename := fst (copyImage root fs image) in
  (fs !! filePathIn (imagesDir root) (base +:+ "." +:+ sfx) = None ->
   filename = base +:+ "." +:+ sfx) /\
  (exists k, filename = candidate base sfx k) /\
  fs !! filePathIn (imagesDir root) filename = None /\
  (forall fs',
     first_match fs' image (imagesDir root) (entryList (imagesDir root) fs') = None ->
     fs !! filePathIn (imagesDir root) (base +:+ "." +:+ sfx) = None ->
     fs' !! filePathIn (imagesDir root) (base +:+ "." +:+ sfx) = None ->
     fst (copyImage root fs' image) = filename) /\
  (forall fs' image',
     first_match fs' image' (imagesDir root) (entryList (imagesDir root) fs') = None ->
     fst (copyImage root fs' image') = filename ->
     toHex (Sha1.digest (toUtf8 image')) = base).
Proof.
  intros Hm base sfx filename.
  assert (Hname : forall fs0 image0,
            first_match fs0 image0 (imagesDir root) (entryList (imagesDir root) fs0) = None ->
            fst (copyImage root fs0 image0) = new_name root fs0 image0).
  { intros fs0 image0 H0.
    destruct (copyImage_cases root fs0 image0)
      as [(f & H & _)|[(_ & _ & ->)|(_ & bytes & _ & ->)]];
      [congruence|reflexivity|reflexivity]. }
  assert (Hplain : forall fs0,
            fs0 !! filePathIn (imagesDir root) (base +:+ "." +:+ sfx) = None ->
            new_name root fs0 image = base +:+ "." +:+ sfx).
  { intros fs0 H0. apply QFile_exists_false in H0.
    unfold new_name. now apply resolve_collisions_first. }
  unfold filename. rewrite (Hname fs image Hm).
  split; [apply Hplain|].
  split; [apply new_name_candidate|].
  split; [apply new_name_free|].
  split.
  - intros fs' Hm' Hf Hf'. rewrite (Hname fs' image Hm'). now rewrite !Hplain.
  - intros fs' image' Hm' He. rewrite (Hname fs' image' Hm') in He.
    destruct (new_name_candidate root fs image) as [k Hk].
    destruct (new_name_candidate root fs' image') as [k' Hk'].
    destruct (candidate_prefix (candidate_base image) (toLower (suffix image)) k)
      as [r Hr].
    destruct (candidate_prefix (candidate_base image') (toLower (suffix image')) k')
      as [r' Hr'].
    rewrite Hk, Hk', Hr, Hr' in He.
    apply string_app_inv_head in He; [exact He|].
    now rewrite !candidate_base_length.
Qed.

Lemma copyImage_name_from_path_witness :
  fst (copyImage "/themes" twin_files "/a/pic.PNG")
  = toHex (Sha1.digest (toUtf8 "/a/pic.PNG")) +:+ ".png".
Proof.
  destruct (copyImage_name_from_path "/themes" twin_files "/a/pic.PNG") as [H _].
  - vm_compute. reflexivity.
  - apply H. vm_compute. reflexivity.
Defined.

(** C2, as the claim states it, fails: the source does not exist, the copy
    fails, and yet [copyImage] returns a file name, which
    [setBackgroundImage] records as the cached image. *)
Lemma copyImage_failure_not_reported :
  fst (QFile_copy ∅ "/gone/pic.png"
         (filePathIn (imagesDir "/themes")
            "1a637319cff45db59f6c60b265beb01aceae6af8.png")) = false /\
  copyImage "/themes" ∅ "/gone/pic.png"
  = ("1a637319cff45db59f6c60b265beb01aceae6af8.png", ∅) /\
  background_image
    (snd (setBackgroundImage "/themes" empty_store (sample_theme "T" 1 100)
            "/gone/pic.png"))
  = "1a637319cff45db59f6c60b265beb01aceae6af8.png".
Proof. vm_compute. repeat split; reflexivity. Qed.

(** C2, amended. If the byte copy of the source into the Images directory
    fails, [copyImage] leaves the file system unchanged and returns the
    name it resolved for the copy all the same, a name that is not empty:
    the result of [QFile::copy] is not looked at and the caller is told of
    no failure; [setBackgroundImage] records the name as the cached
    image. *)
Theorem copyImage_copy_failure (root : string) (st : store) (image : string) :
  let fs := files st in
  fst (QFile_copy fs image (filePathIn (imagesDir root) (new_name root fs image)))
  = false ->
  copyImage root fs image = (new_name root fs image, fs) /\
  isEmpty (new_name root fs image) = false /\
  (forall d, background_path d <> image -> image <> EmptyString ->
             setBackgroundImage root st d image
             = (st, set_background d image (new_name root fs image) true)).
Proof.
  intros fs Hcopy.
  assert (Ho : QFile_open fs image = None).
  { unfold QFile_copy in Hcopy.
    destruct (QFile_open fs image); [|reflexivity].
    pose proof (new_name_free root fs image) as Hfree.
    apply QFile_exists_false in Hfree. rewrite Hfree in Hcopy. discriminate. }
  assert (Hc : copyImage root fs image = (new_name root fs image, fs)).
  { destruct (copyImage_cases root fs image)
      as [(f & Hm & _)|[(_ & _ & ->)|(_ & bytes & Ho' & _)]];
      [|reflexivity|congruence].
    apply first_match_Some in Hm as [_ Hm].
    apply compareFiles_true in Hm as (s & Hs & _). congruence. }
  split; [exact Hc|]. split.
  - pose proof (new_name_entry root fs image) as He.
    unfold entry_name in He. apply andb_true_iff in He as [He _].
    now apply negb_true_iff in He.
  - intros d Hd Hi. unfold setBackgroundImage.
    destruct (String.eqb_spec (background_path d) image); [contradiction|].
    apply isEmpty_false in Hi. rewrite Hi. cbn [negb].
    fold fs. rewrite Hc. unfold with_files, fs. now destruct st.
Qed.

Lemma copyImage_copy_failure_witness :
  copyImage "/themes" ∅ "/gone/pic.png" = (new_name "/themes" ∅ "/gone/pic.png", ∅) /\
  isEmpty (new_name "/themes" ∅ "/gone/pic.png") = false.
Proof.
  destruct (copyImage_copy_failure "/themes" empty_store "/gone/pic.png")
    as (H1 & H2 & _).
  - vm_compute. reflexivity.
  - split; [exact H1|exact H2].
Defined.

(** ** Persistence *)

Lemma hex_pair_table :
  forallb (fun n => match hex_pair (hex_digit (Z.of_nat n / 16))
                                   (hex_digit (Z.of_nat n mod 16)) with
                    | Some v => (v =? Z.of_nat n)%Z
                    | None => false
                    end) (seq 0 256) = true.
Proof. vm_compute. reflexivity. Qed.

Lemma hex_pair_roundtrip (v : Z) :
  (0 <= v < 256)%Z -> hex_pair (hex_digit (v / 16)) (hex_digit (v mod 16)) = Some v.
Proof.
  intros Hv. pose proof hex_pair_table as T.
  rewrite forallb_forall in T. specialize (T (Z.to_nat v)).
  rewrite Z2Nat.id in T by lia.
  destruct (hex_pair _ _) as [w|].
  - f_equal. apply Z.eqb_eq, T, in_seq. lia.
  - discriminate T. apply in_seq. lia.
Qed.

Lemma color_roundtrip (c : QColor) :
  opaque_color c -> QColor_fromString (QColor_name c) = c.
Proof.
  intros (Hv & Ha & Hr & Hg & Hb). destruct c as [v r g b a]. simpl in *. subst v a.
  unfold QColor_name, QColor_fromString. cbn [toHex red green blue].
  now rewrite !hex_pair_roundtrip by assumption.
Qed.

Lemma toBool_of_bool (b : bool) : toBool (of_bool b) = b.
Proof. destruct b; reflexivity. Qed.

(** A value within the declared range, written and assigned to a field of
    the same range, whatever that field held. *)
Lemma assign_roundtrip (lo hi : Z) (r r0 : RangedInt) :
  ranged lo hi r -> ranged lo hi r0 -> (int_min <= lo)%Z -> (hi <= int_max)%Z ->
  RangedInt_eqb (assign r0 (toInt (number (rvalue r)))) r = true.
Proof.
  intros (Hlo & Hhi & Hv) (Hlo0 & Hhi0 & _) Hmin Hmax.
  rewrite toInt_number by lia.
  unfold RangedInt_eqb, assign. cbn [rvalue]. apply Z.eqb_eq. lia.
Qed.

Lemma QColor_eqb_refl (c : QColor) : QColor_eqb c c = true.
Proof. unfold QColor_eqb. now rewrite Bool.eqb_reflx, !Z.eqb_refl. Qed.

Lemma RangedInt_eqb_refl (r : RangedInt) : RangedInt_eqb r r = true.
Proof. apply Z.eqb_refl. Qed.

Lemma QFont_eqb_eq (a b : QFont) : QFont_eqb a b = true <-> a = b.
Proof.
  unfold QFont_eqb. rewrite andb_true_iff, String.eqb_eq, bool_decide_eq_true.
  destruct a, b. cbn. split; [intros [-> ->]; reflexivity|intros [= -> ->]; auto].
Qed.

Lemma QFont_eqb_refl (f : QFont) : QFont_eqb f f = true.
Proof. now apply QFont_eqb_eq. Qed.

Lemma Theme_eqb_refl (d : ThemeData) : Theme_eqb d d = true.
Proof.
  unfold Theme_eqb.
  now rewrite !String.eqb_refl, !RangedInt_eqb_refl, !QColor_eqb_refl,
    !Bool.eqb_reflx, QFont_eqb_refl.
Qed.

Lemma QSettings_open_setValue (st : store) (path key v : string) :
  QSettings_open (setValue st path key v) path = <[key := v]> (QSettings_open st path).
Proof. unfold QSettings_open at 1, setValue. cbn [themes]. now rewrite lookup_insert_eq. Qed.

Lemma write_fold (file : string) (l : list (string * string)) (st : store) :
  let st' := foldl (fun st kv => setValue st file (fst kv) (snd kv)) st l in
  files st' = files st /\
  forall key dflt,
    value (QSettings_open st' file) key dflt
    = match last_binding key l with
      | Some v => v
      | None => value (QSettings_open st file) key dflt
      end.
Proof.
  revert st. induction l as [|[k v] l IH]; intros st; cbn [foldl last_binding].
  - split; reflexivity.
  - destruct (IH (setValue st file k v)) as [IHf IHv]. cbn zeta in *. cbn [fst snd].
    split; [now rewrite IHf|].
    intros key dflt. rewrite IHv.
    destruct (last_binding key l); [reflexivity|].
    rewrite QSettings_open_setValue. unfold value.
    destruct (String.eqb_spec k key) as [->|Hne].
    + now rewrite lookup_insert_eq.
    + now rewrite lookup_insert_ne.
Qed.

(** The parameter set [reload] builds over [d0] from what [write] wrote
    of [d] equals [d], field by field. *)
Lemma roundtrip_fields (d d0 : ThemeData) (path : string) (changed : bool) :
  within_bounds d -> within_bounds d0 -> opaque_colors d ->
  name d0 = name d ->
  QFont_fromString (text_font d0) (QFont_toString (text_font d)) = text_font d ->
  path = background_path d ->
  Theme_eqb
    {| name := name d0;
       background_type :=
         assign (background_type d0) (toInt (number (rvalue (background_type d))));
       background_color := QColor_fromString (QColor_name (background_color d));
       background_path := path;
       background_image := background_image d;
       foreground_color := QColor_fromString (QColor_name (foreground_color d));
       foreground_opacity :=
         assign (foreground_opacity d0) (toInt (number (rvalue (foreground_opacity d))));
       foreground_width :=
         assign (foreground_width d0) (toInt (number (rvalue (foreground_width d))));
       foreground_rounding :=
         assign (foreground_rounding d0) (toInt (number (rvalue (foreground_rounding d))));
       foreground_margin :=
         assign (foreground_margin d0) (toInt (number (rvalue (foreground_margin d))));
       foreground_padding :=
         assign (foreground_padding d0) (toInt (number (rvalue (foreground_padding d))));
       foreground_position :=
         assign (foreground_position d0) (toInt (number (rvalue (foreground_position d))));
       blur_enabled := toBool (of_bool (blur_enabled d));
       blur_radius := assign (blur_radius d0) (toInt (number (rvalue (blur_radius d))));
       shadow_enabled := toBool (of_bool (shadow_enabled d));
       shadow_offset :=
         assign (shadow_offset d0) (toInt (number (rvalue (shadow_offset d))));
       shadow_radius :=
         assign (shadow_radius d0) (toInt (number (rvalue (shadow_radius d))));
       shadow_color := QColor_fromString (QColor_name (shadow_color d));
       text_color := QColor_fromString (QColor_name (text_color d));
       text_font := QFont_fromString (text_font d0) (QFont_toString (text_font d));
       misspelled_color := QColor_fromString (QColor_name (misspelled_color d));
       indent_first_line := toBool (of_bool (indent_first_line d));
       line_spacing := assign (line_spacing d0) (toInt (number (rvalue (line_spacing d))));
       paragraph_spacing_above :=
         assign (paragraph_spacing_above d0)
           (toInt (number (rvalue (paragraph_spacing_above d))));
       paragraph_spacing_below :=
         assign (paragraph_spacing_below d0)
           (toInt (number (rvalue (paragraph_spacing_below d))));
       tab_width := assign (tab_width d0) (toInt (number (rvalue (tab_width d))));
       is_changed := changed |}
    d = true.
Proof.
  intros (B1 & B2 & B3 & B4 & B5 & B6 & B7 & B8 & B9 & B10 & B11 & B12 & B13 & B14)
         (D1 & D2 & D3 & D4 & D5 & D6 & D7 & D8 & D9 & D10 & D11 & D12 & D13 & D14)
         (C1 & C2 & C3 & C4 & C5) Hname Hfont ->.
  unfold Theme_eqb.
  cbn [name background_type background_color background_path background_image
       foreground_color foreground_opacity foreground_width foreground_rounding
       foreground_margin foreground_padding foreground_position blur_enabled
       blur_radius shadow_enabled shadow_offset shadow_radius shadow_color
       text_color text_font misspelled_color indent_first_line line_spacing
       paragraph_spacing_above paragraph_spacing_below tab_width].
  rewrite !color_roundtrip by assumption.
  rewrite !toBool_of_bool.
  rewrite Hfont, Hname.
  rewrite (assign_roundtrip _ _ _ _ B1 D1), (assign_roundtrip _ _ _ _ B2 D2),
    (assign_roundtrip _ _ _ _ B3 D3), (assign_roundtrip _ _ _ _ B4 D4),
    (assign_roundtrip _ _ _ _ B5 D5), (assign_roundtrip _ _ _ _ B6 D6),
    (assign_roundtrip _ _ _ _ B7 D7), (assign_roundtrip _ _ _ _ B8 D8),
    (assign_roundtrip _ _ _ _ B9 D9), (assign_roundtrip _ _ _ _ B10 D10),
    (assign_roundtrip _ _ _ _ B11 D11), (assign_roundtrip _ _ _ _ B12 D12),
    (assign_roundtrip _ _ _ _ B13 D13), (assign_roundtrip _ _ _ _ B14 D14)
    by (unfold int_min, int_max; lia).
  now rewrite !String.eqb_refl, !QColor_eqb_refl, !Bool.eqb_reflx, QFont_eqb_refl.
Qed.

(** C3, as the claim states it, fails: the fields of the sample theme are
    within their bounds and its background colour is half transparent;
    written and loaded back, the colour is opaque, and the parameter set no
    longer equals the original. So it is with a font that has an attribute
    its descriptor does not carry, loaded into a theme made anew; and with
    a theme without a source path written over a definition file that
    holds one, which the write leaves and the load reads. *)
Lemma roundtrip_loses_alpha :
  let t := translucent_theme in
  let loaded := snd (reload "/themes" (write "/themes" empty_store t) t) in
  let o := overlined_theme in
  let fresh := sample_theme "Ink" 1 100 in
  let loaded_o := snd (reload "/themes" (write "/themes" empty_store o) fresh) in
  let p := sample_theme "Paper" 1 100 in
  let loaded_p := snd (reload "/themes" (write "/themes" unloaded_store p) p) in
  (within_bounds t /\
   alpha (background_color t) = 128%Z /\
   alpha (background_color loaded) = 255%Z /\
   Theme_eqb loaded t = false) /\
  (within_bounds o /\
   QFont_toString (text_font loaded_o) = QFont_toString (text_font o) /\
   font_others (text_font o) = [1%Z] /\
   font_others (text_font loaded_o) = [] /\
   Theme_eqb loaded_o o = false) /\
  (within_bounds p /\
   background_path p = EmptyString /\
   background_path loaded_p = "/home/pic.PNG" /\
   Theme_eqb loaded_p p = false).
Proof. vm_compute. intuition congruence. Qed.

(** C3, amended. For every parameter set with a name, whose numeric
    fields are within their declared bounds, whose colours are valid and
    fully opaque (the file holds a colour as #rrggbb, which has no alpha
    channel), whose source path is not empty or whose definition file
    holds no source path yet, and whose cached image name is not empty
    when its source path is not: writing it and loading it back by its
    name, into any parameter set of that name with the declared ranges,
    whatever that set held before, gives a parameter set equal to the
    original under the field by field equality, provided the font is one
    that [QFont::fromString], applied to the font of the set loaded into,
    restores from the descriptor that [QFont::toString] gives. *)
Theorem write_reload_roundtrip (root : string) (st : store) (d d0 : ThemeData) :
  name d <> EmptyString ->
  name d0 = name d ->
  within_bounds d ->
  within_bounds d0 ->
  opaque_colors d ->
  QFont_fromString (text_font d0) (QFont_toString (text_font d)) = text_font d ->
  (background_path d = EmptyString ->
   value (QSettings_open st (filePath root (name d))) "Background/Image" EmptyString
   = EmptyString) ->
  (background_path d <> EmptyString -> background_image d <> EmptyString) ->
  Theme_eqb (snd (reload root (write root st d) d0)) d = true.
Proof.
  intros Hn Hname HB HB0 HC Hfont Hstale Himage.
  unfold write, reload. rewrite Hname.
  apply isEmpty_false in Hn. rewrite Hn.
  set (file := filePath root (name d)) in *.
  destruct (write_fold file (write_entries d) st) as [Hf Hv].
  cbn zeta in Hf, Hv.
  set (st' := foldl (fun st kv => setValue st file (fst kv) (snd kv)) st (write_entries d)) in *.
  unfold int_value, bool_value, color_value.
  rewrite !Hv. clear Hv.
  unfold write_entries.
  destruct (isEmpty (background_path d)) eqn:Ep; cbn [negb app];
    cbn [last_binding String.eqb Ascii.eqb Bool.eqb andb].
  - apply isEmpty_true in Ep. rewrite (Hstale Ep). cbn [isEmpty negb andb snd].
    rewrite <- Hname. now apply roundtrip_fields.
  - apply isEmpty_false in Ep. apply Himage, isEmpty_false in Ep as ->.
    rewrite andb_false_r. cbn [snd].
    rewrite <- Hname. now apply roundtrip_fields.
Qed.

(** The sample theme, written and loaded back over a parameter set of its
    name every field of which differs. *)
Lemma write_reload_roundtrip_witness :
  Theme_eqb (sample_theme "Paper" 1 100) loaded_over = false /\
  Theme_eqb
    (snd (reload "/themes"
            (write "/themes" empty_store (sample_theme "Paper" 1 100))
            loaded_over))
    (sample_theme "Paper" 1 100) = true.
Proof.
  split; [vm_compute; reflexivity|].
  apply write_reload_roundtrip.
  - discriminate.
  - reflexivity.
  - vm_compute. intuition congruence.
  - vm_compute. intuition congruence.
  - vm_compute. intuition congruence.
  - vm_compute. reflexivity.
  - reflexivity.
  - intros H. now contradiction H.
Defined.

(** ** The maintenance pass *)

Lemma QSettings_open_setValue_ne (st : store) (p p' key v : string) :
  p <> p' -> QSettings_open (setValue st p key v) p' = QSettings_open st p'.
Proof.
  intros H. unfold QSettings_open, setValue. cbn [themes].
  now rewrite lookup_insert_ne.
Qed.

Lemma value_insert (s : settings) (k k' v dflt : string) :
  value (<[k := v]> s) k' dflt = if decide (k = k') then v else value s k' dflt.
Proof.
  unfold value. destruct (decide (k = k')) as [->|].
  - now rewrite lookup_insert_eq.
  - now rewrite lookup_insert_ne.
Qed.

Lemma QSettings_open_setValue_lookup (st : store) (p p' key key' v : string) :
  key' <> key ->
  QSettings_open (setValue st p key v) p' !! key' = QSettings_open st p' !! key'.
Proof.
  intros Hk. destruct (decide (p = p')) as [<-|Hp].
  - rewrite QSettings_open_setValue. now apply lookup_insert_ne.
  - now rewrite QSettings_open_setValue_ne.
Qed.

Lemma theme_file_inj (root a b : string) :
  theme_file root a = theme_file root b -> a = b.
Proof. apply filePathIn_inj. Qed.

Lemma source_of_lookup (root : string) (st st' : store) (u : string) :
  (forall p key, key <> "Background/ImageFile" ->
                 QSettings_open st' p !! key = QSettings_open st p !! key) ->
  source_of root st' u = source_of root st u.
Proof.
  intros H. unfold source_of, value. now rewrite H by discriminate.
Qed.

Lemma no_background_same (root : string) (st st' : store) (u : string) :
  source_of root st' u = source_of root st u ->
  cached_of root st' u = cached_of root st u ->
  no_background root st' u = no_background root st u.
Proof. unfold no_background. now intros -> ->. Qed.


Lemma QFile_open_grows (fs fs' : filesystem) (p : string) :
  grows fs fs' -> is_Some (QFile_open fs p) -> is_Some (QFile_open fs' p).
Proof.
  intros G. unfold QFile_open. destruct (fs !! p) as [f|] eqn:E; [|intros [? [=]]].
  now rewrite (G _ _ E).
Qed.

Lemma copyImage_grows (root : string) (fs : filesystem) (image : string) :
  grows fs (snd (copyImage root fs image)).
Proof.
  destruct (copyImage_cases root fs image)
    as [(f & _ & ->)|[(_ & _ & ->)|(_ & bytes & _ & ->)]]; cbn [snd];
    intros k v Hk; try assumption.
  rewrite lookup_insert_ne; [assumption|].
  intros <-. pose proof (new_name_free root fs image). congruence.
Qed.

(** Interning a source that can be read returns the name of a file of the
    Images directory. *)
Lemma copyImage_stored (root : string) (fs : filesystem) (image : string) :
  is_Some (QFile_open fs image) ->
  let r := copyImage root fs image in
  fst r <> EmptyString /\
  is_Some (snd r !! filePathIn (imagesDir root) (fst r)).
Proof.
  intros Hopen.
  destruct (copyImage_cases root fs image)
    as [(f & Hm & ->)|[(_ & Ho & _)|(_ & bytes & _ & ->)]]; cbn [fst snd].
  - apply first_match_Some in Hm as [Hin _].
    apply elem_of_entryList in Hin as (He & _ & Hs). split; [|exact Hs].
    intros ->. discriminate.
  - rewrite Ho in Hopen. now destruct Hopen.
  - split.
    + pose proof (new_name_entry root fs image) as He. intros E.
      rewrite E in He. discriminate.
    + rewrite lookup_insert_eq. eauto.
Qed.

(** The name [copyImage] returns is the name of a listed file or a new
    name: a directory entry that is not hidden. *)
Lemma copyImage_listed_name (root : string) (fs : filesystem) (image : string) :
  entry_name (fst (copyImage root fs image)) = true /\
  isHidden (fst (copyImage root fs image)) = false.
Proof.
  destruct (copyImage_cases root fs image)
    as [(f & Hm & ->)|[(_ & _ & ->)|(_ & bytes & _ & ->)]]; cbn [fst].
  - apply first_match_Some in Hm as [Hin _].
    apply elem_of_entryList in Hin as (He & Hh & _). auto.
  - split; [apply new_name_entry|apply new_name_visible].
  - split; [apply new_name_entry|apply new_name_visible].
Qed.

Lemma copyImage_file_name (root : string) (fs : filesystem) (image : string) :
  file_name (fst (copyImage root fs image)) = true.
Proof.
  destruct (copyImage_listed_name root fs image). now apply isHidden_file_name.
Qed.

Lemma copyImage_name_not_empty (root : string) (fs : filesystem) (image : string) :
  fst (copyImage root fs image) <> EmptyString.
Proof.
  destruct (copyImage_listed_name root fs image) as [He _].
  intros E. rewrite E in He. discriminate.
Qed.

(** A file that [copyImage] adds is a file of the Images directory that
    the listing shows. *)
Lemma copyImage_adds_listed (root : string) (fs : filesystem) (image k : string) :
  is_Some (snd (copyImage root fs image) !! k) ->
  is_Some (fs !! k) \/
  exists f, entry_name f = true /\ isHidden f = false /\
            k = filePathIn (imagesDir root) f.
Proof.
  destruct (copyImage_cases root fs image)
    as [(f & _ & ->)|[(_ & _ & ->)|(_ & bytes & _ & ->)]]; cbn [snd]; auto.
  rewrite lookup_insert_is_Some. intros [<-|[_ H]]; [right|now left].
  exists (new_name root fs image).
  split; [apply new_name_entry|]. split; [apply new_name_visible|reflexivity].
Qed.

Lemma copyImage_adds_in_Images (root : string) (fs : filesystem) (image k : string) :
  is_Some (snd (copyImage root fs image) !! k) ->
  is_Some (fs !! k) \/
  exists f, entry_name f = true /\ k = filePathIn (imagesDir root) f.
Proof.
  intros H. apply copyImage_adds_listed in H as [H|(f & He & _ & Hk)]; eauto.
Qed.

Lemma NoDup_omap_inj {A B : Type} (f : A -> option B) (l : list A) :
  (forall x y z, f x = Some z -> f y = Some z -> x = y) ->
  NoDup l -> NoDup (omap f l).
Proof.
  intros Hinj. induction 1 as [|x l Hx Hnd IH]; [constructor|].
  simpl. destruct (f x) as [z|] eqn:E; [|exact IH].
  constructor; [|exact IH].
  intros (y & Hy & Hfy)%list_elem_of_omap.
  now rewrite (Hinj x y z E Hfy) in Hx.
Qed.

Lemma NoDup_entryList {V : Type} (dir : string) (m : gmap string V) :
  NoDup (entryList dir m).
Proof.
  unfold entryList. rewrite merge_sort_Permutation.
  apply NoDup_filter, NoDup_omap_inj; [|apply NoDup_fst_map_to_list].
  intros x y z Hx Hy. apply strip_prefix_Some in Hx, Hy. congruence.
Qed.

Lemma images_path (root file : string) :
  root +:+ "/Images/" +:+ file = filePathIn (imagesDir root) file.
Proof.
  unfold filePathIn, imagesDir. rewrite string_app_assoc.
  f_equal.
Qed.

(** The loop that deletes: no file appears or changes, a file whose name
    is not both listed and out of use stays, and a file whose name is
    listed and out of use goes. *)
Lemma remove_unused_Some (root : string) (images names : list string)
    (fs : filesystem) (k : string) (v : file) :
  remove_unused root images fs names !! k = Some v -> fs !! k = Some v.
Proof.
  unfold remove_unused. revert fs.
  induction names as [|g names IH]; intros fs; cbn [foldl]; [trivial|].
  intros H. apply IH in H. destruct (bool_decide (g ∈ images)); [exact H|].
  unfold QFile_remove in H. apply lookup_delete_Some in H. tauto.
Qed.

Lemma remove_unused_kept (root : string) (images names : list string)
    (fs : filesystem) (k : string) :
  (forall f, f ∈ names -> f ∉ images -> k <> filePathIn (imagesDir root) f) ->
  remove_unused root images fs names !! k = fs !! k.
Proof.
  unfold remove_unused. revert fs.
  induction names as [|g names IH]; intros fs Hk; cbn [foldl]; [reflexivity|].
  rewrite IH by (intros f Hf; apply Hk; now right).
  destruct (bool_decide (g ∈ images)) eqn:Eg; [reflexivity|].
  apply bool_decide_eq_false in Eg.
  unfold QFile_remove. rewrite images_path. apply lookup_delete_ne.
  intros E. symmetry in E. revert E. apply Hk; [left|exact Eg].
Qed.

Lemma remove_unused_gone (root : string) (images names : list string)
    (fs : filesystem) (f : string) :
  f ∈ names -> f ∉ images ->
  remove_unused root images fs names !! filePathIn (imagesDir root) f = None.
Proof.
  intros Hf Hi. revert fs.
  induction names as [|g names IH]; intros fs; [now apply not_elem_of_nil in Hf|].
  apply elem_of_cons in Hf as [<-|Hf].
  - destruct (remove_unused root images fs (f :: names) !! _) as [v|] eqn:E;
      [|reflexivity].
    unfold remove_unused in E. cbn [foldl] in E.
    apply (remove_unused_Some root images names) in E.
    rewrite bool_decide_eq_false_2 in E by exact Hi.
    unfold QFile_remove in E. rewrite images_path, lookup_delete_eq in E.
    discriminate.
  - unfold remove_unused. cbn [foldl]. now apply IH.
Qed.


Lemma NoDup_theme_list (root : string) (st : store) : NoDup (theme_list root st).
Proof. apply NoDup_filter, NoDup_entryList. Qed.

Lemma theme_list_keys (root : string) (st : store) (t : string) :
  t ∈ theme_list root st -> is_Some (themes st !! theme_file root t).
Proof.
  intros [_ H]%list_elem_of_filter. now apply elem_of_entryList in H.
Qed.

Lemma theme_list_same (root : string) (st st' : store) (t : string) :
  (forall k, is_Some (themes st' !! k) <-> is_Some (themes st !! k)) ->
  t ∈ theme_list root st' <-> t ∈ theme_list root st.
Proof.
  intros D. unfold theme_list.
  rewrite !list_elem_of_filter, !elem_of_entryList. now rewrite D.
Qed.

Lemma file_name_not_empty (c : string) : file_name c = true -> c <> EmptyString.
Proof. intros H ->. discriminate. Qed.

(** *** The pass, for every answer of [QDir::exists] *)

Section Pass.
Context {R : PathResolution}.

Lemma copy_step_unfold (root : string) (st : store) (images : list string)
    (theme : string) :
  copy_step root (st, images) theme =
  if no_background root st theme then (st, images)
  else if needs_copy root st theme then
    let r := copyImage root (files st) (source_of root st theme) in
    (setValue (with_files st (snd r)) (theme_file root theme)
       "Background/ImageFile" (fst r),
     (images ++ [fst r])%list)
  else (st, (images ++ [cached_of root st theme])%list).
Proof.
  unfold copy_step, no_background, needs_copy, source_of, cached_of, theme_file.
  destruct (_ && _); [reflexivity|].
  destruct (_ && _); [|reflexivity].
  now destruct (copyImage _ _ _).
Qed.

Lemma needs_copy_source (root : string) (st : store) (t : string) :
  needs_copy root st t = true -> source_of root st t <> EmptyString.
Proof.
  unfold needs_copy. intros [H _]%andb_true_iff.
  now apply negb_true_iff, isEmpty_false in H.
Qed.

(** For a theme whose cached image name is empty or a plain file name,
    the test of the loop is a look-up in the Images directory. *)
Lemma needs_copy_false (root : string) (st : store) (t : string) :
  cached_plain root st t ->
  needs_copy root st t = false <->
  source_of root st t = EmptyString \/
  (cached_of root st t <> EmptyString /\
   is_Some (files st !! filePathIn (imagesDir root) (cached_of root st t))).
Proof.
  intros Hp. unfold needs_copy.
  destruct (decide (source_of root st t = EmptyString)) as [Hs|Hs].
  { rewrite Hs. cbn. split; auto. }
  destruct (Hp Hs) as [Hc|Hc].
  - rewrite Hc. cbn [isEmpty orb]. rewrite andb_true_r, negb_false_iff, isEmpty_true.
    split; [auto|]. intros [H|[H _]]; [exact H|now contradiction H].
  - rewrite QDir_exists_file_name by exact Hc.
    rewrite andb_false_iff, negb_false_iff, isEmpty_true, orb_false_iff,
      isEmpty_false, negb_false_iff, QFile_exists_true.
    reflexivity.
Qed.

Lemma needs_copy_same (root : string) (st st' : store) (u : string) :
  files st' = files st ->
  source_of root st' u = source_of root st u ->
  cached_of root st' u = cached_of root st u ->
  needs_copy root st' u = needs_copy root st u.
Proof. unfold needs_copy. now intros -> -> ->. Qed.

Lemma cached_plain_same (root : string) (st st' : store) (u : string) :
  source_of root st' u = source_of root st u ->
  cached_of root st' u = cached_of root st u ->
  cached_plain root st u -> cached_plain root st' u.
Proof. unfold cached_plain. now intros -> ->. Qed.

Lemma needs_copy_mono (root : string) (st st' : store) (u : string) :
  grows (files st) (files st') ->
  source_of root st' u = source_of root st u ->
  cached_of root st' u = cached_of root st u ->
  cached_plain root st u ->
  needs_copy root st u = false -> needs_copy root st' u = false.
Proof.
  intros G Hs Hc Hp.
  rewrite (needs_copy_false root st u Hp).
  rewrite (needs_copy_false root st' u (cached_plain_same _ _ _ _ Hs Hc Hp)).
  rewrite Hs, Hc.
  intros [H|[H1 [v H2]]]; [now left|right].
  split; [exact H1|]. rewrite (G _ _ H2). eauto.
Qed.

(** One turn of the loop over the themes, without any assumption on the
    sources. *)
Lemma copy_step_frame (root : string) (st : store) (images : list string) (t : string) :
  is_Some (themes st !! theme_file root t) ->
  let st' := fst (copy_step root (st, images) t) in
  let images' := snd (copy_step root (st, images) t) in
  grows (files st) (files st') /\
  (forall k, is_Some (files st' !! k) ->
             is_Some (files st !! k) \/
             exists f, entry_name f = true /\ isHidden f = false /\
                       k = filePathIn (imagesDir root) f) /\
  (forall k, is_Some (themes st' !! k) <-> is_Some (themes st !! k)) /\
  current_session st' = current_session st /\ sessions st' = sessions st /\
  (forall p key, key <> "Background/ImageFile" ->
                 QSettings_open st' p !! key = QSettings_open st p !! key) /\
  (forall u, u <> t -> cached_of root st' u = cached_of root st u) /\
  no_background root st' t = no_background root st t /\
  images' = (if no_background root st t then images
             else (images ++ [cached_of root st' t])%list) /\
  (needs_copy root st t = false -> st' = st) /\
  (cached_of root st' t = cached_of root st t \/
   file_name (cached_of root st' t) = true) /\
  (needs_copy root st' t = false \/
   needs_copy root st t = true /\
   QFile_open (files st) (source_of root st t) = None) /\
  (needs_copy root st t = true ->
   files st' = snd (copyImage root (files st) (source_of root st t))) /\
  (needs_copy root st t = false -> files st' = files st).
Proof.
  intros Hkey st' images'. subst st' images'.
  rewrite copy_step_unfold.
  destruct (no_background root st t) eqn:Hnb;
    [|destruct (needs_copy root st t) eqn:Hnc].
  - cbn [fst snd].
    assert (Hn : needs_copy root st t = false).
    { unfold no_background in Hnb. apply andb_true_iff in Hnb as [H _].
      unfold needs_copy. now rewrite H. }
    split; [now intros k v|]. split; [auto|]. do 7 (split; [tauto || reflexivity|]).
    split; [reflexivity|]. split; [now left|]. split; [now left|].
    split; [congruence|reflexivity].
  - pose proof (copyImage_grows root (files st) (source_of root st t)) as G.
    pose proof (copyImage_adds_listed root (files st) (source_of root st t)) as A.
    pose proof (copyImage_name_not_empty root (files st) (source_of root st t)) as Hne.
    pose proof (copyImage_file_name root (files st) (source_of root st t)) as Hfn.
    pose proof (copyImage_stored root (files st) (source_of root st t)) as Hst.
    cbn zeta in Hst.
    set (r := copyImage root (files st) (source_of root st t)) in *.
    cbn zeta. cbn [fst snd].
    set (st' := setValue (with_files st (snd r)) (theme_file root t)
                  "Background/ImageFile" (fst r)).
    assert (Hc : cached_of root st' t = fst r).
    { unfold cached_of, st'. rewrite QSettings_open_setValue, value_insert.
      now rewrite decide_True. }
    assert (Hs : source_of root st' t = source_of root st t).
    { apply source_of_lookup. intros p key Hk. unfold st'.
      now rewrite QSettings_open_setValue_lookup. }
    split; [exact G|]. split; [exact A|].
    split.
    { intros k. unfold st', setValue. cbn [themes with_files].
      rewrite lookup_insert_is_Some. split.
      - intros [<-|[_ ?]]; assumption.
      - intros Hk. destruct (decide (theme_file root t = k)); [now left|now right]. }
    split; [reflexivity|]. split; [reflexivity|].
    split.
    { intros p key Hk. unfold st'. now rewrite QSettings_open_setValue_lookup. }
    split.
    { intros u Hu. unfold cached_of, st'.
      rewrite QSettings_open_setValue_ne; [reflexivity|].
      intros E. apply theme_file_inj in E. congruence. }
    split.
    { unfold no_background. rewrite Hc.
      apply isEmpty_false in Hne. now rewrite Hne, andb_false_r. }
    split; [now rewrite Hc|]. split; [discriminate|].
    split; [right; now rewrite Hc|].
    split; [|split; [reflexivity|discriminate]].
    destruct (QFile_open (files st) (source_of root st t)) as [bytes|] eqn:Ho;
      [left|now right].
    destruct Hst as [_ Hex]; [eauto|].
    unfold needs_copy. rewrite Hc, Hs.
    rewrite QDir_exists_file_name by exact Hfn.
    apply QFile_exists_true in Hex.
    change (files st') with (snd r). rewrite Hex.
    apply isEmpty_false in Hne. rewrite Hne. apply andb_false_r.
  - cbn [fst snd].
    split; [now intros k v|]. split; [auto|]. do 7 (split; [tauto || reflexivity|]).
    split; [reflexivity|]. split; [now left|]. split; [now left|].
    split; [discriminate|reflexivity].
Qed.

(** The loop over the themes, without any assumption on the sources. *)
Lemma copy_loop_frame (root : string) (L : list string) :
  forall (st : store) (images : list string),
  NoDup L ->
  (forall t, t ∈ L -> is_Some (themes st !! theme_file root t)) ->
  let st1 := fst (foldl (copy_step root) (st, images) L) in
  let images1 := snd (foldl (copy_step root) (st, images) L) in
  grows (files st) (files st1) /\
  (forall k, is_Some (files st1 !! k) ->
             is_Some (files st !! k) \/
             exists f, entry_name f = true /\ isHidden f = false /\
                       k = filePathIn (imagesDir root) f) /\
  (forall k, is_Some (themes st1 !! k) <-> is_Some (themes st !! k)) /\
  current_session st1 = current_session st /\ sessions st1 = sessions st /\
  (forall p key, key <> "Background/ImageFile" ->
                 QSettings_open st1 p !! key = QSettings_open st p !! key) /\
  (forall u, u ∉ L -> cached_of root st1 u = cached_of root st u) /\
  (forall t, t ∈ L -> needs_copy root st t = false -> cached_plain root st t ->
             cached_of root st1 t = cached_of root st t) /\
  (forall t, t ∈ L -> no_background root st1 t = false ->
             cached_of root st1 t ∈ images1) /\
  (forall x, x ∈ images1 ->
     x ∈ images \/
     exists t, t ∈ L /\ no_background root st1 t = false /\ cached_of root st1 t = x) /\
  (forall x, x ∈ images -> x ∈ images1) /\
  ((forall t, t ∈ L -> needs_copy root st t = false) -> st1 = st) /\
  (forall u, cached_plain root st u -> cached_plain root st1 u) /\
  (forall t, t ∈ L -> cached_plain root st t ->
             needs_copy root st1 t = false \/
             needs_copy root st t = true /\
             QFile_open (files st) (source_of root st t) = None) /\
  ((forall t, t ∈ L -> needs_copy root st t = true ->
              snd (copyImage root (files st) (source_of root st t)) = files st) ->
   files st1 = files st).
Proof.
  induction L as [|t L IH]; intros st images Hnd Hkeys; cbn [foldl].
  - cbn [fst snd].
    split; [now intros k v|]. split; [auto|].
    do 5 (split; [tauto || reflexivity|]).
    split; [intros t Ht; now apply not_elem_of_nil in Ht|].
    split; [intros t Ht; now apply not_elem_of_nil in Ht|].
    split; [tauto|]. split; [tauto|]. split; [reflexivity|]. split; [tauto|].
    split; [intros t Ht; now apply not_elem_of_nil in Ht|reflexivity].
  - apply NoDup_cons in Hnd as [Hnotin Hnd].
    destruct (copy_step_frame root st images t)
      as (G & A & D & Cs & Ss & Fr & Oth & Nb & Im & Same & Pl & St & Cp & Nc).
    { apply Hkeys. left. }
    destruct (copy_step root (st, images) t) as [st' images'] eqn:E.
    cbn [fst snd] in *.
    destruct (IH st' images' Hnd)
      as (G1 & A1 & D1 & Cs1 & Ss1 & Fr1 & Oth1 & Kept1 & In1 & From1 & Keep1
          & Same1 & Plain1 & Settle1 & FS1).
    { intros u Hu. apply D, Hkeys. now right. }
    cbn zeta in *.
    set (st1 := fst (foldl (copy_step root) (st', images') L)) in *.
    set (images1 := snd (foldl (copy_step root) (st', images') L)) in *.
    assert (Src : forall u, source_of root st' u = source_of root st u)
      by (intros u; now apply source_of_lookup).
    assert (Src1 : forall u, source_of root st1 u = source_of root st' u)
      by (intros u; now apply source_of_lookup).
    assert (Ct : cached_of root st1 t = cached_of root st' t) by now apply Oth1.
    assert (Nbt : no_background root st1 t = no_background root st t).
    { rewrite <- Nb. apply no_background_same; [apply Src1|exact Ct]. }
    assert (Plain : forall u, cached_plain root st u -> cached_plain root st' u).
    { intros u Hu. destruct (decide (u = t)) as [->|Hne].
      - intros Hs. rewrite Src in Hs. destruct Pl as [Pl|Pl]; [|now right].
        rewrite Pl. now apply Hu.
      - apply (cached_plain_same root st st' u (Src u) (Oth u Hne) Hu). }
    split; [intros k v Hk; now apply G1, G|].
    split.
    { intros k Hk. apply A1 in Hk as [Hk|Hk]; [now apply A|now right]. }
    split; [intros k; rewrite D1; apply D|].
    split; [congruence|]. split; [congruence|].
    split; [intros p key Hk; rewrite Fr1 by assumption; now apply Fr|].
    split.
    { intros u Hu. apply not_elem_of_cons in Hu as [Hut HuL].
      rewrite Oth1 by assumption. now apply Oth. }
    split.
    { intros u Hu Hn Hp. apply elem_of_cons in Hu as [->|Hu].
      - rewrite Ct. now rewrite (Same Hn).
      - assert (u <> t) by (intros ->; contradiction).
        rewrite Kept1; [now apply Oth|assumption| |now apply Plain].
        apply (needs_copy_mono root st st' u G (Src u) (Oth u H) Hp Hn). }
    split.
    { intros u Hu Hb. apply elem_of_cons in Hu as [->|Hu]; [|now apply In1].
      apply Keep1. rewrite Nbt in Hb. rewrite Hb in Im. subst images'.
      rewrite Ct. apply elem_of_app. right. left. }
    split.
    { intros x Hx. apply From1 in Hx as [Hx|(u & Hu & Hb & Hc)].
      - destruct (no_background root st t) eqn:Hb; subst images'; [now left|].
        apply elem_of_app in Hx as [Hx|Hx]; [now left|right].
        apply list_elem_of_singleton in Hx. subst x.
        exists t. split; [left|]. split; [congruence|exact Ct].
      - right. exists u. split; [now right|]. split; assumption. }
    split.
    { intros x Hx. apply Keep1.
      destruct (no_background root st t); subst images'; [assumption|].
      apply elem_of_app. now left. }
    split.
    { intros Hall.
      assert (st' = st) by (apply Same, Hall; left). subst st'.
      apply Same1. intros u Hu. apply Hall. now right. }
    split; [intros u Hu; now apply Plain1, Plain|].
    split.
    { intros u Hu Hp. apply elem_of_cons in Hu as [->|Hu].
      - destruct St as [St|St]; [left|now right].
        apply (needs_copy_mono root st' st1 t G1 (Src1 t) Ct (Plain t Hp) St).
      - assert (u <> t) by (intros ->; contradiction).
        destruct (Settle1 u Hu (Plain u Hp)) as [S|[S1 S2]]; [now left|right].
        split.
        + destruct (needs_copy root st u) eqn:Hu0; [reflexivity|].
          rewrite (needs_copy_mono root st st' u G (Src u) (Oth u H) Hp Hu0) in S1.
          discriminate.
        + rewrite Src in S2.
          destruct (QFile_open (files st) (source_of root st u)) as [b|] eqn:Ho;
            [|reflexivity].
          destruct (QFile_open_grows _ _ (source_of root st u) G) as [b' Hb'];
            [rewrite Ho; eauto|congruence]. }
    intros Hall.
    assert (Hf : files st' = files st).
    { destruct (needs_copy root st t) eqn:Hn.
      - rewrite (Cp eq_refl). apply Hall; [left|exact Hn].
      - now apply Nc. }
    rewrite FS1; [exact Hf|].
    intros u Hu Hn.
    assert (u <> t) by (intros ->; contradiction).
    rewrite Hf, Src. apply Hall; [now right|].
    now rewrite <- (needs_copy_same root st st' u Hf (Src u) (Oth u H)).
Qed.

Lemma copyBackgrounds_unfold (root : string) (st : store) :
  copyBackgrounds root st =
  let r := foldl (copy_step root) (st, []) (theme_list root st) in
  with_files (fst r)
    (remove_unused root (snd r) (files (fst r))
       (entryList (imagesDir root) (files (fst r)))).
Proof.
  unfold copyBackgrounds, theme_list.
  now destruct (foldl _ _ _).
Qed.

(** What the pass leaves: the facts of the loop, read on the store the
    pass returns. *)
Lemma copyBackgrounds_themes (root : string) (st : store) :
  (forall p key, key <> "Background/ImageFile" ->
     QSettings_open (copyBackgrounds root st) p !! key = QSettings_open st p !! key) /\
  (forall u, source_of root (copyBackgrounds root st) u = source_of root st u) /\
  (forall t, t ∈ theme_list root (copyBackgrounds root st) <-> t ∈ theme_list root st).
Proof.
  destruct (copy_loop_frame root (theme_list root st) st []
              (NoDup_theme_list root st) (theme_list_keys root st))
    as (_ & _ & D & _ & _ & Fr & _).
  cbn zeta in *.
  rewrite copyBackgrounds_unfold. cbn zeta.
  set (sl := fst (foldl (copy_step root) (st, []) (theme_list root st))) in *.
  assert (Hk : forall p key, key <> "Background/ImageFile" ->
             QSettings_open (with_files sl
               (remove_unused root
                  (snd (foldl (copy_step root) (st, []) (theme_list root st)))
                  (files sl) (entryList (imagesDir root) (files sl)))) p !! key
             = QSettings_open st p !! key).
  { intros p key Hkey. unfold QSettings_open at 1. cbn [with_files themes].
    now apply Fr. }
  split; [exact Hk|]. split.
  - intros u. now apply source_of_lookup.
  - intros t. now apply theme_list_same.
Qed.

Lemma copyBackgrounds_other_keys (root : string) (st : store) (p key : string) :
  key <> "Background/ImageFile" ->
  QSettings_open (copyBackgrounds root st) p !! key = QSettings_open st p !! key.
Proof. apply copyBackgrounds_themes. Qed.

(** Every file the listing of the Images directory shows after the pass
    is the cached image of a theme the pass walked. *)
Lemma copyBackgrounds_used (root : string) (st : store) (f : string) :
  f ∈ entryList (imagesDir root) (files (copyBackgrounds root st)) ->
  exists t, t ∈ theme_list root (copyBackgrounds root st) /\
            no_background root (copyBackgrounds root st) t = false /\
            cached_of root (copyBackgrounds root st) t = f.
Proof.
  destruct (copyBackgrounds_themes root st) as (_ & _ & Hlist).
  revert Hlist.
  destruct (copy_loop_frame root (theme_list root st) st []
              (NoDup_theme_list root st) (theme_list_keys root st))
    as (_ & _ & _ & _ & _ & _ & _ & _ & _ & From & _).
  cbn zeta in *.
  rewrite copyBackgrounds_unfold. cbn zeta.
  set (sl := fst (foldl (copy_step root) (st, []) (theme_list root st))) in *.
  set (il := snd (foldl (copy_step root) (st, []) (theme_list root st))) in *.
  set (names := entryList (imagesDir root) (files sl)) in *.
  intros Hlist Hf.
  apply elem_of_entryList in Hf as (He & Hh & [v Hv]).
  cbn [with_files files] in Hv.
  assert (Hn : f ∈ names).
  { apply elem_of_entryList. split; [exact He|]. split; [exact Hh|].
    apply remove_unused_Some in Hv. eauto. }
  destruct (decide (f ∈ il)) as [Hi|Hi].
  - apply From in Hi as [Hi|(t & Ht & Hb & Hc)];
      [now apply not_elem_of_nil in Hi|].
    exists t. split; [now apply Hlist|]. split; assumption.
  - rewrite (remove_unused_gone root il names (files sl) f Hn Hi) in Hv.
    discriminate.
Qed.

(** The pass removes no hidden file of the Images directory: the listing
    does not show it. *)
Lemma copyBackgrounds_hidden (root : string) (st : store) (n : string) (v : file) :
  isHidden n = true ->
  files st !! filePathIn (imagesDir root) n = Some v ->
  files (copyBackgrounds root st) !! filePathIn (imagesDir root) n = Some v.
Proof.
  intros Hh Hv.
  destruct (copy_loop_frame root (theme_list root st) st []
              (NoDup_theme_list root st) (theme_list_keys root st))
    as (G & _).
  cbn zeta in *.
  rewrite copyBackgrounds_unfold. cbn zeta. cbn [with_files files].
  rewrite remove_unused_kept; [now apply G|].
  intros f Hf _ E. apply filePathIn_inj in E. subst f.
  apply elem_of_entryList in Hf as (_ & Hf & _). congruence.
Qed.

(** A theme whose cached image name is a plain file name of a file of the
    Images directory before the pass keeps its record, and the file keeps
    its bytes. *)
Lemma copyBackgrounds_kept (root : string) (st : store) (t c : string) (v : file) :
  t ∈ theme_list root st ->
  cached_of root st t = c -> file_name c = true ->
  files st !! filePathIn (imagesDir root) c = Some v ->
  cached_of root (copyBackgrounds root st) t = c /\
  files (copyBackgrounds root st) !! filePathIn (imagesDir root) c = Some v.
Proof.
  intros Ht Hc Hfn Hv.
  destruct (copy_loop_frame root (theme_list root st) st []
              (NoDup_theme_list root st) (theme_list_keys root st))
    as (G & _ & _ & _ & _ & _ & _ & Kept & In1 & _).
  cbn zeta in *.
  rewrite copyBackgrounds_unfold. cbn zeta.
  set (sl := fst (foldl (copy_step root) (st, []) (theme_list root st))) in *.
  set (il := snd (foldl (copy_step root) (st, []) (theme_list root st))) in *.
  pose proof (file_name_not_empty c Hfn) as Hne.
  assert (Hp : cached_plain root st t) by (intros _; right; now rewrite Hc).
  assert (Hn : needs_copy root st t = false).
  { apply (needs_copy_false root st t Hp). right. rewrite Hc. eauto. }
  assert (Hsl : cached_of root sl t = c) by (rewrite Kept; assumption).
  split; [exact Hsl|].
  cbn [with_files files]. rewrite remove_unused_kept; [now apply G|].
  intros f Hf Hi E. apply filePathIn_inj in E. subst f. apply Hi.
  rewrite <- Hsl. apply In1; [exact Ht|].
  unfold no_background. rewrite Hsl. apply isEmpty_false in Hne.
  now rewrite Hne, andb_false_r.
Qed.



End Pass.




(** * Further properties *)

(** ** The maintenance pass, whatever the sources *)

(** X1. The maintenance pass changes no session, creates and deletes no
    definition file, and changes no entry of a definition file other than
    Background/ImageFile; it deletes and changes no file outside the Images
    directory, changes the bytes of no file, and creates files only in the
    Images directory. *)
Theorem copyBackgrounds_frame {R : PathResolution} (root : string) (st : store) :
  let st1 := copyBackgrounds root st in
  current_session st1 = current_session st /\
  sessions st1 = sessions st /\
  (forall p, is_Some (themes st1 !! p) <-> is_Some (themes st !! p)) /\
  (forall p key, key <> "Background/ImageFile" ->
                 QSettings_open st1 p !! key = QSettings_open st p !! key) /\
  (forall k v, files st !! k = Some v ->
               (forall f, k <> filePathIn (imagesDir root) f) ->
               files st1 !! k = Some v) /\
  (forall k v, files st1 !! k = Some v ->
               files st !! k = Some v \/
               (files st !! k = None /\ exists f, k = filePathIn (imagesDir root) f)).
Proof.
  intros st1.
  destruct (copy_loop_frame root (theme_list root st) st []
              (NoDup_theme_list root st) (theme_list_keys root st))
    as (G & A & D & Cs & Ss & Fr & _).
  cbn zeta in *.
  assert (E1 : st1 = copyBackgrounds root st) by reflexivity.
  rewrite copyBackgrounds_unfold in E1. cbn zeta in E1.
  set (sl := fst (foldl (copy_step root) (st, []) (theme_list root st))) in *.
  set (il := snd (foldl (copy_step root) (st, []) (theme_list root st))) in *.
  rewrite E1. cbn [with_files current_session sessions themes files].
  split; [exact Cs|]. split; [exact Ss|]. split; [exact D|].
  split; [exact Fr|].
  split.
  - intros k v Hk Hout. rewrite remove_unused_kept; [now apply G|].
    intros f _ _. apply Hout.
  - intros k v Hk. apply remove_unused_Some in Hk.
    destruct (files st !! k) as [v'|] eqn:Ek.
    + left. apply G in Ek. congruence.
    + right. split; [reflexivity|].
      destruct (A k) as [[? ?]|(f & _ & _ & ->)]; [eauto|congruence|eauto].
Qed.

(** X2. After the maintenance pass every file that the listing of the
    Images directory shows is the cached image of a listed theme (any
    other listed file has been deleted), whether or not the sources can be
    read; a hidden file of the directory, which the listing does not show,
    is never deleted; and a theme whose cached image name is a plain file
    name (no slash, neither [.] nor [..]) of a file of the Images directory
    before the pass keeps its record, and that file keeps its bytes. *)
Theorem copyBackgrounds_collects {R : PathResolution} (root : string) (st : store) :
  let st1 := copyBackgrounds root st in
  (forall f, f ∈ entryList (imagesDir root) (files st1) ->
             exists t, t ∈ theme_list root st1 /\ cached_of root st1 t = f) /\
  (forall n v, isHidden n = true ->
               files st !! filePathIn (imagesDir root) n = Some v ->
               files st1 !! filePathIn (imagesDir root) n = Some v) /\
  (forall t c v, t ∈ theme_list root st ->
                 cached_of root st t = c -> file_name c = true ->
                 files st !! filePathIn (imagesDir root) c = Some v ->
                 cached_of root st1 t = c /\
                 files st1 !! filePathIn (imagesDir root) c = Some v).
Proof.
  intros st1. split; [|split].
  - intros f Hf. destruct (copyBackgrounds_used root st f Hf) as (t & Ht & _ & Hc).
    eauto.
  - intros n v. apply copyBackgrounds_hidden.
  - intros t c v. apply copyBackgrounds_kept.
Qed.

(** ** Comparing and interning files *)

(** X3. [compareFiles] answers true exactly when both files can be opened
    and hold the same bytes. So it is symmetric and transitive, it holds of
    a file and itself when the file can be read, and it fails for a file
    that cannot be opened, also against itself. *)
Theorem compareFiles_equivalence (fs : filesystem) (a b c : string) :
  (compareFiles fs a b = true <->
   exists bytes, QFile_open fs a = Some bytes /\ QFile_open fs b = Some bytes) /\
  compareFiles fs a b = compareFiles fs b a /\
  (compareFiles fs a b = true -> compareFiles fs b c = true ->
   compareFiles fs a c = true) /\
  (compareFiles fs a a = true <-> is_Some (QFile_open fs a)).
Proof.
  split; [apply compareFiles_true|]. split; [|split].
  - destruct (compareFiles fs a b) eqn:E1, (compareFiles fs b a) eqn:E2; trivial.
    + apply compareFiles_true in E1 as (s & H1 & H2).
      assert (compareFiles fs b a = true) by (apply compareFiles_true; eauto).
      congruence.
    + apply compareFiles_true in E2 as (s & H1 & H2).
      assert (compareFiles fs a b = true) by (apply compareFiles_true; eauto).
      congruence.
  - intros (s & H1 & H2)%compareFiles_true (s' & H3 & H4)%compareFiles_true.
    apply compareFiles_true. exists s. split; [assumption|congruence].
  - rewrite compareFiles_true. split.
    + intros (s & H & _). eauto.
    + intros [s H]. eauto.
Qed.

Lemma compareFiles_same_bytes (fs : filesystem) (p q x : string) (bytes : list byte) :
  QFile_open fs p = Some bytes -> QFile_open fs q = Some bytes ->
  compareFiles fs p x = compareFiles fs q x.
Proof.
  intros Hp Hq.
  destruct (compareFiles fs p x) eqn:E1, (compareFiles fs q x) eqn:E2; trivial.
  - apply compareFiles_true in E1 as (s & H1 & H2).
    assert (compareFiles fs q x = true) by (apply compareFiles_true; exists s; split; congruence).
    congruence.
  - apply compareFiles_true in E2 as (s & H1 & H2).
    assert (compareFiles fs p x = true) by (apply compareFiles_true; exists s; split; congruence).
    congruence.
Qed.

Lemma first_match_same_bytes (fs : filesystem) (p q dir : string) (l : list string)
    (bytes : list byte) :
  QFile_open fs p = Some bytes -> QFile_open fs q = Some bytes ->
  first_match fs p dir l = first_match fs q dir l.
Proof.
  intros Hp Hq. induction l as [|f l IH]; [reflexivity|]. simpl.
  now rewrite (compareFiles_same_bytes fs p q _ bytes Hp Hq), IH.
Qed.

(** The file [copyImage] names holds the bytes of a source that can be
    read, and the source can still be read. *)
Lemma copyImage_content (root : string) (fs : filesystem) (image : string)
    (bytes : list byte) :
  QFile_open fs image = Some bytes ->
  let r := copyImage root fs image in
  QFile_open (snd r) (filePathIn (imagesDir root) (fst r)) = Some bytes /\
  QFile_open (snd r) image = Some bytes /\
  first_match (snd r) image (imagesDir root) (entryList (imagesDir root) (snd r))
  = Some (fst r).
Proof.
  intros Ho.
  destruct (copyImage_cases root fs image)
    as [(f & Hm & ->)|[(_ & Ho' & _)|(Hm & bytes' & Ho' & ->)]]; cbn [fst snd].
  - split; [|split; assumption].
    apply first_match_Some in Hm as [_ Hc].
    apply compareFiles_true in Hc as (s & H1 & H2). congruence.
  - congruence.
  - assert (bytes' = bytes) by congruence. subst bytes'.
    pose proof (new_name_free root fs image) as Hfree.
    pose proof (new_name_entry root fs image) as Hentry.
    pose proof (new_name_visible root fs image) as Hvisible.
    destruct (first_match_after_copy root fs image (new_name root fs image) bytes
                Hm Ho Hfree Hentry Hvisible) as [Hm1 Hc1].
    cbn zeta in *.
    apply compareFiles_true in Hc1 as (s & H1 & H2).
    split; [|split; [|exact Hm1]].
    + unfold QFile_open. now rewrite lookup_insert_eq.
    + unfold QFile_open. rewrite lookup_insert_ne; [exact Ho|].
      intros E. rewrite <- E in Ho. unfold QFile_open in Ho.
      now rewrite Hfree in Ho.
Qed.

(** X4. The name [copyImage] returns is a plain file name whatever the
    source path is: it is not empty and holds no slash. [copyImage]
    deletes no file and changes the bytes of none, and the only file it can
    add is the file of the returned name in the Images directory. *)
Theorem copyImage_plain_name (root : string) (fs : filesystem) (image : string) :
  let r := copyImage root fs image in
  entry_name (fst r) = true /\
  (forall k v, fs !! k = Some v -> snd r !! k = Some v) /\
  (forall k, is_Some (snd r !! k) ->
             is_Some (fs !! k) \/ k = filePathIn (imagesDir root) (fst r)).
Proof.
  intros r. subst r. split; [|split].
  - destruct (copyImage_cases root fs image)
      as [(f & Hm & ->)|[(_ & _ & ->)|(_ & bytes & _ & ->)]]; cbn [fst];
      try apply new_name_entry.
    apply first_match_Some in Hm as [Hin _].
    now apply elem_of_entryList in Hin as [He _].
  - apply copyImage_grows.
  - destruct (copyImage_cases root fs image)
      as [(f & _ & ->)|[(_ & _ & ->)|(_ & bytes & _ & ->)]]; cbn [fst snd]; auto.
    intros k. rewrite lookup_insert_is_Some. intros [<-|[_ H]]; auto.
Qed.

(** X5. When no file of the Images directory has the bytes of the source,
    the name returned is the first free one of the sequence base.suffix,
    base-1.suffix, base-2.suffix, ...: no file bears it, and a file bears
    each name before it. *)
Theorem copyImage_first_free_name (root : string) (fs : filesystem) (image : string) :
  first_match fs image (imagesDir root) (entryList (imagesDir root) fs) = None ->
  exists k,
    fst (copyImage root fs image)
    = candidate (candidate_base image) (toLower (suffix image)) k /\
    fs !! filePathIn (imagesDir root)
            (candidate (candidate_base image) (toLower (suffix image)) k) = None /\
    forall i, i < k ->
      is_Some (fs !! filePathIn (imagesDir root)
                        (candidate (candidate_base image) (toLower (suffix image)) i)).
Proof.
  intros Hm.
  assert (Hname : fst (copyImage root fs image) = new_name root fs image).
  { destruct (copyImage_cases root fs image)
      as [(f & H & _)|[(_ & _ & ->)|(_ & bytes & _ & ->)]];
      [congruence|reflexivity|reflexivity]. }
  destruct (resolve_collisions_spec fs (imagesDir root) (candidate_base image)
              (toLower (suffix image)) (size fs) 0) as (k & _ & Hr & Hbelow & _).
  exists k. rewrite Hname. split; [exact Hr|]. split.
  - pose proof (new_name_free root fs image) as Hfree.
    unfold new_name in Hfree. change (Z.of_nat 0) with 0%Z in Hr.
    change (candidate (candidate_base image) (toLower (suffix image)) 0)
      with (plain_name (candidate_base image) (toLower (suffix image))) in Hr.
    now rewrite Hr in Hfree.
  - intros i Hi. apply QFile_exists_true, Hbelow. lia.
Qed.

Lemma copyImage_first_free_name_witness :
  exists k,
    fst (copyImage "/themes" crowded_files "/home/pic.PNG")
    = candidate (candidate_base "/home/pic.PNG") (toLower (suffix "/home/pic.PNG")) k /\
    crowded_files !! filePathIn (imagesDir "/themes")
      (candidate (candidate_base "/home/pic.PNG") (toLower (suffix "/home/pic.PNG")) k)
    = None /\
    forall i, i < k ->
      is_Some (crowded_files !! filePathIn (imagesDir "/themes")
        (candidate (candidate_base "/home/pic.PNG") (toLower (suffix "/home/pic.PNG")) i)).
Proof.
  apply (copyImage_first_free_name "/themes" crowded_files "/home/pic.PNG").
  vm_compute. reflexivity.
Defined.

Example copyImage_third_name :
  fst (copyImage "/themes" crowded_files "/home/pic.PNG")
  = "b6ae2484ecb22311c08449b49e29ae5fdf983356-2.png".
Proof. vm_compute. reflexivity. Qed.

Lemma QFile_open_grows_eq (fs fs' : filesystem) (p : string) (bytes : list byte) :
  grows fs fs' -> QFile_open fs p = Some bytes -> QFile_open fs' p = Some bytes.
Proof.
  intros G. unfold QFile_open. destruct (fs !! p) as [f|] eqn:E; [|discriminate].
  now rewrite (G _ _ E).
Qed.

(** X6. Once a readable source has been interned, interning any file with
    the same bytes, at whatever path, returns the same name and leaves the
    file system as it is: themes that use the same picture share one
    stored copy. *)
Theorem copyImage_dedup (root : string) (fs : filesystem) (p q : string)
    (bytes : list byte) :
  QFile_open fs p = Some bytes -> QFile_open fs q = Some bytes ->
  let r := copyImage root fs p in
  copyImage root (snd r) q = r.
Proof.
  intros Hp Hq r.
  destruct (copyImage_content root fs p bytes Hp) as (_ & Hp1 & Hm). fold r in Hp1, Hm.
  assert (Hq1 : QFile_open (snd r) q = Some bytes).
  { apply (QFile_open_grows_eq fs); [apply copyImage_grows|exact Hq]. }
  unfold copyImage at 1.
  rewrite <- (first_match_same_bytes (snd r) p q _ _ bytes Hp1 Hq1), Hm.
  now destruct r.
Qed.

Lemma copyImage_dedup_witness :
  let r := copyImage "/themes" three_sources "/a/pic.PNG" in
  copyImage "/themes" (snd r) "/b/copy.png" = r /\
  fst r = "63df46c7a936120b3a3afa0489e1cc04e4941a61.png".
Proof.
  cbv zeta. split; [|vm_compute; reflexivity].
  apply (copyImage_dedup "/themes" three_sources "/a/pic.PNG" "/b/copy.png"
           (content picture)); vm_compute; reflexivity.
Defined.

(** X7. Two readable sources with different bytes, interned one after the
    other, get two different names. *)
Theorem copyImage_distinct (root : string) (fs : filesystem) (p q : string)
    (b1 b2 : list byte) :
  QFile_open fs p = Some b1 -> QFile_open fs q = Some b2 -> b1 <> b2 ->
  let r := copyImage root fs p in
  fst (copyImage root (snd r) q) <> fst r.
Proof.
  intros Hp Hq Hne r E.
  destruct (copyImage_content root fs p b1 Hp) as (Hc1 & _ & _). fold r in Hc1.
  assert (Hq1 : QFile_open (snd r) q = Some b2).
  { apply (QFile_open_grows_eq fs); [apply copyImage_grows|exact Hq]. }
  destruct (copyImage_content root (snd r) q b2 Hq1) as (Hc2 & _ & _).
  rewrite E in Hc2.
  assert (Hc1' : QFile_open (snd (copyImage root (snd r) q))
                   (filePathIn (imagesDir root) (fst r)) = Some b1).
  { apply (QFile_open_grows_eq (snd r)); [apply copyImage_grows|exact Hc1]. }
  congruence.
Qed.

Lemma copyImage_distinct_witness :
  let r := copyImage "/themes" three_sources "/a/pic.PNG" in
  fst r = "63df46c7a936120b3a3afa0489e1cc04e4941a61.png" /\
  fst (copyImage "/themes" (snd r) "/c/other.png") <> fst r.
Proof.
  cbv zeta. split; [vm_compute; reflexivity|].
  apply (copyImage_distinct "/themes" three_sources "/a/pic.PNG" "/c/other.png"
           (content picture) [x4a; x50; x47]);
    [vm_compute; reflexivity|vm_compute; reflexivity|discriminate].
Defined.

(** ** The paths of a theme *)

Lemma percent_hex_roundtrip (c : ascii) :
  hex_pair (upper_hex_digit (nat_of_ascii c / 16))
           (upper_hex_digit (nat_of_ascii c mod 16))
  = Some (Z.of_nat (nat_of_ascii c)).
Proof. destruct c as [[] [] [] [] [] [] [] []]; vm_compute; reflexivity. Qed.

Lemma percent_not_unreserved : unreserved "%" = false.
Proof. reflexivity. Qed.

(** Percent encoding loses nothing when the percent sign itself is
    encoded. *)
Lemma toPercentEncoding_inj (exclude a b : string) :
  has_char "%" exclude = false ->
  toPercentEncoding a exclude = toPercentEncoding b exclude -> a = b.
Proof.
  intros Hx. revert b.
  induction a as [|c a IH]; intros [|c' b]; cbn [toPercentEncoding].
  - reflexivity.
  - destruct (unreserved c' || has_char c' exclude); discriminate.
  - destruct (unreserved c || has_char c exclude); discriminate.
  - destruct (unreserved c || has_char c exclude) eqn:Ec,
             (unreserved c' || has_char c' exclude) eqn:Ec'.
    + intros [= -> H]. f_equal. now apply IH.
    + intros [= -> _]. rewrite percent_not_unreserved, Hx in Ec. discriminate.
    + intros [= <- _]. rewrite percent_not_unreserved, Hx in Ec'. discriminate.
    + intros H. injection H as Hh Hl H.
      change (upper_hex_digit (nat_of_ascii c / 16)
              = upper_hex_digit (nat_of_ascii c' / 16)) in Hh.
      change (upper_hex_digit (nat_of_ascii c mod 16)
              = upper_hex_digit (nat_of_ascii c' mod 16)) in Hl.
      pose proof (percent_hex_roundtrip c) as R.
      rewrite Hh, Hl, percent_hex_roundtrip in R.
      injection R as R. apply Nat2Z.inj in R.
      assert (c = c') as ->.
      { rewrite <- (ascii_nat_embedding c), <- (ascii_nat_embedding c'). congruence. }
      f_equal. now apply IH.
Qed.

Lemma upper_hex_digit_not_slash (d : nat) : Ascii.eqb (upper_hex_digit d) "/" = false.
Proof.
  unfold upper_hex_digit.
  do 17 (destruct d as [|d]; [reflexivity|]). reflexivity.
Qed.

Lemma toPercentEncoding_no_slash (s exclude : string) :
  has_char "/" exclude = false ->
  has_char "/" (toPercentEncoding s exclude) = false.
Proof.
  intros Hx. induction s as [|c s IH]; [reflexivity|]. simpl.
  destruct (unreserved c || has_char c exclude) eqn:Ec; simpl.
  - rewrite IH, orb_false_r.
    destruct (Ascii.eqb_spec c "/") as [->|]; [|reflexivity].
    rewrite Hx in Ec. discriminate.
  - now rewrite !upper_hex_digit_not_slash, IH.
Qed.

Lemma ends_with_app (e s : string) : ends_with e (s +:+ e) = true.
Proof.
  induction s as [|c s IH].
  - rewrite app_Empty. destruct e; simpl; [reflexivity|].
    now rewrite Ascii.eqb_refl, String.eqb_refl.
  - rewrite app_String. simpl. rewrite IH. apply orb_true_r.
Qed.

Lemma toLower_app (a b : string) : toLower (a +:+ b) = toLower a +:+ toLower b.
Proof.
  induction a as [|c a IH]; [reflexivity|].
  rewrite app_String. simpl. now rewrite IH, app_String.
Qed.

(** The definition file of a theme, as a name of the store root. *)
Lemma filePath_theme_file (root theme : string) :
  filePath root theme = theme_file root (toPercentEncoding theme " " +:+ ".theme") /\
  entry_name (toPercentEncoding theme " " +:+ ".theme") = true /\
  is_theme_file (toPercentEncoding theme " " +:+ ".theme") = true.
Proof.
  split; [reflexivity|]. split.
  - unfold entry_name. rewrite isEmpty_app, has_char_app.
    rewrite toPercentEncoding_no_slash by reflexivity.
    simpl. now rewrite andb_false_r.
  - unfold is_theme_file. rewrite toLower_app.
    change (toLower ".theme") with ".theme". apply ends_with_app.
Qed.

Lemma filePath_inj (root a b : string) : filePath root a = filePath root b -> a = b.
Proof.
  unfold filePath. intros H. do 2 apply String.app_inj in H.
  apply string_app_inv_tail in H.
  now apply toPercentEncoding_inj in H.
Qed.

Lemma theme_not_png (x y : string) : x +:+ ".theme" <> y +:+ ".png".
Proof.
  revert y. induction x as [|c x IH]; intros y H.
  - apply (f_equal String.length) in H as Hlen.
    rewrite !string_length_app in Hlen. simpl in Hlen.
    destruct y as [|c1 [|c2 [|c3 y]]]; simpl in Hlen; try lia.
    rewrite !app_String, app_Empty in H. discriminate H.
  - destruct y as [|c' y].
    + apply (f_equal String.length) in H.
      rewrite !string_length_app in H. simpl in H. lia.
    + rewrite !app_String in H. injection H as _ H. now apply IH in H.
Qed.

(** The definition file of a theme is hidden when the name of the theme
    is empty or begins with a dot: the encoding keeps a dot. *)
Lemma isHidden_theme_file (theme : string) :
  isHidden (toPercentEncoding theme " " +:+ ".theme")
  = isEmpty theme || isHidden theme.
Proof.
  destruct theme as [|c theme]; [reflexivity|].
  cbn [toPercentEncoding isEmpty orb isHidden].
  destruct (unreserved c || has_char c " ") eqn:Ec.
  - now rewrite app_String.
  - rewrite app_String. cbn [isHidden].
    destruct (Ascii.eqb_spec c ".") as [->|]; [discriminate Ec|reflexivity].
Qed.

(** The themes the maintenance pass walks: those whose definition file
    exists and is not hidden. *)
Lemma theme_list_filePath (root : string) (st : store) (theme : string) :
  (toPercentEncoding theme " " +:+ ".theme") ∈ theme_list root st <->
  (is_Some (themes st !! filePath root theme) /\
   isEmpty theme = false /\ isHidden theme = false).
Proof.
  destruct (filePath_theme_file root theme) as (Hp & He & Ht).
  unfold theme_list. rewrite list_elem_of_filter, elem_of_entryList.
  rewrite isHidden_theme_file, orb_false_iff.
  change (filePathIn root (toPercentEncoding theme " " +:+ ".theme"))
    with (theme_file root (toPercentEncoding theme " " +:+ ".theme")).
  rewrite <- Hp. tauto.
Qed.

(** X8. Two themes with different names have different definition files
    and different icon files, and no definition file is an icon file; the
    definition file of a theme lies directly in the store root under a
    name that the filter *.theme accepts, whatever characters the theme
    name holds (a slash is encoded). The maintenance pass walks the theme
    exactly when its definition file exists and its name is not empty and
    does not begin with a dot: the listing leaves out a hidden file, and
    the encoding keeps a leading dot. *)
Theorem filePath_injective (root a b : string) :
  (filePath root a = filePath root b -> a = b) /\
  (iconPath root a = iconPath root b -> a = b) /\
  filePath root a <> iconPath root b /\
  exists f, filePath root a = filePathIn root f /\ entry_name f = true /\
            is_theme_file f = true /\
            isHidden f = isEmpty a || isHidden a /\
            forall st, f ∈ theme_list root st <->
                       (is_Some (themes st !! filePath root a) /\
                        isEmpty a = false /\ isHidden a = false).
Proof.
  split; [apply filePath_inj|]. split; [|split].
  - unfold iconPath. intros H. do 2 apply String.app_inj in H.
    apply string_app_inv_tail in H.
    now apply toPercentEncoding_inj in H.
  - unfold filePath, iconPath. intros H. do 2 apply String.app_inj in H.
    now apply theme_not_png in H.
  - exists (toPercentEncoding a " " +:+ ".theme").
    destruct (filePath_theme_file root a) as (H1 & H2 & H3).
    split; [exact H1|]. split; [exact H2|]. split; [exact H3|].
    split; [apply isHidden_theme_file|]. intros st. apply theme_list_filePath.
Qed.

(** ** The name of a new theme *)

Lemma untitled_inj (a b : Z) : untitled a = untitled b -> a = b.
Proof.
  unfold untitled. intros H. apply String.app_inj in H. now apply number_inj.
Qed.

(** The loop returns the first name of its run that is not the name of a
    file, when there is one among those its fuel reaches. *)
Lemma untitled_loop_spec (root : string) (st : store) (fuel j : nat) :
  exists k,
    S j <= k <= S j + fuel /\
    untitled_loop fuel root st (Z.of_nat j) = untitled (Z.of_nat k) /\
    (forall i, S j <= i < k ->
               Store_exists st (filePath root (untitled (Z.of_nat i))) = true) /\
    (Store_exists st (filePath root (untitled (Z.of_nat k))) = true ->
     k = S j + fuel).
Proof.
  revert j. induction fuel as [|fuel IH]; intros j; simpl;
    replace (Z.of_nat j + 1)%Z with (Z.of_nat (S j)) by lia.
  - exists (S j). repeat split; try lia.
    now destruct (Store_exists _ _).
  - destruct (Store_exists st (filePath root (untitled (Z.of_nat (S j))))) eqn:E.
    + destruct (IH (S j)) as (k & Hk & Hr & Hbelow & Hlast).
      exists k. repeat split; try lia.
      * exact Hr.
      * intros i Hi. destruct (decide (i = S j)) as [->|]; [exact E|].
        apply Hbelow. lia.
      * intros Hx. apply Hlast in Hx. lia.
    + exists (S j). repeat split; try lia. congruence.
Qed.

(** A store holds at least as many files as a run of names of new themes
    that are all names of its files. *)
Lemma untitled_pigeonhole (root : string) (st : store) (n : nat) :
  (forall i, 1 <= i <= n ->
             Store_exists st (filePath root (untitled (Z.of_nat i))) = true) ->
  n <= size (themes st) + size (files st).
Proof.
  intros Hall.
  set (keys := (fun i => filePath root (untitled (Z.of_nat i))) <$> seq 1 n).
  assert (Hnd : NoDup keys).
  { apply NoDup_fmap_2_strong; [|apply NoDup_seq].
    intros i j _ _ H. apply filePath_inj, untitled_inj in H. lia. }
  assert (Hsub : (list_to_set keys : gset string) ⊆ dom (themes st) ∪ dom (files st)).
  { intros k Hk. apply elem_of_list_to_set, list_elem_of_fmap in Hk as (i & -> & Hi).
    apply elem_of_seq in Hi.
    specialize (Hall i ltac:(lia)). unfold Store_exists in Hall.
    apply orb_true_iff in Hall as [H|H].
    - apply elem_of_union_l, elem_of_dom. now apply bool_decide_eq_true in H.
    - apply elem_of_union_r, elem_of_dom. now apply QFile_exists_true. }
  apply subseteq_size in Hsub.
  rewrite size_list_to_set in Hsub by exact Hnd.
  rewrite size_union_alt in Hsub.
  assert (Hle : size (dom (files st) ∖ dom (themes st)) <= size (dom (files st))).
  { apply subseteq_size. intros x Hx. now apply elem_of_difference in Hx as [Hx _]. }
  rewrite !size_dom in *.
  unfold keys in Hsub. rewrite length_fmap, length_seq in Hsub. lia.
Qed.

(** X9. A theme made with a name keeps it. A theme created without a name
    is called Untitled k, with k >= 1 the least number whose definition
    file does not exist: the file of the name chosen does not exist, and
    the file of every smaller number does. The loop of the constructor
    ends through its own condition. *)
Theorem ThemeData_name_fresh (root : string) (st : store) (name_ : string)
    (create : bool) :
  (isEmpty name_ && create = false ->
   ThemeData_name root st name_ create = name_) /\
  (isEmpty name_ && create = true ->
   exists k : Z,
     (1 <= k)%Z /\
     ThemeData_name root st name_ create = untitled k /\
     Store_exists st (filePath root (untitled k)) = false /\
     (forall i : Z, (1 <= i < k)%Z ->
                    Store_exists st (filePath root (untitled i)) = true)).
Proof.
  unfold ThemeData_name. split; intros ->; [reflexivity|].
  destruct (untitled_loop_spec root st (size (themes st) + size (files st)) 0)
    as (k & Hk & Hr & Hbelow & Hlast).
  exists (Z.of_nat k). split; [lia|]. split; [exact Hr|]. split.
  - destruct (Store_exists st (filePath root (untitled (Z.of_nat k)))) eqn:E;
      [|reflexivity].
    specialize (Hlast eq_refl).
    assert (k <= size (themes st) + size (files st)); [|lia].
    apply (untitled_pigeonhole root). intros i Hi.
    destruct (decide (i = k)) as [->|]; [exact E|apply Hbelow; lia].
  - intros i Hi. rewrite <- (Z2Nat.id i) by lia. apply Hbelow. lia.
Qed.

(** ** Writing a theme *)

Lemma set_entries_lookup (l : list (string * string)) (s : settings) (key : string) :
  set_entries s l !! key
  = match last_binding key l with
    | Some v => Some v
    | None => s !! key
    end.
Proof.
  unfold set_entries. revert s.
  induction l as [|[k v] l IH]; intros s; cbn [foldl last_binding fst snd];
    [reflexivity|].
  rewrite IH. destruct (last_binding key l); [reflexivity|].
  destruct (String.eqb_spec k key) as [->|Hne].
  - now rewrite lookup_insert_eq.
  - now rewrite lookup_insert_ne.
Qed.

Lemma last_binding_None (key : string) (l : list (string * string)) :
  last_binding key l = None <-> key ∉ l.*1.
Proof.
  induction l as [|[k v] l IH]; cbn [last_binding fmap list_fmap fst].
  - split; [intros _ H; inversion H|reflexivity].
  - rewrite not_elem_of_cons, <- IH.
    destruct (last_binding key l); [split; [discriminate|intros [_ H]; discriminate]|].
    destruct (String.eqb_spec k key) as [->|Hne].
    + split; [discriminate|intros [H _]; now contradiction H].
    + split; [intros _; split; [congruence|reflexivity]|reflexivity].
Qed.

(** A list of [setValue] calls on one file, as one update of the store. *)
Lemma setValue_fold (file : string) (l : list (string * string)) (st : store) :
  l <> [] ->
  foldl (fun st kv => setValue st file (fst kv) (snd kv)) st l
  = Store (files st)
          (<[file := set_entries (QSettings_open st file) l]> (themes st))
          (current_session st) (sessions st).
Proof.
  revert st. induction l as [|[k v] l IH]; intros st Hne; [now contradiction Hne|].
  cbn [foldl fst snd]. destruct l as [|kv l].
  - reflexivity.
  - rewrite IH by discriminate.
    rewrite QSettings_open_setValue. unfold setValue. cbn [files themes current_session sessions].
    now rewrite insert_insert_eq.
Qed.

Lemma write_entries_not_nil (d : ThemeData) : write_entries d <> [].
Proof. unfold write_entries. discriminate. Qed.

Lemma write_unfold (root : string) (st : store) (d : ThemeData) :
  name d <> EmptyString ->
  write root st d
  = Store (files st)
          (<[filePath root (name d)
             := set_entries (QSettings_open st (filePath root (name d)))
                  (write_entries d)]> (themes st))
          (current_session st) (sessions st).
Proof.
  intros Hn. unfold write. apply isEmpty_false in Hn as ->.
  apply setValue_fold, write_entries_not_nil.
Qed.

Lemma write_empty_name (root : string) (st : store) (d : ThemeData) :
  name d = EmptyString -> write root st d = st.
Proof. intros Hn. unfold write. now rewrite Hn. Qed.

Lemma write_open (root : string) (st : store) (d : ThemeData) :
  name d <> EmptyString ->
  QSettings_open (write root st d) (filePath root (name d))
  = set_entries (QSettings_open st (filePath root (name d))) (write_entries d).
Proof.
  intros Hn. rewrite write_unfold by exact Hn.
  unfold QSettings_open at 1. cbn [themes]. now rewrite lookup_insert_eq.
Qed.

Lemma write_open_ne (root : string) (st : store) (d : ThemeData) (p : string) :
  p <> filePath root (name d) ->
  themes (write root st d) !! p = themes st !! p.
Proof.
  intros Hp. destruct (decide (name d = EmptyString)) as [Hn|Hn].
  - now rewrite write_empty_name.
  - rewrite write_unfold by exact Hn. cbn [themes]. now rewrite lookup_insert_ne.
Qed.

Lemma last_binding_image_file (d : ThemeData) :
  last_binding "Background/ImageFile" (write_entries d) = Some (background_image d).
Proof. unfold write_entries. now destruct (isEmpty (background_path d)). Qed.

Lemma last_binding_image (d : ThemeData) :
  last_binding "Background/Image" (write_entries d)
  = if isEmpty (background_path d) then None else Some (background_path d).
Proof. unfold write_entries. now destruct (isEmpty (background_path d)). Qed.

(** X10. Writing a theme touches its own definition file and nothing else:
    the byte files, the sessions and every other definition file stay as
    they were, and so does every key of the file that the function does
    not set. Among these is the source path when the theme has none: an
    entry Background/Image that the file held survives the write, while
    the cached image name is always written. A theme with a name has a
    definition file afterwards. *)
Theorem write_frame (root : string) (st : store) (d : ThemeData) :
  let file := filePath root (name d) in
  let st' := write root st d in
  files st' = files st /\
  sessions st' = sessions st /\
  current_session st' = current_session st /\
  (forall p, p <> file -> themes st' !! p = themes st !! p) /\
  (forall key, key ∉ (write_entries d).*1 ->
               QSettings_open st' file !! key = QSettings_open st file !! key) /\
  (background_path d = EmptyString ->
   QSettings_open st' file !! "Background/Image"
   = QSettings_open st file !! "Background/Image") /\
  (name d <> EmptyString ->
   is_Some (themes st' !! file) /\
   QSettings_open st' file !! "Background/ImageFile" = Some (background_image d) /\
   (background_path d <> EmptyString ->
    QSettings_open st' file !! "Background/Image" = Some (background_path d))).
Proof.
  intros file st'. subst file st'.
  destruct (decide (name d = EmptyString)) as [Hn|Hn].
  - rewrite write_empty_name by exact Hn.
    split; [reflexivity|]. split; [reflexivity|]. split; [reflexivity|].
    split; [reflexivity|]. split; [reflexivity|]. split; [reflexivity|].
    intros H. now contradiction H.
  - split; [now rewrite write_unfold|]. split; [now rewrite write_unfold|].
    split; [now rewrite write_unfold|].
    split; [intros p Hp; now apply write_open_ne|].
    rewrite write_open by exact Hn.
    split; [|split; [|intros _; split; [|split]]].
    + intros key Hk. rewrite set_entries_lookup.
      apply last_binding_None in Hk. now rewrite Hk.
    + intros Hp. rewrite set_entries_lookup, last_binding_image, Hp. reflexivity.
    + rewrite write_unfold by exact Hn. cbn [themes].
      rewrite lookup_insert_eq. eauto.
    + now rewrite set_entries_lookup, last_binding_image_file.
    + intros Hp. rewrite set_entries_lookup, last_binding_image.
      apply isEmpty_false in Hp. now rewrite Hp.
Qed.

Lemma set_entries_twice (s : settings) (l : list (string * string)) :
  set_entries (set_entries s l) l = set_entries s l.
Proof.
  apply map_eq. intros key. rewrite !set_entries_lookup.
  now destruct (last_binding key l).
Qed.

(** X11. Writing a theme twice is writing it once, and two themes with
    different names can be written in either order: the name of the
    definition file is an injective encoding of the name of the theme, so
    the second write never reaches the file of the first. *)
Theorem write_idempotent (root : string) (st : store) (d d' : ThemeData) :
  write root (write root st d) d = write root st d /\
  (name d <> name d' ->
   write root (write root st d) d' = write root (write root st d') d).
Proof.
  split.
  - destruct (decide (name d = EmptyString)) as [Hn|Hn].
    + now rewrite !write_empty_name.
    + rewrite (write_unfold root (write root st d)) by exact Hn.
      rewrite write_open by exact Hn.
      rewrite write_unfold by exact Hn. cbn [files themes current_session sessions].
      now rewrite set_entries_twice, insert_insert_eq.
  - intros Hne.
    destruct (decide (name d = EmptyString)) as [Hn|Hn];
      [now rewrite !(write_empty_name root _ d)|].
    destruct (decide (name d' = EmptyString)) as [Hn'|Hn'];
      [now rewrite !(write_empty_name root _ d')|].
    assert (Hf : filePath root (name d) <> filePath root (name d'))
      by (intros H; now apply filePath_inj in H).
    rewrite (write_unfold root (write root st d)) by exact Hn'.
    rewrite (write_unfold root (write root st d')) by exact Hn.
    unfold QSettings_open.
    rewrite !write_open_ne by congruence.
    rewrite !write_unfold by assumption. cbn [files themes current_session sessions].
    unfold QSettings_open. f_equal. now apply insert_insert_ne.
Qed.

(** ** Loading a theme *)

Lemma assign_ranged (lo hi : Z) (r : RangedInt) (v : Z) :
  ranged lo hi r -> ranged lo hi (assign r v).
Proof.
  intros (Hlo & Hhi & Hv). unfold ranged, assign. cbn [rmin rmax rvalue].
  repeat split; lia.
Qed.

Lemma assign_eqb (lo hi : Z) (r1 r2 : RangedInt) (v : Z) :
  ranged lo hi r1 -> ranged lo hi r2 ->
  RangedInt_eqb (assign r1 v) (assign r2 v) = true.
Proof.
  intros (Hlo1 & Hhi1 & _) (Hlo2 & Hhi2 & _).
  unfold RangedInt_eqb, assign. cbn [rvalue]. apply Z.eqb_eq. congruence.
Qed.

(** The store and the cached image name [reload] works out. *)
Lemma reload_store (root : string) (st : store) (d : ThemeData) :
  name d <> EmptyString ->
  let s := QSettings_open st (filePath root (name d)) in
  let path := value s "Background/Image" EmptyString in
  let image := value s "Background/ImageFile" EmptyString in
  let r := reload root st d in
  background_path (snd r) = path /\
  (negb (isEmpty path) && isEmpty image = true ->
   fst r = with_files st (snd (copyImage root (files st) path)) /\
   background_image (snd r) = fst (copyImage root (files st) path) /\
   is_changed (snd r) = true) /\
  (negb (isEmpty path) && isEmpty image = false ->
   fst r = st /\ background_image (snd r) = image /\
   is_changed (snd r) = is_changed d).
Proof.
  intros Hn s path image. unfold reload. apply isEmpty_false in Hn as ->.
  fold s. fold path. fold image.
  destruct (negb (isEmpty path) && isEmpty image) eqn:E.
  - destruct (copyImage root (files st) path) as [copied fs'] eqn:Ec.
    cbn [fst snd background_path background_image is_changed].
    split; [reflexivity|]. split; [|discriminate]. intros _.
    split; [reflexivity|]. split; [reflexivity|].
    apply andb_true_iff in E as [_ E]. apply isEmpty_true in E. rewrite E.
    unfold mark_changed.
    destruct (String.eqb_spec EmptyString copied) as [<-|]; [|reflexivity].
    pose proof (copyImage_name_not_empty root (files st) path) as Hne.
    rewrite Ec in Hne. now contradiction Hne.
  - cbn [fst snd background_path background_image is_changed].
    split; [reflexivity|]. split; [discriminate|]. intros _. auto.
Qed.

(** X12. Loading a theme never writes a definition file or a session: the
    only thing it can change in the store is the Images directory, where
    it may add a file, and it removes and rewrites none. The theme keeps
    its name, a changed flag that was set stays set, and whatever the
    definition file holds, the numeric fields of the loaded theme lie
    within the ranges the constructor declares. *)
Theorem reload_frame (root : string) (st : store) (d : ThemeData) :
  let r := reload root st d in
  themes (fst r) = themes st /\
  sessions (fst r) = sessions st /\
  current_session (fst r) = current_session st /\
  grows (files st) (files (fst r)) /\
  (forall k, is_Some (files (fst r) !! k) ->
             is_Some (files st !! k) \/
             exists f, entry_name f = true /\ k = filePathIn (imagesDir root) f) /\
  name (snd r) = name d /\
  (is_changed d = true -> is_changed (snd r) = true) /\
  (within_bounds d -> within_bounds (snd r)).
Proof.
  intros r. subst r.
  destruct (decide (name d = EmptyString)) as [Hn|Hn].
  { unfold reload. rewrite Hn. cbn [isEmpty fst snd].
    split; [reflexivity|]. split; [reflexivity|]. split; [reflexivity|].
    split; [now intros k v|]. split; [now left|]. now rewrite Hn. }
  destruct (reload_store root st d Hn) as (_ & Hyes & Hno). cbn zeta in Hyes, Hno.
  set (s := QSettings_open st (filePath root (name d))) in *.
  set (path := value s "Background/Image" EmptyString) in *.
  set (image := value s "Background/ImageFile" EmptyString) in *.
  assert (Hstore :
    themes (fst (reload root st d)) = themes st /\
    sessions (fst (reload root st d)) = sessions st /\
    current_session (fst (reload root st d)) = current_session st /\
    grows (files st) (files (fst (reload root st d))) /\
    (forall k, is_Some (files (fst (reload root st d)) !! k) ->
               is_Some (files st !! k) \/
               exists f, entry_name f = true /\ k = filePathIn (imagesDir root) f) /\
    (is_changed d = true -> is_changed (snd (reload root st d)) = true)).
  { destruct (negb (isEmpty path) && isEmpty image).
    - destruct (Hyes eq_refl) as (-> & _ & Hc). cbn [with_files themes sessions current_session files].
      split; [reflexivity|]. split; [reflexivity|]. split; [reflexivity|].
      split; [apply copyImage_grows|]. split; [apply copyImage_adds_in_Images|].
      now intros _.
    - destruct (Hno eq_refl) as (-> & _ & Hc).
      split; [reflexivity|]. split; [reflexivity|]. split; [reflexivity|].
      split; [now intros k v|]. split; [now left|]. now rewrite Hc. }
  destruct Hstore as (H1 & H2 & H3 & H4 & H5 & H6).
  split; [exact H1|]. split; [exact H2|]. split; [exact H3|]. split; [exact H4|].
  split; [exact H5|].
  assert (Hfields :
    name (snd (reload root st d)) = name d /\
    (within_bounds d -> within_bounds (snd (reload root st d)))).
  { unfold reload. apply isEmpty_false in Hn. rewrite Hn.
    destruct (negb (isEmpty _) && isEmpty _);
      [destruct (copyImage root (files st) _) as [copied fs']|];
      cbn [snd name]; (split; [reflexivity|]);
      intros (B1 & B2 & B3 & B4 & B5 & B6 & B7 & B8 & B9 & B10 & B11 & B12 & B13 & B14);
      unfold within_bounds;
      cbn [background_type foreground_opacity foreground_width foreground_rounding
           foreground_margin foreground_padding foreground_position blur_radius
           shadow_offset shadow_radius line_spacing paragraph_spacing_above
           paragraph_spacing_below tab_width];
      repeat (split; [now apply assign_ranged|]); now apply assign_ranged. }
  destruct Hfields as [Hname Hb].
  split; [exact Hname|]. split; [exact H6|exact Hb].
Qed.

(** X13. A definition file that names a source image and no cached image:
    when the source can be read, loading the theme interns it. The loaded
    theme has the source path of the file and, for cached image, the name
    of a file of the Images directory that holds the bytes of the source;
    the theme is marked as changed, and the name is not written back to
    the definition file. *)
Theorem reload_interns (root : string) (st : store) (d : ThemeData)
    (path : string) (bytes : list byte) :
  name d <> EmptyString ->
  QSettings_open st (filePath root (name d)) !! "Background/Image" = Some path ->
  path <> EmptyString ->
  value (QSettings_open st (filePath root (name d))) "Background/ImageFile" EmptyString
  = EmptyString ->
  QFile_open (files st) path = Some bytes ->
  let r := reload root st d in
  background_path (snd r) = path /\
  QFile_open (files (fst r))
    (filePathIn (imagesDir root) (background_image (snd r))) = Some bytes /\
  is_changed (snd r) = true /\
  value (QSettings_open (fst r) (filePath root (name d))) "Background/ImageFile"
    EmptyString = EmptyString.
Proof.
  intros Hn Hp Hpe Hi Ho r. subst r.
  destruct (reload_store root st d Hn) as (Hpath & Hyes & _). cbn zeta in Hpath, Hyes.
  assert (Ev : value (QSettings_open st (filePath root (name d))) "Background/Image"
                 EmptyString = path) by (unfold value; now rewrite Hp).
  rewrite Ev in Hpath, Hyes. rewrite Hi in Hyes.
  apply isEmpty_false in Hpe. rewrite Hpe in Hyes.
  destruct (Hyes eq_refl) as (Hst & Him & Hc).
  split; [exact Hpath|]. rewrite Hst, Him. cbn [with_files files].
  split; [now apply copyImage_content|]. split; [exact Hc|].
  unfold QSettings_open at 1. cbn [themes]. exact Hi.
Qed.

Lemma reload_interns_witness :
  let r := reload "/themes" unloaded_store (sample_theme "Paper" 1 100) in
  background_path (snd r) = "/home/pic.PNG" /\
  QFile_open (files (fst r))
    (filePathIn (imagesDir "/themes") (background_image (snd r)))
  = Some [x50; x4e; x47] /\
  is_changed (snd r) = true /\
  value (QSettings_open (fst r) (filePath "/themes" "Paper")) "Background/ImageFile"
    EmptyString = EmptyString.
Proof.
  apply (reload_interns "/themes" unloaded_store (sample_theme "Paper" 1 100)
           "/home/pic.PNG" [x50; x4e; x47]).
  - discriminate.
  - vm_compute. reflexivity.
  - discriminate.
  - vm_compute. reflexivity.
  - vm_compute. reflexivity.
Defined.

(** X14. Loading overwrites every field that the comparison of two themes
    reads but the font, which [QFont::fromString] updates from the font
    the set had: two parameter sets of the same name (not empty) with the
    declared ranges and the same font, whatever their other values before,
    are equal once loaded from the same store, and the store they leave is
    the same. *)
Theorem reload_overwrites (root : string) (st : store) (d1 d2 : ThemeData) :
  within_bounds d1 -> within_bounds d2 ->
  name d1 <> EmptyString -> name d1 = name d2 ->
  text_font d1 = text_font d2 ->
  fst (reload root st d1) = fst (reload root st d2) /\
  Theme_eqb (snd (reload root st d1)) (snd (reload root st d2)) = true.
Proof.
  intros (B1 & B2 & B3 & B4 & B5 & B6 & B7 & B8 & B9 & B10 & B11 & B12 & B13 & B14)
         (D1 & D2 & D3 & D4 & D5 & D6 & D7 & D8 & D9 & D10 & D11 & D12 & D13 & D14)
         Hn Hname Hfont.
  unfold reload. rewrite <- Hname, <- Hfont. apply isEmpty_false in Hn. rewrite Hn.
  destruct (negb (isEmpty _) && isEmpty _);
    [destruct (copyImage root (files st) _) as [copied fs']|];
    cbn [fst snd]; (split; [reflexivity|]);
    unfold Theme_eqb;
    cbn [name background_type background_color background_path background_image
         foreground_color foreground_opacity foreground_width foreground_rounding
         foreground_margin foreground_padding foreground_position blur_enabled
         blur_radius shadow_enabled shadow_offset shadow_radius shadow_color
         text_color text_font misspelled_color indent_first_line line_spacing
         paragraph_spacing_above paragraph_spacing_below tab_width];
    rewrite (assign_eqb _ _ _ _ _ B1 D1), (assign_eqb _ _ _ _ _ B2 D2),
      (assign_eqb _ _ _ _ _ B3 D3), (assign_eqb _ _ _ _ _ B4 D4),
      (assign_eqb _ _ _ _ _ B5 D5), (assign_eqb _ _ _ _ _ B6 D6),
      (assign_eqb _ _ _ _ _ B7 D7), (assign_eqb _ _ _ _ _ B8 D8),
      (assign_eqb _ _ _ _ _ B9 D9), (assign_eqb _ _ _ _ _ B10 D10),
      (assign_eqb _ _ _ _ _ B11 D11), (assign_eqb _ _ _ _ _ B12 D12),
      (assign_eqb _ _ _ _ _ B13 D13), (assign_eqb _ _ _ _ _ B14 D14);
    now rewrite !String.eqb_refl, !QColor_eqb_refl, !Bool.eqb_reflx, QFont_eqb_refl.
Qed.

Lemma reload_overwrites_witness :
  fst (reload "/themes" unloaded_store (sample_theme "Paper" 1 100))
  = fst (reload "/themes" unloaded_store (sample_theme "Paper" 3 40)) /\
  Theme_eqb (snd (reload "/themes" unloaded_store (sample_theme "Paper" 1 100)))
            (snd (reload "/themes" unloaded_store (sample_theme "Paper" 3 40)))
  = true.
Proof.
  apply reload_overwrites.
  - vm_compute. intuition congruence.
  - vm_compute. intuition congruence.
  - discriminate.
  - reflexivity.
  - reflexivity.
Defined.

(** ** Setting the background image *)

(** X15. [setBackgroundImage] records the path it is given and touches no
    definition file and no session; byte files are only added. A path
    that differs from the one recorded and can be read is interned: the
    cached image names a file of the Images directory with the bytes of
    the source, and the theme is marked as changed. The empty path clears
    the cached image name and leaves the store alone, the image file
    included; the path already recorded changes nothing. *)
Theorem setBackgroundImage_caches (root : string) (st : store) (d : ThemeData)
    (path : string) :
  let r := setBackgroundImage root st d path in
  background_path (snd r) = path /\
  name (snd r) = name d /\
  themes (fst r) = themes st /\
  sessions (fst r) = sessions st /\
  current_session (fst r) = current_session st /\
  grows (files st) (files (fst r)) /\
  (background_path d = path -> r = (st, d)) /\
  (background_path d <> path -> path = EmptyString ->
   fst r = st /\ background_image (snd r) = EmptyString /\ is_changed (snd r) = true) /\
  (forall bytes,
     background_path d <> path -> path <> EmptyString ->
     QFile_open (files st) path = Some bytes ->
     QFile_open (files (fst r))
       (filePathIn (imagesDir root) (background_image (snd r))) = Some bytes /\
     is_changed (snd r) = true).
Proof.
  intros r. subst r. unfold setBackgroundImage.
  destruct (String.eqb_spec (background_path d) path) as [He|Hne]; cbn [negb].
  - cbn [fst snd].
    split; [exact He|]. split; [reflexivity|]. split; [reflexivity|].
    split; [reflexivity|]. split; [reflexivity|]. split; [now intros k v|].
    split; [reflexivity|]. split; [now intros H|]. intros bytes H. now contradiction H.
  - destruct (isEmpty path) eqn:Ep; cbn [negb].
    + cbn [fst snd set_background background_path background_image name is_changed].
      split; [reflexivity|]. split; [reflexivity|]. split; [reflexivity|].
      split; [reflexivity|]. split; [reflexivity|]. split; [now intros k v|].
      split; [intros H; now contradiction Hne|]. split; [auto|].
      intros bytes _ H. apply isEmpty_false in H. congruence.
    + pose proof (copyImage_grows root (files st) path) as Hg.
      pose proof (copyImage_content root (files st) path) as Hc. cbn zeta in Hc.
      destruct (copyImage root (files st) path) as [image fs'].
      cbn [fst snd set_background background_path background_image name is_changed
           with_files themes sessions current_session files] in *.
      split; [reflexivity|]. split; [reflexivity|]. split; [reflexivity|].
      split; [reflexivity|]. split; [reflexivity|]. split; [exact Hg|].
      split; [intros H; now contradiction Hne|].
      split; [intros _ H; apply isEmpty_true in H; congruence|].
      intros bytes _ _ Ho. split; [|reflexivity]. now apply Hc.
Qed.

(** ** Renaming a theme, and the files of the store *)

(** X16. Renaming a theme to another name deletes its definition file and
    its icon (neither is in the store afterwards) and writes nothing in
    their place: every other byte file and every other definition file is
    as before, the file of the new name included (none is made, and one
    that was there is kept as it was), and a session that did not use the
    old name keeps its theme. The parameter set has the new name and is
    marked as changed; a rename to the present name does nothing at all. *)
Theorem setName_frame (root spath : string) (st : store) (d : ThemeData)
    (n : string) :
  let r := setName root spath st d n in
  (forall p, p <> iconPath root (name d) -> files (fst r) !! p = files st !! p) /\
  (forall p, p <> filePath root (name d) -> themes (fst r) !! p = themes st !! p) /\
  (forall file, Session_theme spath st file <> name d ->
                Session_theme spath (fst r) file = Session_theme spath st file) /\
  (name d <> n ->
   themes (fst r) !! filePath root (name d) = None /\
   files (fst r) !! iconPath root (name d) = None /\
   themes (fst r) !! filePath root n = themes st !! filePath root n /\
   is_changed (snd r) = true) /\
  (name d = n -> r = (st, d)) /\
  name (snd r) = n /\
  background_path (snd r) = background_path d /\
  background_image (snd r) = background_image d.
Proof.
  intros r. subst r. unfold setName.
  destruct (String.eqb_spec (name d) n) as [He|Hne]; cbn [negb fst snd].
  - split; [reflexivity|]. split; [reflexivity|]. split; [reflexivity|].
    split; [intros H; now contradiction H|]. split; [reflexivity|].
    split; [exact He|]. split; reflexivity.
  - set (st1 := foldl (rename_step spath (name d) n) st (session_files spath st)).
    destruct (rename_fold_frame spath (name d) n (session_files spath st) st
                (session_files_keys spath st)) as (F & T & S).
    fold st1 in F, T, S.
    cbn [with_files files themes sessions current_session].
    split; [|split; [|split; [|split; [|split; [|split; [|split]]]]]].
    + intros p Hp. unfold QFile_remove. rewrite lookup_delete_ne by congruence.
      now rewrite F.
    + intros p Hp. rewrite lookup_delete_ne by congruence. now rewrite T.
    + intros file Hf.
      assert (E : Session_theme spath st1 file = Session_theme spath st file).
      { unfold st1. rewrite rename_fold_theme by exact Hne.
        rewrite decide_False; [reflexivity|]. intros [_ H]. now apply Hf. }
      unfold Session_theme in *. cbn [current_session sessions]. exact E.
    + intros _. split; [apply lookup_delete_eq|].
      split; [unfold QFile_remove; apply lookup_delete_eq|]. split.
      * rewrite lookup_delete_ne by (intros H; now apply filePath_inj in H).
        now rewrite T.
      * cbn [set_name is_changed]. unfold mark_changed.
        destruct (String.eqb_spec (name d) n); [contradiction|reflexivity].
    + intros H. now contradiction Hne.
    + reflexivity.
    + reflexivity.
    + reflexivity.
Qed.

(** X17. A theme renamed and then written is stored under its new name
    and no longer under the old one: the definition file of the old name
    is gone, the one of the new name is there and holds the cached image
    name of the theme, and the byte files are as the rename left them. *)
Theorem setName_then_write (root spath : string) (st : store) (d : ThemeData)
    (n : string) :
  name d <> n -> n <> EmptyString ->
  let r := setName root spath st d n in
  let st' := write root (fst r) (snd r) in
  themes st' !! filePath root (name d) = None /\
  is_Some (themes st' !! filePath root n) /\
  QSettings_open st' (filePath root n) !! "Background/ImageFile"
  = Some (background_image d) /\
  files st' = files (fst r) /\
  files st' !! iconPath root (name d) = None.
Proof.
  intros Hne Hn r st'. subst st' r.
  assert (Hname : name (snd (setName root spath st d n)) = n).
  { unfold setName. destruct (String.eqb_spec (name d) n); [contradiction|reflexivity]. }
  assert (Himage : background_image (snd (setName root spath st d n))
                   = background_image d).
  { unfold setName. destruct (String.eqb_spec (name d) n); reflexivity. }
  assert (Hold : themes (fst (setName root spath st d n)) !! filePath root (name d)
                 = None /\
                 files (fst (setName root spath st d n)) !! iconPath root (name d)
                 = None).
  { unfold setName. destruct (String.eqb_spec (name d) n); [contradiction|].
    cbn [negb fst with_files themes files]. unfold QFile_remove.
    now rewrite !lookup_delete_eq. }
  destruct Hold as [Hold Hicon].
  remember (setName root spath st d n) as r eqn:Er. clear Er. subst n.
  assert (Hf : files (write root (fst r) (snd r)) = files (fst r)).
  { rewrite write_unfold by exact Hn. reflexivity. }
  split; [|split; [|split; [|split]]].
  - rewrite write_open_ne; [exact Hold|].
    intros H. now apply filePath_inj in H.
  - rewrite write_unfold by exact Hn. cbn [themes].
    rewrite lookup_insert_eq. eauto.
  - rewrite write_open by exact Hn.
    now rewrite set_entries_lookup, last_binding_image_file, Himage.
  - exact Hf.
  - rewrite Hf. exact Hicon.
Qed.

Lemma setName_then_write_witness :
  let r := setName "/themes" "/sessions" rename_store (sample_theme "Old" 1 100) "New" in
  let st' := write "/themes" (fst r) (snd r) in
  themes st' !! filePath "/themes" "Old" = None /\
  is_Some (themes st' !! filePath "/themes" "New") /\
  QSettings_open st' (filePath "/themes" "New") !! "Background/ImageFile"
  = Some EmptyString /\
  files st' = files (fst r) /\
  files st' !! iconPath "/themes" "Old" = None.
Proof.
  apply (setName_then_write "/themes" "/sessions" rename_store
           (sample_theme "Old" 1 100) "New"); discriminate.
Defined.

(** ** The panel within the window *)

(** X18. In a window at least two margins wide and high, the foreground
    panel lies within the window with the margin free on every side, for
    every position: its left edge is at the margin or beyond, its right
    edge at the width less the margin or before, its top at the margin and
    its bottom at the height less the margin; its width is not negative
    and, unless stretched, at most the configured width. A centred panel
    has its two side gaps equal or the right one larger by one pixel. *)
Theorem foregroundRect_inside (d : ThemeData) (size : QSize) :
  ranged 1 250 (foreground_margin d) ->
  ranged 500 9999 (foreground_width d) ->
  (2 * rvalue (foreground_margin d) <= width size <= int_max)%Z ->
  (2 * rvalue (foreground_margin d) <= height size <= int_max)%Z ->
  let margin := rvalue (foreground_margin d) in
  let r := foregroundRect d size in
  (margin <= rect_x r)%Z /\
  (rect_x r + rect_width r <= width size - margin)%Z /\
  (0 <= rect_width r)%Z /\
  rect_y r = margin /\
  (rect_y r + rect_height r = height size - margin)%Z /\
  (rvalue (foreground_position d) <> 3%Z ->
   (rect_width r <= rvalue (foreground_width d))%Z) /\
  (rvalue (foreground_position d) <> 0%Z ->
   rvalue (foreground_position d) <> 2%Z ->
   rvalue (foreground_position d) <> 3%Z ->
   let left := rect_x r in
   let right := (width size - (rect_x r + rect_width r))%Z in
   (left <= right <= left + 1)%Z).
Proof.
  intros (_ & _ & Hm) (_ & _ & Hw) Hsw Hsh margin r. subst r.
  unfold foregroundRect. fold margin. fold margin in Hsw, Hsh.
  unfold int_max in Hsw, Hsh.
  assert (E2 : int_mul margin 2 = (2 * margin)%Z).
  { unfold int_mul. rewrite int_wrap_id; unfold int_min, int_max; lia. }
  rewrite E2.
  assert (Ew : int_sub (width size) (2 * margin) = (width size - 2 * margin)%Z).
  { unfold int_sub. rewrite int_wrap_id; unfold int_min, int_max; lia. }
  assert (Eh : int_sub (height size) (2 * margin)
               = (height size - 2 * margin)%Z).
  { unfold int_sub. rewrite int_wrap_id; unfold int_min, int_max; lia. }
  rewrite Ew, Eh.
  set (ew := Z.min (rvalue (foreground_width d)) (width size - 2 * margin)).
  assert (Hew : (0 <= ew <= width size - 2 * margin)%Z
                /\ (ew <= rvalue (foreground_width d))%Z) by (unfold ew; lia).
  assert (Er : int_sub (int_sub (width size) margin) ew
               = (width size - margin - ew)%Z).
  { unfold int_sub. rewrite (int_wrap_id (width size - margin));
      [rewrite int_wrap_id|]; unfold int_min, int_max; lia. }
  assert (Ec : int_div (int_sub (width size) ew) 2 = ((width size - ew) / 2)%Z).
  { unfold int_sub, int_div.
    rewrite (int_wrap_id (width size - ew)) by (unfold int_min, int_max; lia).
    rewrite Z.quot_div_nonneg by lia.
    apply int_wrap_id. unfold int_min, int_max.
    split; [|apply Z.div_le_upper_bound]; try lia.
    transitivity 0%Z; [lia|apply Z.div_pos; lia]. }
  rewrite Er, Ec.
  pose proof (Z.div_mod (width size - ew) 2 ltac:(lia)) as Hdm.
  pose proof (Z.mod_pos_bound (width size - ew) 2 ltac:(lia)) as Hmod.
  destruct (rvalue (foreground_position d)) as [|[[?|?|]|[?|?|]|]|?];
    cbn [rect_x rect_y rect_width rect_height];
    (split; [lia|]); (split; [lia|]); (split; [lia|]); (split; [reflexivity|]);
    (split; [lia|]); (split; [intros ?; lia|]); intros ? ? ?; cbn zeta; lia.
Qed.

Lemma foregroundRect_inside_witness :
  let d := sample_theme "T" 1 100 in
  let r := foregroundRect d (Size 1001 600) in
  (50 <= rect_x r)%Z /\
  (rect_x r + rect_width r <= 1001 - 50)%Z /\
  (0 <= rect_width r)%Z /\
  rect_y r = 50%Z /\
  (rect_y r + rect_height r = 600 - 50)%Z /\
  (rvalue (foreground_position d) <> 3%Z ->
   (rect_width r <= rvalue (foreground_width d))%Z) /\
  (rvalue (foreground_position d) <> 0%Z ->
   rvalue (foreground_position d) <> 2%Z ->
   rvalue (foreground_position d) <> 3%Z ->
   let left := rect_x r in
   let right := (1001 - (rect_x r + rect_width r))%Z in
   (left <= right <= left + 1)%Z).
Proof.
  apply (foregroundRect_inside (sample_theme "T" 1 100) (Size 1001 600));
    vm_compute; intuition congruence.
Defined.

(** ** The comparison of two themes *)

Lemma QColor_eqb_eq (a b : QColor) : QColor_eqb a b = true <-> a = b.
Proof.
  split; [|intros ->; apply QColor_eqb_refl].
  unfold QColor_eqb. intros H.
  repeat (apply andb_prop in H as [H ?]).
  destruct a, b. cbn [valid red green blue alpha] in *.
  apply eqb_prop in H.
  repeat match goal with
         | E : (_ =? _)%Z = true |- _ => apply Z.eqb_eq in E
         end.
  congruence.
Qed.

(** [Theme::operator==] holds exactly when the values it compares agree. *)
Lemma Theme_eqb_compared (a b : ThemeData) :
  Theme_eqb a b = true <-> compared a = compared b.
Proof.
  split.
  - unfold Theme_eqb, RangedInt_eqb. intros H.
    repeat (apply andb_prop in H as [H ?]).
    repeat match goal with
           | E : (_ =? _)%Z = true |- _ => apply Z.eqb_eq in E
           | E : String.eqb _ _ = true |- _ => apply String.eqb_eq in E
           | E : QColor_eqb _ _ = true |- _ => apply QColor_eqb_eq in E
           | E : QFont_eqb _ _ = true |- _ => apply QFont_eqb_eq in E
           | E : Bool.eqb _ _ = true |- _ => apply eqb_prop in E
           end.
    unfold compared. repeat (apply f_equal2; [|assumption]). assumption.
  - unfold compared. intros H. injection H; intros.
    unfold Theme_eqb, RangedInt_eqb.
    repeat match goal with
           | E : _ = _ |- _ => rewrite E; clear E
           end.
    now rewrite !String.eqb_refl, !Z.eqb_refl, !QColor_eqb_refl, !Bool.eqb_reflx,
      QFont_eqb_refl.
Qed.

Lemma compared_write_entries (a b : ThemeData) :
  compared a = compared b -> name a = name b /\ write_entries a = write_entries b.
Proof.
  unfold compared. intros H. injection H; intros.
  split; [assumption|]. unfold write_entries.
  repeat match goal with
         | E : _ = _ |- _ => rewrite E; clear E
         end.
  reflexivity.
Qed.

(** X19. The comparison of two themes is an equivalence: reflexive,
    symmetric and transitive. It reads every field but the changed flag,
    so two themes that compare equal are written to the same definition
    file with the same entries, are laid out the same in every window and
    fill the panel with the same colour; and a theme compares equal to
    itself with the flag turned. *)
Theorem Theme_eqb_equivalence (a b c : ThemeData) :
  Theme_eqb a a = true /\
  Theme_eqb a b = Theme_eqb b a /\
  (Theme_eqb a b = true -> Theme_eqb b c = true -> Theme_eqb a c = true) /\
  (Theme_eqb a b = true ->
   (forall root st, write root st a = write root st b) /\
   (forall size, foregroundRect a size = foregroundRect b size) /\
   render_foreground_color a = render_foreground_color b) /\
  Theme_eqb
    (set_background a (background_path a) (background_image a) (negb (is_changed a)))
    a = true.
Proof.
  split; [apply Theme_eqb_refl|]. split; [|split; [|split]].
  - destruct (Theme_eqb a b) eqn:E1, (Theme_eqb b a) eqn:E2; try reflexivity.
    + apply Theme_eqb_compared in E1. symmetry in E1.
      apply Theme_eqb_compared in E1. congruence.
    + apply Theme_eqb_compared in E2. symmetry in E2.
      apply Theme_eqb_compared in E2. congruence.
  - intros H1 H2. apply Theme_eqb_compared in H1, H2.
    apply Theme_eqb_compared. congruence.
  - intros H. apply Theme_eqb_compared in H.
    destruct (compared_write_entries a b H) as [Hn He].
    split; [|split].
    + intros root st. unfold write. now rewrite Hn, He.
    + intros size. unfold compared in H. injection H; intros.
      unfold foregroundRect.
      repeat match goal with
             | E : _ = _ |- _ => rewrite E; clear E
             end.
      reflexivity.
    + unfold compared in H. injection H; intros.
      unfold render_foreground_color.
      repeat match goal with
             | E : _ = _ |- _ => rewrite E; clear E
             end.
      reflexivity.
  - apply Theme_eqb_compared. reflexivity.
Qed.

(** ** From the chosen image to the maintenance pass *)

Lemma QFile_open_Some (fs : filesystem) (p : string) (bytes : list byte) :
  QFile_open fs p = Some bytes ->
  exists v, fs !! p = Some v /\ forall fs', fs' !! p = Some v -> QFile_open fs' p = Some bytes.
Proof.
  unfold QFile_open. destruct (fs !! p) as [v|] eqn:E; [|discriminate].
  intros H. exists v. split; [reflexivity|]. intros fs' ->. exact H.
Qed.

Lemma filePath_listed (root : string) (st : store) (theme : string) :
  theme <> EmptyString -> isHidden theme = false ->
  is_Some (themes st !! filePath root theme) ->
  exists t, t ∈ theme_list root st /\ theme_file root t = filePath root theme.
Proof.
  intros Hn Hh Hs. destruct (filePath_theme_file root theme) as (Hp & _).
  exists (toPercentEncoding theme " " +:+ ".theme"). split; [|now rewrite Hp].
  apply theme_list_filePath. apply isEmpty_false in Hn. auto.
Qed.

(** X20. An image chosen for a theme that is then saved outlives the
    maintenance pass, when the name of the theme does not begin with a dot
    (the pass does not walk a hidden definition file): after
    [setBackgroundImage] with a path that can be read, [write] and
    [copyBackgrounds], the Images directory still holds the file the theme
    names as its cached image, with the bytes of the source, and the
    definition file of the theme still records that name and the source
    path. *)
Theorem saved_image_survives {R : PathResolution} (root : string) (st : store)
    (d : ThemeData) (path : string) (bytes : list byte) :
  name d <> EmptyString ->
  isHidden (name d) = false ->
  path <> EmptyString ->
  background_path d <> path ->
  QFile_open (files st) path = Some bytes ->
  let r := setBackgroundImage root st d path in
  let st' := copyBackgrounds root (write root (fst r) (snd r)) in
  let file := filePath root (name d) in
  QFile_open (files st') (filePathIn (imagesDir root) (background_image (snd r)))
  = Some bytes /\
  value (QSettings_open st' file) "Background/ImageFile" EmptyString
  = background_image (snd r) /\
  value (QSettings_open st' file) "Background/Image" EmptyString = path.
Proof.
  intros Hn Hh Hp Hne Ho r st' file. subst st' file.
  assert (Hr : name (snd r) = name d /\ background_path (snd r) = path /\
               file_name (background_image (snd r)) = true /\
               QFile_open (files (fst r))
                 (filePathIn (imagesDir root) (background_image (snd r)))
               = Some bytes).
  { subst r. unfold setBackgroundImage.
    destruct (String.eqb_spec (background_path d) path); [contradiction|].
    apply isEmpty_false in Hp. rewrite Hp. cbn [negb].
    pose proof (copyImage_content root (files st) path bytes Ho) as Hc.
    pose proof (copyImage_file_name root (files st) path) as He.
    cbn zeta in Hc.
    destruct (copyImage root (files st) path) as [image fs'].
    cbn [fst snd set_background name background_path background_image with_files files]
      in *.
    split; [reflexivity|]. split; [reflexivity|]. split; [exact He|]. apply Hc. }
  destruct Hr as (Hname & Hpath & Himage & Hopen).
  remember (fst r) as st1 eqn:E1. remember (snd r) as d1 eqn:E2. clear E1 E2 r.
  rewrite <- Hname in *.
  set (st2 := write root st1 d1).
  assert (Hf2 : files st2 = files st1) by (unfold st2; now rewrite write_unfold).
  assert (Hs2 : QSettings_open st2 (filePath root (name d1))
                = set_entries (QSettings_open st1 (filePath root (name d1)))
                    (write_entries d1)) by (now apply write_open).
  assert (Hin : is_Some (themes st2 !! filePath root (name d1))).
  { unfold st2. rewrite write_unfold by exact Hn. cbn [themes].
    rewrite lookup_insert_eq. eauto. }
  destruct (filePath_listed root st2 (name d1) Hn Hh Hin) as (t & Ht & Hfile).
  assert (Hcached : cached_of root st2 t = background_image d1).
  { unfold cached_of, value. rewrite Hfile, Hs2, set_entries_lookup.
    now rewrite last_binding_image_file. }
  assert (Hsource : source_of root st2 t = path).
  { unfold source_of, value. rewrite Hfile, Hs2, set_entries_lookup.
    rewrite last_binding_image, Hpath.
    apply isEmpty_false in Hp. now rewrite Hp. }
  rewrite <- Hf2 in Hopen.
  apply QFile_open_Some in Hopen as (v & Hv & Hkeep).
  destruct (copyBackgrounds_kept root st2 t (background_image d1) v Ht Hcached
              Himage Hv) as [Hc Hfv].
  split; [now apply Hkeep|]. split.
  - unfold cached_of in Hc. now rewrite Hfile in Hc.
  - unfold value. rewrite copyBackgrounds_other_keys by discriminate.
    unfold source_of, value in Hsource. now rewrite Hfile in Hsource.
Qed.

Lemma saved_image_survives_witness :
  let r := setBackgroundImage "/themes" unloaded_store (sample_theme "Paper" 1 100)
             "/home/pic.PNG" in
  let st' := copyBackgrounds (R := dot_slash) "/themes"
               (write "/themes" (fst r) (snd r)) in
  let file := filePath "/themes" "Paper" in
  QFile_open (files st') (filePathIn (imagesDir "/themes") (background_image (snd r)))
  = Some [x50; x4e; x47] /\
  value (QSettings_open st' file) "Background/ImageFile" EmptyString
  = background_image (snd r) /\
  value (QSettings_open st' file) "Background/Image" EmptyString = "/home/pic.PNG".
Proof.
  apply (saved_image_survives (R := dot_slash) "/themes" unloaded_store
           (sample_theme "Paper" 1 100) "/home/pic.PNG" [x50; x4e; x47]).
  - discriminate.
  - reflexivity.
  - discriminate.
  - discriminate.
  - vm_compute. reflexivity.
Defined.

(** ** The alpha of the fill as a colour channel *)

(** X21. For opacities within the declared range the alpha [render] gives
    to the foreground fill is a colour channel (0 to 255) and grows
    strictly with the opacity, so two different opacities never give the
    same fill; the fill keeps the red, green and blue of the foreground
    colour and its validity. *)
Theorem render_alpha_monotone (d1 d2 : ThemeData) :
  ranged 0 100 (foreground_opacity d1) ->
  ranged 0 100 (foreground_opacity d2) ->
  (0 <= alpha (render_foreground_color d1) <= 255)%Z /\
  ((rvalue (foreground_opacity d1) < rvalue (foreground_opacity d2))%Z ->
   (alpha (render_foreground_color d1) < alpha (render_foreground_color d2))%Z) /\
  (alpha (render_foreground_color d1) = alpha (render_foreground_color d2) ->
   rvalue (foreground_opacity d1) = rvalue (foreground_opacity d2)) /\
  red (render_foreground_color d1) = red (foreground_color d1) /\
  green (render_foreground_color d1) = green (foreground_color d1) /\
  blue (render_foreground_color d1) = blue (foreground_color d1) /\
  valid (render_foreground_color d1) = valid (foreground_color d1).
Proof.
  intros (_ & _ & H1) (_ & _ & H2).
  unfold render_foreground_color, setAlpha. cbn [alpha red green blue valid].
  rewrite !foreground_alpha_floor by assumption.
  set (o1 := rvalue (foreground_opacity d1)) in *.
  set (o2 := rvalue (foreground_opacity d2)) in *.
  pose proof (Z.div_mod (o1 * 255) 100 ltac:(lia)) as E1.
  pose proof (Z.mod_pos_bound (o1 * 255) 100 ltac:(lia)) as B1.
  pose proof (Z.div_mod (o2 * 255) 100 ltac:(lia)) as E2.
  pose proof (Z.mod_pos_bound (o2 * 255) 100 ltac:(lia)) as B2.
  split; [lia|]. split; [lia|]. split; [lia|]. auto.
Qed.

Lemma render_alpha_monotone_witness :
  let d1 := sample_theme "T" 1 39 in
  let d2 := sample_theme "T" 1 40 in
  (0 <= alpha (render_foreground_color d1) <= 255)%Z /\
  ((rvalue (foreground_opacity d1) < rvalue (foreground_opacity d2))%Z ->
   (alpha (render_foreground_color d1) < alpha (render_foreground_color d2))%Z) /\
  (alpha (render_foreground_color d1) = alpha (render_foreground_color d2) ->
   rvalue (foreground_opacity d1) = rvalue (foreground_opacity d2)) /\
  red (render_foreground_color d1) = red (foreground_color d1) /\
  green (render_foreground_color d1) = green (foreground_color d1) /\
  blue (render_foreground_color d1) = blue (foreground_color d1) /\
  valid (render_foreground_color d1) = valid (foreground_color d1).
Proof.
  apply (render_alpha_monotone (sample_theme "T" 1 39) (sample_theme "T" 1 40));
    vm_compute; intuition congruence.
Defined.
